(** * public-class-builder: a shallow embedding of [Utility.js] and
      [PublicClassBuilder.js]

    Both modules synthesise a "public" class from a "private" class: every
    own member of the private class (and of its prototype) whose name does
    not start with an underscore is mirrored by a forwarding member on the
    public class, and four maps relate public and private classes and
    instances.

    The embedding follows the source closely.  JavaScript values live in a
    heap of objects with ordered own properties, a prototype link and an
    internal kind (ordinary, array, function, promise; a promise made by a
    translator records the promise it follows and the translator that is
    to rewrite its result).  The functions the
    modules create at run time are kept in the heap as closures: a
    constructor of [Code] records which function expression of the source
    the closure comes from and what it captured.  Code that belongs to the
    users of the modules (the private classes and their methods) is taken
    from a [Host] record, so that every theorem holds for all of them.

    Computations are state transformers that may throw and may run out of
    call stack ([None]).

    Limits of the object model: no Proxy objects, [instanceof] is the
    ordinary one (no [Symbol.hasInstance] override), [Array.prototype.map]
    is the built-in one and builds plain arrays, numbers are integers. *)

From Stdlib Require Import ZArith.
From stdpp Require Import base option list strings pretty gmap fin_maps.

Local Open Scope string_scope.

(** ** Values, properties, objects *)

Definition loc := positive.
Definition rid := positive.

Inductive Value :=
  | VUndef
  | VNull
  | VBool (b : bool)
  | VNum (n : Z)
  | VStr (s : string)
  | VSym (id : nat)
  | VObj (l : loc).

Inductive PropKey :=
  | KStr (s : string)
  | KSym (id : nat).

(** A complete property, as [Reflect.getOwnPropertyDescriptor] reports it. *)
Inductive Property :=
  | PData (value : Value) (writable enumerable configurable : bool)
  | PAccessor (get set : Value) (enumerable configurable : bool).

(** A descriptor object as handed to [Object.defineProperty]: every field
    may be absent. *)
Record Desc := mkDesc {
  d_value : option Value;
  d_writable : option bool;
  d_get : option Value;
  d_set : option Value;
  d_enumerable : option bool;
  d_configurable : option bool
}.

(** The four translators of the two modules; those of
    [PublicClassBuilder.js] are called with a receiver. *)
Inductive Translator :=
  | TfilterPublicInstance
  | TfilterPrivateInstance
  | TfilterPublic (this : Value)
  | TfilterPrivate (this : Value).

(** The function objects the two modules create.  [U...] closures come from
    [Utility.js], [B...] closures from [PublicClassBuilder.js]; [CHost] is
    any function of the surrounding program. *)
Inductive Code :=
  | CHost
  (* Utility.js *)
  | UPublicClass (PrivateClass : loc)
  | U_get (PublicClass : loc)
  | UStaticGetter (privateProperty : Property) (PrivateClass : loc)
  | UStaticSetter (privateProperty : Property) (PrivateClass : loc)
  | UStaticMethod (privateProperty : Property) (PrivateClass : loc)
  | UStaticValue (privateProperty : Property)
  | UProtoGetter (privateProtoProperty : Property)
  | UProtoSetter (privateProtoProperty : Property)
  | UProtoMethod (privateProtoProperty : Property)
  | UProtoValue (privateProtoProperty : Property)
  (* PublicClassBuilder.js *)
  | BPublicClass (_private : option rid) (PrivateClass : loc)
  | B_get (_private : option rid) (PublicClass : loc)
  | BStaticGetter (privateProperty : Property) (PrivateClass : loc)
  | BStaticSetter (privateProperty : Property) (PrivateClass : loc)
  | BStaticMethod (privateProperty : Property) (PrivateClass : loc)
  | BStaticValue (privateProperty : Property)
  | BProtoGetter (_private : option rid) (privateProtoProperty : Property)
  | BProtoSetter (_private : option rid) (privateProtoProperty : Property)
  | BProtoMethod (_private : option rid) (privateProtoProperty : Property)
  | BProtoValue (_private : option rid) (privateProtoProperty : Property).

Inductive Kind :=
  | KOrdinary
  | KArray (elems : list (option Value))   (* [None] is a hole *)
  | KFunction (c : Code)
  | KPromise (derived : option (Value * Translator)).

Record Obj := mkObj {
  o_proto : option loc;
  o_extensible : bool;
  o_props : list (PropKey * Property);     (* in [Reflect.ownKeys] order *)
  o_kind : Kind
}.

(** The four maps.  [set] is only ever called with an object as key, so
    the maps are keyed by locations ([None] in [_private] closures stands
    for a captured [undefined]). *)
Record Registry := mkRegistry {
  publicClassesMap : gmap loc Value;
  privateClassesMap : gmap loc Value;
  publicInstancesMap : gmap loc Value;
  privateInstancesMap : gmap loc Value
}.

Definition empty_registry : Registry := mkRegistry ∅ ∅ ∅ ∅.

(** The state of the program: the heap, the four maps closed over by
    [exports.getPublicClass] in [Utility.js], and for
    [PublicClassBuilder.js] the module-level [_privateMap] from builders to
    their [_private] object, together with the store of these objects. *)
Record State := mkState {
  heap : gmap loc Obj;
  closure : Registry;
  _privateMap : gmap loc rid;
  privates : gmap rid Registry
}.

Inductive Exn :=
  | JsError (message : string)
  | TypeError
  | ReferenceError
  | Thrown (v : Value).

Inductive Outcome (A : Type) :=
  | Ok (a : A)
  | Throw (e : Exn).
Arguments Ok {A} a.
Arguments Throw {A} e.

(** [None]: the call stack is exhausted. *)
Definition M (A : Type) : Type := State → option (Outcome A * State).

Definition ret {A} (a : A) : M A := λ st, Some (Ok a, st).
Definition throw {A} (e : Exn) : M A := λ st, Some (Throw e, st).
Definition overflow {A} : M A := λ _, None.
Definition bind {A B} (m : M A) (k : A → M B) : M B := λ st,
  match m st with
  | Some (Ok a, st') => k a st'
  | Some (Throw e, st') => Some (Throw e, st')
  | None => None
  end.
Definition gets {A} (f : State → A) : M A := λ st, Some (Ok (f st), st).
Definition modify (f : State → State) : M unit := λ st, Some (Ok tt, f st).

Declare Scope js_scope.
Delimit Scope js_scope with js.
Notation "'let*' x ':=' m 'in' k" := (bind m (λ x, k))
  (at level 10, x name, m at level 100, k at level 200) : js_scope.
Local Open Scope js_scope.

#[global] Instance Value_eq_dec : EqDecision Value.
Proof. solve_decision. Defined.
#[global] Instance PropKey_eq_dec : EqDecision PropKey.
Proof. solve_decision. Defined.

(** ** Primitive operations of the object model *)

Definition set_heap (h : gmap loc Obj) (st : State) : State :=
  mkState h (closure st) (_privateMap st) (privates st).
Definition set_closure (r : Registry) (st : State) : State :=
  mkState (heap st) r (_privateMap st) (privates st).

Definition alloc (o : Obj) : M loc := λ st,
  let l := fresh (dom (heap st)) in
  Some (Ok l, set_heap (<[l := o]> (heap st)) st).

Definition update_obj (l : loc) (f : Obj → Obj) : M unit :=
  modify (λ st, set_heap (alter f l (heap st)) st).

Definition kind_of (st : State) (l : loc) : option Kind :=
  o_kind <$> heap st !! l.

Definition code_of (st : State) (l : loc) : option Code :=
  match kind_of st l with
  | Some (KFunction c) => Some c
  | _ => None
  end.

Definition is_callable (st : State) (v : Value) : bool :=
  match v with
  | VObj l => bool_decide (is_Some (code_of st l))
  | _ => false
  end.

(** [typeof v] *)
Definition typeof (st : State) (v : Value) : string :=
  match v with
  | VUndef => "undefined"
  | VNull => "object"
  | VBool _ => "boolean"
  | VNum _ => "number"
  | VStr _ => "string"
  | VSym _ => "symbol"
  | VObj l => if is_callable st v then "function" else "object"
  end.

(** [Array.isArray(v)] *)
Definition isArray (st : State) (v : Value) : bool :=
  match v with
  | VObj l => match kind_of st l with Some (KArray _) => true | _ => false end
  | _ => false
  end.

Definition array_elems (st : State) (l : loc) : option (list (option Value)) :=
  match kind_of st l with
  | Some (KArray es) => Some es
  | _ => None
  end.

(** Truthiness. *)
Definition to_boolean (v : Value) : bool :=
  match v with
  | VUndef | VNull => false
  | VBool b => b
  | VNum n => negb (n =? 0)%Z
  | VStr s => negb (String.eqb s "")
  | VSym _ | VObj _ => true
  end.

Definition startsWith (s p : string) : bool := String.prefix p s.

Fixpoint assoc (k : PropKey) (ps : list (PropKey * Property)) : option Property :=
  match ps with
  | [] => None
  | (k', p) :: ps' => if decide (k = k') then Some p else assoc k ps'
  end.

Fixpoint assoc_set (k : PropKey) (p : Property) (ps : list (PropKey * Property))
  : list (PropKey * Property) :=
  match ps with
  | [] => [(k, p)]
  | (k', p') :: ps' =>
      if decide (k = k') then (k, p) :: ps' else (k', p') :: assoc_set k p ps'
  end.

Definition own_prop (st : State) (l : loc) (k : PropKey) : option Property :=
  heap st !! l ≫= λ o, assoc k (o_props o).

(** [Reflect.ownKeys(l)] *)
Definition ownKeys (st : State) (l : loc) : list PropKey :=
  match heap st !! l with
  | Some o => (o_props o).*1
  | None => []
  end.

(** Ordinary property lookup along the prototype chain; the chain of a heap
    is never longer than the heap. *)
Fixpoint lookup_chain (n : nat) (h : gmap loc Obj) (l : loc) (k : PropKey)
  : option Property :=
  match h !! l with
  | None => None
  | Some o =>
      match assoc k (o_props o) with
      | Some p => Some p
      | None =>
          match n, o_proto o with
          | S n', Some l' => lookup_chain n' h l' k
          | _, _ => None
          end
      end
  end.

Definition find_property (st : State) (l : loc) (k : PropKey) : option Property :=
  lookup_chain (size (heap st)) (heap st) l k.

(** Is [P] on the prototype chain of [l]? *)
Fixpoint on_chain (n : nat) (h : gmap loc Obj) (l P : loc) : bool :=
  match h !! l with
  | None => false
  | Some o =>
      match o_proto o with
      | None => false
      | Some l' =>
          if decide (l' = P) then true
          else match n with S n' => on_chain n' h l' P | O => false end
      end
  end.

(** Fields of a descriptor object read from JavaScript: an absent field
    reads as [undefined]. *)
Definition p_get (p : Property) : Value :=
  match p with PAccessor g _ _ _ => g | PData _ _ _ _ => VUndef end.
Definition p_set (p : Property) : Value :=
  match p with PAccessor _ s _ _ => s | PData _ _ _ _ => VUndef end.
Definition p_value (p : Property) : Value :=
  match p with PData v _ _ _ => v | PAccessor _ _ _ _ => VUndef end.
Definition p_writable (p : Property) : bool :=
  match p with PData _ w _ _ => w | PAccessor _ _ _ _ => false end.
Definition p_enumerable (p : Property) : bool :=
  match p with PData _ _ e _ => e | PAccessor _ _ e _ => e end.
Definition p_configurable (p : Property) : bool :=
  match p with PData _ _ _ c => c | PAccessor _ _ _ c => c end.
Definition is_accessor (p : Property) : bool :=
  match p with PAccessor _ _ _ _ => true | PData _ _ _ _ => false end.

(** *** [Object.defineProperty] *)

Definition empty_desc : Desc := mkDesc None None None None None None.
Definition with_value (v : Value) (d : Desc) : Desc :=
  mkDesc (Some v) (d_writable d) (d_get d) (d_set d) (d_enumerable d) (d_configurable d).
Definition with_writable (b : bool) (d : Desc) : Desc :=
  mkDesc (d_value d) (Some b) (d_get d) (d_set d) (d_enumerable d) (d_configurable d).
Definition with_get (v : Value) (d : Desc) : Desc :=
  mkDesc (d_value d) (d_writable d) (Some v) (d_set d) (d_enumerable d) (d_configurable d).
Definition with_set (v : Value) (d : Desc) : Desc :=
  mkDesc (d_value d) (d_writable d) (d_get d) (Some v) (d_enumerable d) (d_configurable d).
Definition with_enumerable (b : bool) (d : Desc) : Desc :=
  mkDesc (d_value d) (d_writable d) (d_get d) (d_set d) (Some b) (d_configurable d).
Definition with_configurable (b : bool) (d : Desc) : Desc :=
  mkDesc (d_value d) (d_writable d) (d_get d) (d_set d) (d_enumerable d) (Some b).

Definition desc_is_accessor (d : Desc) : bool :=
  bool_decide (is_Some (d_get d)) || bool_decide (is_Some (d_set d)).
Definition desc_is_data (d : Desc) : bool :=
  bool_decide (is_Some (d_value d)) || bool_decide (is_Some (d_writable d)).

(** ToPropertyDescriptor: getter and setter must be callable or undefined,
    and an accessor descriptor has neither [value] nor [writable]. *)
Definition callable_or_undefined (st : State) (o : option Value) : bool :=
  match o with
  | None | Some VUndef => true
  | Some v => is_callable st v
  end.

Definition desc_well_formed (st : State) (d : Desc) : bool :=
  callable_or_undefined st (d_get d) && callable_or_undefined st (d_set d)
  && negb (desc_is_accessor d && desc_is_data d).

(** A property created from [d], absent fields taking their defaults. *)
Definition property_of_desc (d : Desc) (enumerable configurable : bool) : Property :=
  if desc_is_accessor d
  then PAccessor (default VUndef (d_get d)) (default VUndef (d_set d))
                 enumerable configurable
  else PData (default VUndef (d_value d)) (default false (d_writable d))
             enumerable configurable.

Definition differs {A} `{EqDecision A} (o : option A) (a : A) : bool :=
  match o with Some a' => bool_decide (a' ≠ a) | None => false end.

(** The rejections ValidateAndApplyPropertyDescriptor makes for a property
    that is not configurable. *)
Definition frozen_conflict (cur : Property) (d : Desc) : bool :=
  bool_decide (d_configurable d = Some true)
  || differs (d_enumerable d) (p_enumerable cur)
  || (desc_is_accessor d || desc_is_data d)
     && negb (Bool.eqb (desc_is_accessor d) (is_accessor cur))
  || match cur with
     | PAccessor g s _ _ => differs (d_get d) g || differs (d_set d) s
     | PData v w _ _ =>
         negb w && (bool_decide (d_writable d = Some true) || differs (d_value d) v)
     end.

Definition apply_desc (cur : Property) (d : Desc) : Property :=
  let e := default (p_enumerable cur) (d_enumerable d) in
  let c := default (p_configurable cur) (d_configurable d) in
  match cur with
  | PData v w _ _ =>
      if desc_is_accessor d then property_of_desc d e c
      else PData (default v (d_value d)) (default w (d_writable d)) e c
  | PAccessor g s _ _ =>
      if desc_is_data d then property_of_desc d e c
      else PAccessor (default g (d_get d)) (default s (d_set d)) e c
  end.

Definition validate_and_apply (o : Obj) (k : PropKey) (d : Desc) : option Obj :=
  match assoc k (o_props o) with
  | None =>
      if o_extensible o
      then Some (mkObj (o_proto o) (o_extensible o)
                   (assoc_set k (property_of_desc d (default false (d_enumerable d))
                                                   (default false (d_configurable d)))
                              (o_props o))
                   (o_kind o))
      else None
  | Some cur =>
      if negb (p_configurable cur) && frozen_conflict cur d then None
      else Some (mkObj (o_proto o) (o_extensible o)
                   (assoc_set k (apply_desc cur d) (o_props o)) (o_kind o))
  end.

(** The property [Object.defineProperty(o, k, d)] leaves under [k]. *)
Definition define_result (o : Obj) (k : PropKey) (d : Desc) : Property :=
  match assoc k (o_props o) with
  | Some cur => apply_desc cur d
  | None => property_of_desc d (default false (d_enumerable d))
                               (default false (d_configurable d))
  end.

(** [Object.defineProperty(O, key, d)] *)
Definition defineProperty (O : Value) (k : PropKey) (d : Desc) : M unit := λ st,
  match O with
  | VObj l =>
      match heap st !! l with
      | Some o =>
          if desc_well_formed st d then
            match validate_and_apply o k d with
            | Some o' => Some (Ok tt, set_heap (<[l := o']> (heap st)) st)
            | None => Some (Throw TypeError, st)
            end
          else Some (Throw TypeError, st)
      | None => Some (Throw TypeError, st)
      end
  | _ => Some (Throw TypeError, st)
  end.

(** *** Intrinsic objects, maps, arrays *)

Definition ObjectPrototype : loc := 1%positive.
Definition FunctionPrototype : loc := 2%positive.
Definition ArrayPrototype : loc := 3%positive.
Definition PromisePrototype : loc := 4%positive.
Definition PublicClassBuilderPrototype : loc := 5%positive.

(** [map.has(v)] and [map.get(v)] of a [Map] or [WeakMap] *)
Definition has (m : gmap loc Value) (v : Value) : bool :=
  match v with
  | VObj l => bool_decide (is_Some (m !! l))
  | _ => false
  end.

Definition get (m : gmap loc Value) (v : Value) : Value :=
  match v with
  | VObj l => default VUndef (m !! l)
  | _ => VUndef
  end.

Definition set_publicClassesMap (k : loc) (v : Value) (r : Registry) : Registry :=
  mkRegistry (<[k := v]> (publicClassesMap r)) (privateClassesMap r)
             (publicInstancesMap r) (privateInstancesMap r).
Definition set_privateClassesMap (k : loc) (v : Value) (r : Registry) : Registry :=
  mkRegistry (publicClassesMap r) (<[k := v]> (privateClassesMap r))
             (publicInstancesMap r) (privateInstancesMap r).
Definition set_publicInstancesMap (k : loc) (v : Value) (r : Registry) : Registry :=
  mkRegistry (publicClassesMap r) (privateClassesMap r)
             (<[k := v]> (publicInstancesMap r)) (privateInstancesMap r).
Definition set_privateInstancesMap (k : loc) (v : Value) (r : Registry) : Registry :=
  mkRegistry (publicClassesMap r) (privateClassesMap r)
             (publicInstancesMap r) (<[k := v]> (privateInstancesMap r)).

(** Updates of the maps closed over in [Utility.js]. *)
Definition closure_update (f : Registry → Registry) : M unit :=
  modify (λ st, set_closure (f (closure st)) st).

(** [_privateMap.get(this)]: [None] is [undefined]. *)
Definition _privateMap_get (this : Value) : M (option rid) :=
  gets (λ st, match this with VObj l => _privateMap st !! l | _ => None end).

(** [_private.field]: reading a field of [undefined] is a TypeError. *)
Definition field (f : Registry → gmap loc Value) (_private : option rid)
  : M (gmap loc Value) := λ st,
  match _private ≫= λ r, privates st !! r with
  | Some reg => Some (Ok (f reg), st)
  | None => Some (Throw TypeError, st)
  end.

(** [_private.field.set(k, v)] *)
Definition field_update (f : Registry → Registry) (_private : option rid)
  : M unit := λ st,
  match _private with
  | Some r =>
      match privates st !! r with
      | Some reg =>
          Some (Ok tt, mkState (heap st) (closure st) (_privateMap st)
                               (<[r := f reg]> (privates st)))
      | None => Some (Throw TypeError, st)
      end
  | None => Some (Throw TypeError, st)
  end.

Definition new_array (es : list (option Value)) : M loc :=
  alloc (mkObj (Some ArrayPrototype) true [] (KArray es)).

(** The array of a rest parameter. *)
Definition rest_array (args : list Value) : M Value :=
  let* l := new_array (Some <$> args) in ret (VObj l).

(** [arr[i]] *)
Definition index (arr : Value) (i : nat) : M Value :=
  gets (λ st,
    match arr with
    | VObj l =>
        match array_elems st l with
        | Some es => default VUndef (mjoin (es !! i))
        | None => VUndef
        end
    | _ => VUndef
    end).

(** The argument list of [f.apply(receiver, arr)] and of [new C(...arr)];
    holes read as [undefined].  Only arrays are spread by the two modules. *)
Definition list_of_array (arr : Value) : M (list Value) := λ st,
  match arr with
  | VObj l =>
      match array_elems st l with
      | Some es => Some (Ok (default VUndef <$> es), st)
      | None => Some (Throw TypeError, st)
      end
  | _ => Some (Throw TypeError, st)
  end.

Fixpoint map_elems (f : Value → M Value) (es : list (option Value))
  : M (list (option Value)) :=
  match es with
  | [] => ret []
  | None :: es' => let* r := map_elems f es' in ret (None :: r)
  | Some v :: es' =>
      let* v' := f v in
      let* r := map_elems f es' in
      ret (Some v' :: r)
  end.

Definition set_kind (k : Kind) (o : Obj) : Obj :=
  mkObj (o_proto o) (o_extensible o) (o_props o) k.

(** The elements of an array, holes included. *)
Definition elems_of (obj : Value) : M (list (option Value)) := λ st,
  match obj with
  | VObj l =>
      match array_elems st l with
      | Some es => Some (Ok es, st)
      | None => Some (Throw TypeError, st)
      end
  | _ => Some (Throw TypeError, st)
  end.

(** [obj.map(f)]: the result array is created first, then filled; holes
    are skipped and stay holes. *)
Definition Array_map (f : Value → M Value) (obj : Value) : M Value :=
  let* es := elems_of obj in
  let* A := new_array (replicate (length es) None) in
  let* es' := map_elems f es in
  let* _ := update_obj A (set_kind (KArray es')) in
  ret (VObj A).

(** [new Promise((resolve, reject) =>
      obj.then(result => resolve(f(result))).catch(reject))]:
    a new promise that follows [obj] and rewrites its result with [f]. *)
Definition new_Promise (obj : Value) (f : Translator) : M Value :=
  let* p := alloc (mkObj (Some PromisePrototype) true [] (KPromise (Some (obj, f)))) in
  ret (VObj p).

(** ** The value translators *)

(** *** Utility.js, lines 19-39 *)

Fixpoint filterPublicInstance (fuel : nat) (obj : Value) : M Value :=
  match fuel with
  | O => overflow
  | S n => λ st,
      if has (publicInstancesMap (closure st)) obj
      then ret (get (publicInstancesMap (closure st)) obj) st
      else if isArray st obj
      then Array_map (filterPublicInstance n) obj st
      else if String.eqb (typeof st obj) "promise"
      then new_Promise obj TfilterPublicInstance st
      else ret obj st
  end.

Fixpoint filterPrivateInstance (fuel : nat) (obj : Value) : M Value :=
  match fuel with
  | O => overflow
  | S n => λ st,
      if has (privateInstancesMap (closure st)) obj
      then ret (get (privateInstancesMap (closure st)) obj) st
      else if isArray st obj
      then Array_map (filterPrivateInstance n) obj st
      else if String.eqb (typeof st obj) "promise"
      then new_Promise obj TfilterPrivateInstance st
      else ret obj st
  end.

(** *** PublicClassBuilder.js, lines 9-37 *)

Fixpoint filterPublic (fuel : nat) (this : Value) (obj : Value) : M Value :=
  match fuel with
  | O => overflow
  | S n =>
      let* _private := _privateMap_get this in
      let* instances := field publicInstancesMap _private in
      if has instances obj then ret (get instances obj) else
      let* classes := field publicClassesMap _private in
      if has classes obj then ret (get classes obj) else
      λ st,
        if isArray st obj
        then Array_map (λ elem, filterPublic n this elem) obj st
        else if String.eqb (typeof st obj) "promise"
        then new_Promise obj (TfilterPublic this) st
        else ret obj st
  end.

Fixpoint filterPrivate (fuel : nat) (this : Value) (obj : Value) : M Value :=
  match fuel with
  | O => overflow
  | S n =>
      let* _private := _privateMap_get this in
      let* instances := field privateInstancesMap _private in
      if has instances obj then ret (get instances obj) else
      let* classes := field privateClassesMap _private in
      if has classes obj then ret (get classes obj) else
      λ st,
        if isArray st obj
        then Array_map (λ elem, filterPrivate n this elem) obj st
        else if String.eqb (typeof st obj) "promise"
        then new_Promise obj (TfilterPrivate this) st
        else ret obj st
  end.

(** ** Functions of the surrounding program *)

Record Host := mkHost {
  (** calling a function that is not one of the closures of the modules *)
  host_call : loc → Value → list Value → M Value;
  (** [new C(...args)] for such a function *)
  host_construct : loc → list Value → M loc;
  (** the string an object converts to in a template literal *)
  host_to_string : loc → M string
}.

(** ** Function objects *)

Definition data (v : Value) (w e c : bool) : Property := PData v w e c.

Definition add_prop (k : PropKey) (p : Property) (o : Obj) : Obj :=
  mkObj (o_proto o) (o_extensible o) (o_props o ++ [(k, p)]) (o_kind o).

(** A function expression [function (...) {...}]: a function object
    with [length], [name] and a fresh [prototype] object. *)
Definition make_function (c : Code) (len : Z) : M loc :=
  let* F := alloc (mkObj (Some FunctionPrototype) true
                     [(KStr "length", data (VNum len) false false true);
                      (KStr "name", data (VStr "") false false true)]
                     (KFunction c)) in
  let* P := alloc (mkObj (Some ObjectPrototype) true
                     [(KStr "constructor", data (VObj F) true false true)]
                     KOrdinary) in
  let* _ := update_obj F (add_prop (KStr "prototype") (data (VObj P) true false false)) in
  ret F.

(** A method definition of a class body: no [prototype]. *)
Definition make_method (c : Code) (name : string) (len : Z) : M loc :=
  alloc (mkObj (Some FunctionPrototype) true
           [(KStr "length", data (VNum len) false false true);
            (KStr "name", data (VStr name) false false true)]
           (KFunction c)).

(** [class PublicClass { constructor(...publicArgs) {...}
                         static _get(privateInstance) {...} }]:
    [ctor] is the code of the constructor, [getter] of [_get], which
    refers to the class. *)
Definition define_PublicClass (ctor : Code) (getter : loc → Code) : M loc :=
  let* P := alloc (mkObj (Some ObjectPrototype) true [] KOrdinary) in
  let* F := alloc (mkObj (Some FunctionPrototype) true
                     [(KStr "length", data (VNum 0) false false true);
                      (KStr "name", data (VStr "PublicClass") false false true);
                      (KStr "prototype", data (VObj P) false false false)]
                     (KFunction ctor)) in
  let* _ := update_obj P (add_prop (KStr "constructor") (data (VObj F) true false true)) in
  let* g := make_method (getter F) "_get" 1 in
  let* _ := update_obj F (add_prop (KStr "_get") (data (VObj g) true false true)) in
  ret F.

(** [Reflect.ownKeys(v)] and [Reflect.getOwnPropertyDescriptor(v, k)] *)
Definition Reflect_ownKeys (v : Value) : M (list PropKey) := λ st,
  match v with
  | VObj l => Some (Ok (ownKeys st l), st)
  | _ => Some (Throw TypeError, st)
  end.

Definition Reflect_getOwnPropertyDescriptor (v : Value) (k : PropKey)
  : M (option Property) := λ st,
  match v with
  | VObj l => Some (Ok (own_prop st l k), st)
  | _ => Some (Throw TypeError, st)
  end.

(** [for (let x of l) body] where [continue] ends [body]. *)
Fixpoint for_of {A} (l : list A) (body : A → M unit) : M unit :=
  match l with
  | [] => ret tt
  | x :: l' => let* _ := body x in for_of l' body
  end.

(** ** Operations that may run code *)

(** What a function body may call back into: the translators with the
    call stack that is left, calls and constructions. *)
Record Interp := mkInterp {
  depth : nat;
  call_rec : loc → Value → list Value → M Value;
  construct_rec : loc → list Value → M loc
}.

Section Operations.
Context (host : Host) (I : Interp).

(** [f.call(this, ...args)] *)
Definition call_value (f : Value) (this : Value) (args : list Value) : M Value :=
  match f with
  | VObj l => call_rec I l this args
  | _ => throw TypeError
  end.

(** [v.k]; the property of a primitive is not needed by the modules. *)
Definition Get (v : Value) (k : PropKey) : M Value := λ st,
  match v with
  | VObj l =>
      match find_property st l k with
      | Some (PData x _ _ _) => Some (Ok x, st)
      | Some (PAccessor VUndef _ _ _) => Some (Ok VUndef, st)
      | Some (PAccessor g _ _ _) => call_value g v [] st
      | None => Some (Ok VUndef, st)
      end
  | VUndef | VNull => Some (Throw TypeError, st)
  | _ => Some (Ok VUndef, st)
  end.

(** [x instanceof C] *)
Definition instanceOf (x C : Value) : M bool :=
  let* callable := gets (λ st, is_callable st C) in
  if negb callable then throw TypeError else
  match x with
  | VObj l =>
      let* P := Get C (KStr "prototype") in
      match P with
      | VObj p => gets (λ st, on_chain (size (heap st)) (heap st) l p)
      | _ => throw TypeError
      end
  | _ => ret false
  end.

(** The string [v] contributes to a template literal. *)
Definition ToString (v : Value) : M string :=
  match v with
  | VUndef => ret "undefined"
  | VNull => ret "null"
  | VBool b => ret (if b then "true" else "false")
  | VNum n => ret (pretty n)
  | VStr s => ret s
  | VSym _ => throw TypeError
  | VObj l => host_to_string host l
  end.

(** [throw new Error(`${PublicClass.name}...`)] *)
Definition throw_Error {A} (PublicClass : loc) (text : string → string) : M A :=
  let* name := Get (VObj PublicClass) (KStr "name") in
  let* s := ToString name in
  throw (JsError (text s)).

(** The [this] of [new F(...)] for a base class or function [F]. *)
Definition create_this (F : loc) : M loc :=
  let* p := Get (VObj F) (KStr "prototype") in
  alloc (mkObj (Some (match p with VObj l => l | _ => ObjectPrototype end))
               true [] KOrdinary).

(** [map.set(k, v)] on one of the maps of [Utility.js] *)
Definition WeakMap_set (upd : loc → Value → Registry → Registry) (k v : Value)
  : M unit :=
  match k with
  | VObj l => closure_update (upd l v)
  | _ => throw TypeError
  end.

(** [_private.map.set(k, v)] on one of the maps of a builder *)
Definition Map_set (upd : loc → Value → Registry → Registry)
    (_private : option rid) (k v : Value) : M unit :=
  match k with
  | VObj l => field_update (upd l v) _private
  | _ => throw TypeError
  end.
End Operations.

Definition already_bound (name : string) : string :=
  name ++ "#constructor(privateInstance) -> privateInstance already has an associated publicInstance".
Definition unrelated (name : string) : string :=
  name ++ "._get(privateInstance) -> privateInstance does not relate to this public class".

(** ** Utility.js *)

Module Utility.
Section Closures.
Context (host : Host) (I : Interp).

(** lines 51-69: [PublicClass#constructor] *)
Definition PublicClass_constructor (PublicClass PrivateClass : loc)
    (this : loc) (args : list Value) : M unit :=
  let* publicArgs := rest_array args in
  let* first := index publicArgs 0 in
  let* wrap := instanceOf I first (VObj PrivateClass) in
  let* privateInstance :=
    if wrap then
      (* 1.1a. constructed with a private instance *)
      let* bound := gets (λ st, has (privateInstancesMap (closure st)) first) in
      if bound then throw_Error host I PublicClass already_bound
      else ret first
    else
      (* 1.1b. constructed from the public class *)
      let* privatArgs := filterPublicInstance (depth I) publicArgs in
      let* spread := list_of_array privatArgs in
      let* r := construct_rec I PrivateClass spread in
      ret (VObj r)
  in
  (* 1.2. save the relation *)
  let* _ := WeakMap_set set_publicInstancesMap (VObj this) privateInstance in
  WeakMap_set set_privateInstancesMap privateInstance (VObj this).

(** lines 71-78: [PublicClass._get] *)
Definition PublicClass__get (PublicClass : loc) (args : list Value) : M Value :=
  let privateInstance := nth 0 args VUndef in
  let* bound := gets (λ st, has (privateInstancesMap (closure st)) privateInstance) in
  if bound
  then gets (λ st, get (privateInstancesMap (closure st)) privateInstance)
  else
    let* C := gets (λ st, get (publicClassesMap (closure st)) (VObj PublicClass)) in
    let* related := instanceOf I privateInstance C in
    if related
    then let* r := construct_rec I PublicClass [privateInstance] in ret (VObj r)
    else throw_Error host I PublicClass unrelated.

(** lines 101-104 *)
Definition static_getter (privateProperty : Property) (PrivateClass : loc)
  : M Value :=
  let* privateResult := call_value I (p_get privateProperty) (VObj PrivateClass) [] in
  filterPrivateInstance (depth I) privateResult.

(** lines 109-112 *)
Definition static_setter (privateProperty : Property) (PrivateClass : loc)
    (args : list Value) : M Value :=
  let publicValue := nth 0 args VUndef in
  let* privatValue := filterPublicInstance (depth I) publicValue in
  let* _ := call_value I (p_set privateProperty) (VObj PrivateClass) [privatValue] in
  ret VUndef.

(** lines 120-124 *)
Definition static_method (privateProperty : Property) (PrivateClass : loc)
    (args : list Value) : M Value :=
  let* publicArgs := rest_array args in
  let* privatArgs := filterPublicInstance (depth I) publicArgs in
  let* applied := list_of_array privatArgs in
  let* privateResult :=
    call_value I (p_value privateProperty) (VObj PrivateClass) applied in
  filterPrivateInstance (depth I) privateResult.

(** lines 127-130 *)
Definition static_value (privateProperty : Property) : M Value :=
  let privateResult := p_value privateProperty in
  filterPrivateInstance (depth I) privateResult.

(** lines 157-162 *)
Definition proto_getter (privateProtoProperty : Property) (this : Value)
  : M Value :=
  let* bound := gets (λ st, has (publicInstancesMap (closure st)) this) in
  if negb bound then ret VUndef
  else
    let* target := gets (λ st, get (publicInstancesMap (closure st)) this) in
    let* privateResult := call_value I (p_get privateProtoProperty) target [] in
    filterPrivateInstance (depth I) privateResult.

(** lines 167-172 *)
Definition proto_setter (privateProtoProperty : Property) (this : Value)
    (args : list Value) : M Value :=
  let publicValue := nth 0 args VUndef in
  let* bound := gets (λ st, has (publicInstancesMap (closure st)) this) in
  if negb bound then ret VUndef
  else
    let* privatValue := filterPublicInstance (depth I) publicValue in
    let* target := gets (λ st, get (publicInstancesMap (closure st)) this) in
    let* _ := call_value I (p_set privateProtoProperty) target [privatValue] in
    ret VUndef.

(** lines 180-186 *)
Definition proto_method (privateProtoProperty : Property) (this : Value)
    (args : list Value) : M Value :=
  let* publicArgs := rest_array args in
  let* bound := gets (λ st, has (publicInstancesMap (closure st)) this) in
  if negb bound then ret VUndef
  else
    let* privatArgs := filterPublicInstance (depth I) publicArgs in
    let* target := gets (λ st, get (publicInstancesMap (closure st)) this) in
    let* applied := list_of_array privatArgs in
    let* privateResult :=
      call_value I (p_value privateProtoProperty) target applied in
    filterPrivateInstance (depth I) privateResult.

(** lines 189-194 *)
Definition proto_value (privateProtoProperty : Property) (this : Value)
  : M Value :=
  let* bound := gets (λ st, has (publicInstancesMap (closure st)) this) in
  if negb bound then ret VUndef
  else
    let privateResult := p_value privateProtoProperty in
    filterPrivateInstance (depth I) privateResult.

(** lines 83-136: one round of the loop over the keys of the class *)
Definition transfer_static (PrivateClass PublicClass : loc) (key : PropKey)
  : M unit :=
  match key with
  | KSym _ => ret tt
  | KStr name =>
      if startsWith name "_" then ret tt
      else if String.eqb name "prototype" then ret tt
      else
        let* found := Reflect_getOwnPropertyDescriptor (VObj PrivateClass) key in
        match found with
        | None => throw TypeError
        | Some privateProperty =>
            let publicProperty := empty_desc in
            let publicProperty :=
              if p_configurable privateProperty
              then with_configurable true publicProperty else publicProperty in
            let publicProperty :=
              if p_enumerable privateProperty
              then with_enumerable true publicProperty else publicProperty in
            let* publicProperty :=
              if to_boolean (p_get privateProperty)
                 || to_boolean (p_set privateProperty)
              then
                let* publicProperty :=
                  if to_boolean (p_get privateProperty) then
                    let* f := make_function
                                (UStaticGetter privateProperty PrivateClass) 0 in
                    ret (with_get (VObj f) publicProperty)
                  else ret publicProperty in
                if to_boolean (p_set privateProperty) then
                  let* f := make_function
                              (UStaticSetter privateProperty PrivateClass) 1 in
                  ret (with_set (VObj f) publicProperty)
                else ret publicProperty
              else
                let publicProperty :=
                  if p_writable privateProperty
                  then with_writable true publicProperty else publicProperty in
                let* type := gets (λ st, typeof st (p_value privateProperty)) in
                if String.eqb type "function" then
                  let* f := make_function
                              (UStaticMethod privateProperty PrivateClass) 0 in
                  ret (with_value (VObj f) publicProperty)
                else
                  let* f := make_function (UStaticValue privateProperty) 0 in
                  ret (with_get (VObj f) publicProperty)
            in
            defineProperty (VObj PublicClass) key publicProperty
        end
  end.

(** lines 139-200: one round of the loop over the keys of the prototype *)
Definition transfer_proto (PrivateClass PublicClass : loc) (protoKey : PropKey)
  : M unit :=
  match protoKey with
  | KSym _ => ret tt
  | KStr name =>
      if startsWith name "_" then ret tt
      else if String.eqb name "constructor" then ret tt
      else
        let* privateProto := Get I (VObj PrivateClass) (KStr "prototype") in
        let* found := Reflect_getOwnPropertyDescriptor privateProto protoKey in
        match found with
        | None => throw TypeError
        | Some privateProtoProperty =>
            let publicProtoProperty := empty_desc in
            let publicProtoProperty :=
              if p_configurable privateProtoProperty
              then with_configurable true publicProtoProperty
              else publicProtoProperty in
            let publicProtoProperty :=
              if p_enumerable privateProtoProperty
              then with_enumerable true publicProtoProperty
              else publicProtoProperty in
            let* publicProtoProperty :=
              if to_boolean (p_get privateProtoProperty)
                 || to_boolean (p_set privateProtoProperty)
              then
                let* publicProtoProperty :=
                  if to_boolean (p_get privateProtoProperty) then
                    let* f := make_function (UProtoGetter privateProtoProperty) 0 in
                    ret (with_get (VObj f) publicProtoProperty)
                  else ret publicProtoProperty in
                if to_boolean (p_set privateProtoProperty) then
                  let* f := make_function (UProtoSetter privateProtoProperty) 1 in
                  ret (with_set (VObj f) publicProtoProperty)
                else ret publicProtoProperty
              else
                let publicProtoProperty :=
                  if p_writable privateProtoProperty
                  then with_writable true publicProtoProperty
                  else publicProtoProperty in
                let* type :=
                  gets (λ st, typeof st (p_value privateProtoProperty)) in
                if String.eqb type "function" then
                  let* f := make_function (UProtoMethod privateProtoProperty) 0 in
                  ret (with_value (VObj f) publicProtoProperty)
                else
                  let* f := make_function (UProtoValue privateProtoProperty) 0 in
                  ret (with_get (VObj f) publicProtoProperty)
            in
            let* publicProto := Get I (VObj PublicClass) (KStr "prototype") in
            defineProperty publicProto protoKey publicProtoProperty
        end
  end.

Definition not_a_class : string :=
  "getPublicClass(privateClass) -> privateClass has to be a class".

(** [typeof PrivateClass !== 'function' || !PrivateClass.prototype] *)
Definition rejects (PrivateClass : Value) : M bool :=
  let* type := gets (λ st, typeof st PrivateClass) in
  if negb (String.eqb type "function") then ret true
  else
    let* p := Get I PrivateClass (KStr "prototype") in
    ret (negb (to_boolean p)).

(** lines 49-206: the class is built and registered *)
Definition build (PrivateClass : loc) : M Value :=
  (* 1. create the public class *)
  let* PublicClass := define_PublicClass (UPublicClass PrivateClass) U_get in
  (* 2. transfer all public properties of the class *)
  let* keys := Reflect_ownKeys (VObj PrivateClass) in
  let* _ := for_of keys (transfer_static PrivateClass PublicClass) in
  (* 3. transfer all public properties for the instances *)
  let* privateProto := Get I (VObj PrivateClass) (KStr "prototype") in
  let* protoKeys := Reflect_ownKeys privateProto in
  let* _ := for_of protoKeys (transfer_proto PrivateClass PublicClass) in
  (* 4. public class is finished *)
  let* _ := closure_update
              (set_privateClassesMap PrivateClass (VObj PublicClass)) in
  let* _ := closure_update
              (set_publicClassesMap PublicClass (VObj PrivateClass)) in
  ret (VObj PublicClass).

(** lines 41-208: [getPublicClass] *)
Definition getPublicClass (PrivateClass : Value) : M Value :=
  let* rejected := rejects PrivateClass in
  if rejected then throw (JsError not_a_class)
  else
    let* cached := gets (λ st, has (privateClassesMap (closure st)) PrivateClass) in
    if cached
    then gets (λ st, get (privateClassesMap (closure st)) PrivateClass)
    else
      match PrivateClass with
      | VObj T => build T
      | _ => throw (JsError not_a_class)
      end.
End Closures.
End Utility.

(** ** PublicClassBuilder.js *)

Module PublicClassBuilder.

(** The identifier [publicClassesMap] of line 67 is bound neither in
    [buildPublicClass] nor at module level (the module binds
    [_privateMap], [filterPublic], [filterPrivate], [buildPublicClass] and
    [PublicClassBuilder] only) and is no property of the global object:
    evaluating it throws a ReferenceError. *)
Definition publicClassesMap_unbound : M (gmap loc Value) := throw ReferenceError.

Section Closures.
Context (host : Host) (I : Interp).

(** lines 44-62: [PublicClass#constructor] *)
Definition PublicClass_constructor (_private : option rid)
    (PublicClass PrivateClass : loc) (this : loc) (args : list Value) : M unit :=
  let* publicArgs := rest_array args in
  let* first := index publicArgs 0 in
  let* wrap := instanceOf I first (VObj PrivateClass) in
  let* privateInstance :=
    if wrap then
      (* 1.1a. constructed with a private instance *)
      let* instances := field privateInstancesMap _private in
      if has instances first
      then throw_Error host I PublicClass already_bound
      else ret first
    else
      (* 1.1b. constructed from the public class *)
      let* privatArgs := filterPublic (depth I) (VObj this) publicArgs in
      let* spread := list_of_array privatArgs in
      let* r := construct_rec I PrivateClass spread in
      ret (VObj r)
  in
  (* 1.2. save the relation *)
  let* _ := Map_set set_publicInstancesMap _private (VObj this) privateInstance in
  Map_set set_privateInstancesMap _private privateInstance (VObj this).

(** lines 64-71: [PublicClass._get] *)
Definition PublicClass__get (_private : option rid) (PublicClass : loc)
    (args : list Value) : M Value :=
  let privateInstance := nth 0 args VUndef in
  let* instances := field privateInstancesMap _private in
  if has instances privateInstance
  then ret (get instances privateInstance)
  else
    let* classes := publicClassesMap_unbound in
    let C := get classes (VObj PublicClass) in
    let* related := instanceOf I privateInstance C in
    if related
    then let* r := construct_rec I PublicClass [privateInstance] in ret (VObj r)
    else throw_Error host I PublicClass unrelated.

(** lines 94-97 *)
Definition static_getter (privateProperty : Property) (PrivateClass : loc)
    (this : Value) : M Value :=
  let* privateResult := call_value I (p_get privateProperty) (VObj PrivateClass) [] in
  filterPrivate (depth I) this privateResult.

(** lines 102-105 *)
Definition static_setter (privateProperty : Property) (PrivateClass : loc)
    (this : Value) (args : list Value) : M Value :=
  let publicValue := nth 0 args VUndef in
  let* privatValue := filterPublic (depth I) this publicValue in
  let* _ := call_value I (p_set privateProperty) (VObj PrivateClass) [privatValue] in
  ret VUndef.

(** lines 113-117 *)
Definition static_method (privateProperty : Property) (PrivateClass : loc)
    (this : Value) (args : list Value) : M Value :=
  let* publicArgs := rest_array args in
  let* privatArgs := filterPublic (depth I) this publicArgs in
  let* applied := list_of_array privatArgs in
  let* privateResult :=
    call_value I (p_value privateProperty) (VObj PrivateClass) applied in
  filterPrivate (depth I) this privateResult.

(** lines 120-123 *)
Definition static_value (privateProperty : Property) (this : Value) : M Value :=
  let privateResult := p_value privateProperty in
  filterPrivate (depth I) this privateResult.

(** lines 150-155 *)
Definition proto_getter (_private : option rid) (privateProtoProperty : Property)
    (this : Value) : M Value :=
  let* instances := field publicInstancesMap _private in
  if negb (has instances this) then ret VUndef
  else
    let* instances := field publicInstancesMap _private in
    let target := get instances this in
    let* privateResult := call_value I (p_get privateProtoProperty) target [] in
    filterPrivate (depth I) this privateResult.

(** lines 160-165 *)
Definition proto_setter (_private : option rid) (privateProtoProperty : Property)
    (this : Value) (args : list Value) : M Value :=
  let publicValue := nth 0 args VUndef in
  let* instances := field publicInstancesMap _private in
  if negb (has instances this) then ret VUndef
  else
    let* privatValue := filterPublic (depth I) this publicValue in
    let* instances := field publicInstancesMap _private in
    let target := get instances this in
    let* _ := call_value I (p_set privateProtoProperty) target [privatValue] in
    ret VUndef.

(** lines 173-179 *)
Definition proto_method (_private : option rid) (privateProtoProperty : Property)
    (this : Value) (args : list Value) : M Value :=
  let* publicArgs := rest_array args in
  let* instances := field publicInstancesMap _private in
  if negb (has instances this) then ret VUndef
  else
    let* privatArgs := filterPublic (depth I) this publicArgs in
    let* instances := field publicInstancesMap _private in
    let target := get instances this in
    let* applied := list_of_array privatArgs in
    let* privateResult :=
      call_value I (p_value privateProtoProperty) target applied in
    filterPrivate (depth I) this privateResult.

(** lines 182-187 *)
Definition proto_value (_private : option rid) (privateProtoProperty : Property)
    (this : Value) : M Value :=
  let* instances := field publicInstancesMap _private in
  if negb (has instances this) then ret VUndef
  else
    let privateResult := p_value privateProtoProperty in
    filterPrivate (depth I) this privateResult.

(** lines 76-129: one round of the loop over the keys of the class *)
Definition transfer_static (PrivateClass PublicClass : loc) (key : PropKey)
  : M unit :=
  match key with
  | KSym _ => ret tt
  | KStr name =>
      if startsWith name "_" then ret tt
      else if String.eqb name "prototype" then ret tt
      else
        let* found := Reflect_getOwnPropertyDescriptor (VObj PrivateClass) key in
        match found with
        | None => throw TypeError
        | Some privateProperty =>
            let publicProperty := empty_desc in
            let publicProperty :=
              if p_configurable privateProperty
              then with_configurable true publicProperty else publicProperty in
            let publicProperty :=
              if p_enumerable privateProperty
              then with_enumerable true publicProperty else publicProperty in
            let* publicProperty :=
              if to_boolean (p_get privateProperty)
                 || to_boolean (p_set privateProperty)
              then
                let* publicProperty :=
                  if to_boolean (p_get privateProperty) then
                    let* f := make_function
                                (BStaticGetter privateProperty PrivateClass) 0 in
                    ret (with_get (VObj f) publicProperty)
                  else ret publicProperty in
                if to_boolean (p_set privateProperty) then
                  let* f := make_function
                              (BStaticSetter privateProperty PrivateClass) 1 in
                  ret (with_set (VObj f) publicProperty)
                else ret publicProperty
              else
                let publicProperty :=
                  if p_writable privateProperty
                  then with_writable true publicProperty else publicProperty in
                let* type := gets (λ st, typeof st (p_value privateProperty)) in
                if String.eqb type "function" then
                  let* f := make_function
                              (BStaticMethod privateProperty PrivateClass) 0 in
                  ret (with_value (VObj f) publicProperty)
                else
                  let* f := make_function (BStaticValue privateProperty) 0 in
                  ret (with_get (VObj f) publicProperty)
            in
            defineProperty (VObj PublicClass) key publicProperty
        end
  end.

(** lines 132-193: one round of the loop over the keys of the prototype *)
Definition transfer_proto (_private : option rid)
    (PrivateClass PublicClass : loc) (protoKey : PropKey) : M unit :=
  match protoKey with
  | KSym _ => ret tt
  | KStr name =>
      if startsWith name "_" then ret tt
      else if String.eqb name "constructor" then ret tt
      else
        let* privateProto := Get I (VObj PrivateClass) (KStr "prototype") in
        let* found := Reflect_getOwnPropertyDescriptor privateProto protoKey in
        match found with
        | None => throw TypeError
        | Some privateProtoProperty =>
            let publicProtoProperty := empty_desc in
            let publicProtoProperty :=
              if p_configurable privateProtoProperty
              then with_configurable true publicProtoProperty
              else publicProtoProperty in
            let publicProtoProperty :=
              if p_enumerable privateProtoProperty
              then with_enumerable true publicProtoProperty
              else publicProtoProperty in
            let* publicProtoProperty :=
              if to_boolean (p_get privateProtoProperty)
                 || to_boolean (p_set privateProtoProperty)
              then
                let* publicProtoProperty :=
                  if to_boolean (p_get privateProtoProperty) then
                    let* f := make_function
                                (BProtoGetter _private privateProtoProperty) 0 in
                    ret (with_get (VObj f) publicProtoProperty)
                  else ret publicProtoProperty in
                if to_boolean (p_set privateProtoProperty) then
                  let* f := make_function
                              (BProtoSetter _private privateProtoProperty) 1 in
                  ret (with_set (VObj f) publicProtoProperty)
                else ret publicProtoProperty
              else
                let publicProtoProperty :=
                  if p_writable privateProtoProperty
                  then with_writable true publicProtoProperty
                  else publicProtoProperty in
                let* type :=
                  gets (λ st, typeof st (p_value privateProtoProperty)) in
                if String.eqb type "function" then
                  let* f := make_function
                              (BProtoMethod _private privateProtoProperty) 0 in
                  ret (with_value (VObj f) publicProtoProperty)
                else
                  let* f := make_function
                              (BProtoValue _private privateProtoProperty) 0 in
                  ret (with_get (VObj f) publicProtoProperty)
            in
            let* publicProto := Get I (VObj PublicClass) (KStr "prototype") in
            defineProperty publicProto protoKey publicProtoProperty
        end
  end.

(** lines 39-198: [buildPublicClass.call(this, PrivateClass)] *)
Definition buildPublicClass (this : Value) (PrivateClass : loc) : M loc :=
  let* _private := _privateMap_get this in
  (* 1. create the public class *)
  let* PublicClass :=
    define_PublicClass (BPublicClass _private PrivateClass) (B_get _private) in
  (* 2. transfer all public properties of the class *)
  let* keys := Reflect_ownKeys (VObj PrivateClass) in
  let* _ := for_of keys (transfer_static PrivateClass PublicClass) in
  (* 3. transfer all public properties for the instances *)
  let* privateProto := Get I (VObj PrivateClass) (KStr "prototype") in
  let* protoKeys := Reflect_ownKeys privateProto in
  let* _ := for_of protoKeys (transfer_proto _private PrivateClass PublicClass) in
  (* 4. public class is finished *)
  ret PublicClass.

Definition not_a_class : string :=
  "PublicClassBuilder#getPublicClass(PrivateClass) -> PrivateClass has to be a class".

(** [typeof PrivateClass !== 'function' || !PrivateClass.prototype] *)
Definition rejects (PrivateClass : Value) : M bool :=
  let* type := gets (λ st, typeof st PrivateClass) in
  if negb (String.eqb type "function") then ret true
  else
    let* p := Get I PrivateClass (KStr "prototype") in
    ret (negb (to_boolean p)).

(** lines 214-231: [PublicClassBuilder#getPublicClass] *)
Definition getPublicClass (this : Value) (PrivateClass : Value) : M Value :=
  let* _private := _privateMap_get this in
  let* rejected := rejects PrivateClass in
  if rejected then throw (JsError not_a_class)
  else
    let* classes := field privateClassesMap _private in
    if has classes PrivateClass
    then
      let* classes := field privateClassesMap _private in
      ret (get classes PrivateClass)
    else
      match PrivateClass with
      | VObj T =>
          let* PublicClass := buildPublicClass this T in
          let* _ := Map_set set_privateClassesMap _private
                      PrivateClass (VObj PublicClass) in
          let* _ := Map_set set_publicClassesMap _private
                      (VObj PublicClass) PrivateClass in
          ret (VObj PublicClass)
      | _ => throw (JsError not_a_class)
      end.
End Closures.

(** lines 202-212: the body of [PublicClassBuilder#constructor]; the four
    maps of the new [_private] object are empty. *)
Definition constructor (this : loc) : M unit :=
  modify (λ st,
    let _private := fresh (dom (privates st)) in
    mkState (heap st) (closure st)
            (<[this := _private]> (_privateMap st))
            (<[_private := empty_registry]> (privates st))).

(** [new PublicClassBuilder()] *)
Definition new : M loc :=
  let* this := alloc (mkObj (Some PublicClassBuilderPrototype) true [] KOrdinary) in
  let* _ := constructor this in
  ret this.

End PublicClassBuilder.

(** ** Calling and constructing function objects *)

Section Step.
Context (host : Host) (I : Interp).

(** The body of a function object of the two modules. *)
Definition call_step (f : loc) (this : Value) (args : list Value) : M Value :=
  λ st,
  match code_of st f with
  | None => throw TypeError st
  | Some c =>
      match c with
      | CHost => host_call host f this args st
      (* a class constructor cannot be invoked without new *)
      | UPublicClass _ | BPublicClass _ _ => throw TypeError st
      | U_get P => Utility.PublicClass__get host I P args st
      | UStaticGetter p T => Utility.static_getter I p T st
      | UStaticSetter p T => Utility.static_setter I p T args st
      | UStaticMethod p T => Utility.static_method I p T args st
      | UStaticValue p => Utility.static_value I p st
      | UProtoGetter p => Utility.proto_getter I p this st
      | UProtoSetter p => Utility.proto_setter I p this args st
      | UProtoMethod p => Utility.proto_method I p this args st
      | UProtoValue p => Utility.proto_value I p this st
      | B_get r P => PublicClassBuilder.PublicClass__get host I r P args st
      | BStaticGetter p T => PublicClassBuilder.static_getter I p T this st
      | BStaticSetter p T => PublicClassBuilder.static_setter I p T this args st
      | BStaticMethod p T => PublicClassBuilder.static_method I p T this args st
      | BStaticValue p => PublicClassBuilder.static_value I p this st
      | BProtoGetter r p => PublicClassBuilder.proto_getter I r p this st
      | BProtoSetter r p => PublicClassBuilder.proto_setter I r p this args st
      | BProtoMethod r p => PublicClassBuilder.proto_method I r p this args st
      | BProtoValue r p => PublicClassBuilder.proto_value I r p this st
      end
  end.

(** [new F(...args)] *)
Definition construct_step (F : loc) (args : list Value) : M loc := λ st,
  match code_of st F with
  | None => throw TypeError st
  | Some c =>
      match c with
      | CHost => host_construct host F args st
      | UPublicClass T =>
          (let* this := create_this I F in
           let* _ := Utility.PublicClass_constructor host I F T this args in
           ret this) st
      | BPublicClass r T =>
          (let* this := create_this I F in
           let* _ := PublicClassBuilder.PublicClass_constructor host I r F T this args in
           ret this) st
      (* a method is not a constructor *)
      | U_get _ | B_get _ _ => throw TypeError st
      (* a function expression: the object it returns, else [this] *)
      | _ =>
          (let* this := create_this I F in
           let* r := call_step F (VObj this) args in
           ret (match r with VObj o => o | _ => this end)) st
      end
  end.
End Step.

(** The interpreter with a call stack of [fuel] frames. *)
Fixpoint interp (host : Host) (fuel : nat) : Interp :=
  match fuel with
  | O => mkInterp O (λ _ _ _, overflow) (λ _ _, overflow)
  | S n =>
      mkInterp (S n) (call_step host (interp host n))
               (construct_step host (interp host n))
  end.

(** ** Vocabulary of the properties *)

(** The two scopes of a registry: the maps closed over in [Utility.js],
    or those of one builder. *)
Inductive Scope :=
  | ProcessWide
  | BuilderScope (builder : loc).

Definition compile (I : Interp) (sc : Scope) (T : Value) : M Value :=
  match sc with
  | ProcessWide => Utility.getPublicClass I T
  | BuilderScope b => PublicClassBuilder.getPublicClass I (VObj b) T
  end.

Definition registry (sc : Scope) (st : State) : option Registry :=
  match sc with
  | ProcessWide => Some (closure st)
  | BuilderScope b => _privateMap st !! b ≫= λ r, privates st !! r
  end.

(** A function that carries its own, truthy [prototype]: every class and
    every ordinary function. *)
Definition is_class (st : State) (T : loc) : bool :=
  is_callable st (VObj T)
  && match own_prop st T (KStr "prototype") with
     | Some (PData v _ _ _) => to_boolean v
     | _ => false
     end.

(** The names the two loops do not skip. *)
Definition exposed_static (name : string) : bool :=
  negb (startsWith name "_") && negb (String.eqb name "prototype").
Definition exposed_proto (name : string) : bool :=
  negb (startsWith name "_") && negb (String.eqb name "constructor").

(** A value of the heap that is not a function. *)
Definition non_function (st : State) (v : Value) : bool :=
  match v with
  | VObj l =>
      match kind_of st l with
      | Some (KFunction _) | None => false
      | Some _ => true
      end
  | _ => true
  end.

(** Outcomes: [sat r ok err] reads "[r] is a result, [ok] holds of a value
    returned and [err] of an exception thrown". *)
Definition sat {A} (r : option (Outcome A * State))
    (ok : A → State → Prop) (err : Exn → State → Prop) : Prop :=
  match r with
  | Some (Ok a, st') => ok a st'
  | Some (Throw e, st') => err e st'
  | None => False
  end.

(** *** The common shape of the four transfer loops

    The loops of the two modules differ in the name they skip, in the
    object they read, in the object they write and in the closures they
    create. *)
Record Makers := mkMakers {
  mk_getter : Property → Code;
  mk_setter : Property → Code;
  mk_method : Property → Code;
  mk_value : Property → Code
}.

(** Steps 2.3-2.4 and 3.3-3.4: the descriptor of the public property. *)
Definition synthesize (mk : Makers) (privateProperty : Property) : M Desc :=
  let publicProperty := empty_desc in
  let publicProperty :=
    if p_configurable privateProperty
    then with_configurable true publicProperty else publicProperty in
  let publicProperty :=
    if p_enumerable privateProperty
    then with_enumerable true publicProperty else publicProperty in
  if to_boolean (p_get privateProperty) || to_boolean (p_set privateProperty)
  then
    let* publicProperty :=
      if to_boolean (p_get privateProperty) then
        let* f := make_function (mk_getter mk privateProperty) 0 in
        ret (with_get (VObj f) publicProperty)
      else ret publicProperty in
    if to_boolean (p_set privateProperty) then
      let* f := make_function (mk_setter mk privateProperty) 1 in
      ret (with_set (VObj f) publicProperty)
    else ret publicProperty
  else
    let publicProperty :=
      if p_writable privateProperty
      then with_writable true publicProperty else publicProperty in
    let* type := gets (λ st, typeof st (p_value privateProperty)) in
    if String.eqb type "function" then
      let* f := make_function (mk_method mk privateProperty) 0 in
      ret (with_value (VObj f) publicProperty)
    else
      let* f := make_function (mk_value mk privateProperty) 0 in
      ret (with_get (VObj f) publicProperty).

Definition transfer (skip : string) (source target : M Value) (mk : Makers)
    (key : PropKey) : M unit :=
  match key with
  | KSym _ => ret tt
  | KStr name =>
      if startsWith name "_" then ret tt
      else if String.eqb name skip then ret tt
      else
        let* from := source in
        let* found := Reflect_getOwnPropertyDescriptor from key in
        match found with
        | None => throw TypeError
        | Some privateProperty =>
            let* publicProperty := synthesize mk privateProperty in
            let* to := target in
            defineProperty to key publicProperty
        end
  end.

Definition U_static (T : loc) : Makers :=
  mkMakers (λ p, UStaticGetter p T) (λ p, UStaticSetter p T)
           (λ p, UStaticMethod p T) UStaticValue.
Definition U_proto : Makers :=
  mkMakers UProtoGetter UProtoSetter UProtoMethod UProtoValue.
Definition B_static (T : loc) : Makers :=
  mkMakers (λ p, BStaticGetter p T) (λ p, BStaticSetter p T)
           (λ p, BStaticMethod p T) BStaticValue.
Definition B_proto (_private : option rid) : Makers :=
  mkMakers (BProtoGetter _private) (BProtoSetter _private)
           (BProtoMethod _private) (BProtoValue _private).

(** Steps 1 to 3 of both modules, followed by [rest]. *)
Definition build_with {B} (I : Interp) (ctor : Code) (getter : loc → Code)
    (statics protos : Makers) (PrivateClass : loc) (rest : loc → M B) : M B :=
  let* PublicClass := define_PublicClass ctor getter in
  let* keys := Reflect_ownKeys (VObj PrivateClass) in
  let* _ := for_of keys
              (transfer "prototype" (ret (VObj PrivateClass))
                        (ret (VObj PublicClass)) statics) in
  let* privateProto := Get I (VObj PrivateClass) (KStr "prototype") in
  let* protoKeys := Reflect_ownKeys privateProto in
  let* _ := for_of protoKeys
              (transfer "constructor" (Get I (VObj PrivateClass) (KStr "prototype"))
                        (Get I (VObj PublicClass) (KStr "prototype")) protos) in
  rest PublicClass.

(** Step 3 followed by [rest]. *)
Definition build_tail {B} (I : Interp) (protos : Makers)
    (PrivateClass PublicClass : loc) (rest : loc → M B) : M B :=
  let* privateProto := Get I (VObj PrivateClass) (KStr "prototype") in
  let* protoKeys := Reflect_ownKeys privateProto in
  let* _ := for_of protoKeys
              (transfer "constructor" (Get I (VObj PrivateClass) (KStr "prototype"))
                        (Get I (VObj PublicClass) (KStr "prototype")) protos) in
  rest PublicClass.

Definition is_skipped (skip : string) (key : PropKey) : bool :=
  match key with
  | KSym _ => true
  | KStr name => startsWith name "_" || String.eqb name skip
  end.

Definition flag (b : bool) : option bool := if b then Some true else None.

(** *** How the heap changes *)

Definition same_registry (st st' : State) : Prop :=
  closure st' = closure st ∧ _privateMap st' = _privateMap st
  ∧ privates st' = privates st.

(** [st'] comes from [st] by allocations and by changes to the properties of
    the objects of [W]. *)
Record evolves (W : gset loc) (st st' : State) : Prop := mkEvolves {
  ev_registry : same_registry st st';
  ev_old : ∀ l o, l ∉ W → heap st !! l = Some o → heap st' !! l = Some o;
  ev_kind : ∀ l k, kind_of st l = Some k → kind_of st' l = Some k;
  ev_proto : ∀ l p, o_proto <$> heap st !! l = Some p → o_proto <$> heap st' !! l = Some p
}.

(** [st'] comes from [st] by allocations only. *)
Definition extends (st st' : State) : Prop :=
  same_registry st st' ∧ heap st ⊆ heap st'.

(** The objects a class definition creates. *)
Definition PublicClass_object (ctor : Code) (P g : loc) : Obj :=
  mkObj (Some FunctionPrototype) true
    [(KStr "length", data (VNum 0) false false true);
     (KStr "name", data (VStr "PublicClass") false false true);
     (KStr "prototype", data (VObj P) false false false);
     (KStr "_get", data (VObj g) true false true)]
    (KFunction ctor).

Definition PublicClass_prototype_object (F : loc) : Obj :=
  mkObj (Some ObjectPrototype) true
    [(KStr "constructor", data (VObj F) true false true)] KOrdinary.

(** While the class [P] with prototype [Pp] is built from the state [st0]:
    only [P] and [Pp] change, and no name with an underscore is defined on
    them but [_get]. *)
Record building (st0 : State) (ctor : Code) (getter : loc → Code)
    (P Pp : loc) (st : State) : Prop := mkBuilding {
  bd_evolves : evolves {[P; Pp]} st0 st;
  bd_new_P : heap st0 !! P = None;
  bd_new_Pp : heap st0 !! Pp = None;
  bd_distinct : P ≠ Pp;
  bd_code : code_of st P = Some ctor;
  bd_prototype :
    own_prop st P (KStr "prototype") = Some (PData (VObj Pp) false false false);
  bd_get : ∃ g, own_prop st P (KStr "_get") = Some (PData (VObj g) true false true)
                ∧ code_of st g = Some (getter P);
  bd_static : ∀ name, startsWith name "_" = true → name ≠ "_get" →
                      own_prop st P (KStr name) = None;
  bd_proto : ∀ name, startsWith name "_" = true → own_prop st Pp (KStr name) = None;
  bd_P_link : o_proto <$> heap st !! P = Some (Some FunctionPrototype);
  bd_Pp_link : o_proto <$> heap st !! Pp = Some (Some ObjectPrototype)
}.

(** No member whose name starts with the internal marker is found on [l],
    own or inherited. *)
Definition no_internal_member (st : State) (l : loc) : Prop :=
  ∀ name, startsWith name "_" = true → find_property st l (KStr name) = None.

(** The object [l] owns a writable data property with an exposed name whose
    value is not a function. *)
Definition writable_plain (st : State) (l : loc) (exposed : string → bool) : Prop :=
  ∃ name v e c,
    exposed name = true
    ∧ own_prop st l (KStr name) = Some (PData v true e c)
    ∧ non_function st v = true.

Definition has_writable_plain_member (st : State) (T : loc) : Prop :=
  writable_plain st T exposed_static
  ∨ ∃ Tp w e c,
      own_prop st T (KStr "prototype") = Some (PData (VObj Tp) w e c)
      ∧ writable_plain st Tp exposed_proto.

(** The closures the loops over the prototype create: the instance-level
    members of a façade. *)
Definition instance_member (c : Code) : bool :=
  match c with
  | UProtoGetter _ | UProtoSetter _ | UProtoMethod _ | UProtoValue _
  | BProtoGetter _ _ | BProtoSetter _ _ | BProtoMethod _ _ | BProtoValue _ _ => true
  | _ => false
  end.

(** The map of the scope in which such a closure looks up its receiver. *)
Definition receiver_map (st : State) (c : Code) : option (gmap loc Value) :=
  match c with
  | UProtoGetter _ | UProtoSetter _ | UProtoMethod _ | UProtoValue _ =>
      Some (publicInstancesMap (closure st))
  | BProtoGetter r _ | BProtoSetter r _ | BProtoMethod r _ | BProtoValue r _ =>
      publicInstancesMap <$> (r ≫= λ r, privates st !! r)
  | _ => None
  end.

(** *** The translators

    The four translators have one shape: the counterpart of the value is
    looked up, and a value without counterpart is mapped when it is an
    array, followed when it passes the promise test, returned otherwise. *)
Fixpoint translate (lookup : Value → M (option Value)) (T : Translator)
    (fuel : nat) (obj : Value) : M Value :=
  match fuel with
  | O => overflow
  | S n =>
      let* found := lookup obj in
      match found with
      | Some v => ret v
      | None => λ st,
          if isArray st obj
          then Array_map (translate lookup T n) obj st
          else if String.eqb (typeof st obj) "promise"
          then new_Promise obj T st
          else ret obj st
      end
  end.

Definition lookup_in (m : gmap loc Value) (v : Value) : option Value :=
  if has m v then Some (get m v) else None.

(** The lookups of [Utility.js] and of [PublicClassBuilder.js]. *)
Definition U_lookup (map : Registry → gmap loc Value) (obj : Value)
  : M (option Value) :=
  gets (λ st, lookup_in (map (closure st)) obj).

Definition B_lookup (instances classes : Registry → gmap loc Value)
    (this : Value) (obj : Value) : M (option Value) :=
  let* _private := _privateMap_get this in
  let* m := field instances _private in
  if has m obj then ret (Some (get m obj)) else
  let* m := field classes _private in
  if has m obj then ret (Some (get m obj)) else ret None.

Definition run_translator (T : Translator) (fuel : nat) : Value → M Value :=
  match T with
  | TfilterPublicInstance => filterPublicInstance fuel
  | TfilterPrivateInstance => filterPrivateInstance fuel
  | TfilterPublic this => filterPublic fuel this
  | TfilterPrivate this => filterPrivate fuel this
  end.

(** The scope a translator works in, and the counterpart it finds for a
    value in the registry of that scope. *)
Definition translator_scope (T : Translator) : option Scope :=
  match T with
  | TfilterPublicInstance | TfilterPrivateInstance => Some ProcessWide
  | TfilterPublic (VObj b) | TfilterPrivate (VObj b) => Some (BuilderScope b)
  | _ => None
  end.

Definition counterpart (T : Translator) (reg : Registry) (v : Value) : option Value :=
  match T with
  | TfilterPublicInstance => lookup_in (publicInstancesMap reg) v
  | TfilterPrivateInstance => lookup_in (privateInstancesMap reg) v
  | TfilterPublic _ =>
      match lookup_in (publicInstancesMap reg) v with
      | Some c => Some c
      | None => lookup_in (publicClassesMap reg) v
      end
  | TfilterPrivate _ =>
      match lookup_in (privateInstancesMap reg) v with
      | Some c => Some c
      | None => lookup_in (privateClassesMap reg) v
      end
  end.

Definition heap_kind (h : gmap loc Obj) (l : loc) : option Kind := o_kind <$> h !! l.

(** [v] exists in [h], and arrays are nested in it at most [n] deep. *)
Fixpoint finite (n : nat) (h : gmap loc Obj) (v : Value) : Prop :=
  match v with
  | VObj l =>
      match heap_kind h l with
      | Some (KArray es) =>
          match n with
          | O => False
          | S m => Forall (λ e, from_option (finite m h) True e) es
          end
      | Some _ => True
      | None => False
      end
  | _ => True
  end.

(** A hole for a hole, related elements for elements. *)
Definition same_shape (R : Value → Value → Prop) (e e' : option Value) : Prop :=
  match e, e' with
  | None, None => True
  | Some x, Some x' => R x x'
  | _, _ => False
  end.

(** What the specification asks of the translation [v'] of a value [v] of
    the heap [h]: the counterpart [cp v] when there is one; else, for an
    array, an array that is new (outside [D]) and holds in [h'], index by
    index, a hole for a hole and the translation of the element for an
    element; else [v] itself. *)
Fixpoint translated (n : nat) (cp : Value → option Value) (h : gmap loc Obj)
    (D : gset loc) (h' : gmap loc Obj) (v v' : Value) : Prop :=
  match cp v with
  | Some c => v' = c
  | None =>
      match v with
      | VObj l =>
          match heap_kind h l with
          | Some (KArray es) =>
              match n with
              | O => False
              | S m =>
                  ∃ l' es', v' = VObj l' ∧ (l' ∉ D)
                    ∧ heap_kind h' l' = Some (KArray es')
                    ∧ Forall2 (same_shape (translated m cp h D h')) es es'
              end
          | _ => v' = v
          end
      | _ => v' = v
      end
  end.

(** *** Members of a façade

    The two kinds of data members: a plain value and a method. *)
Inductive MemberKind := PlainValue | Method.

(** The member a loop installs under [key] on [X] for the private property
    [pp]: for a plain value an accessor with a getter [g] and no setter,
    for a method a data property holding a function [g]; [g] is the
    closure the loop makes for [pp]. *)
Definition installed (kind : MemberKind) (mk : Makers) (pp : Property)
    (X : loc) (key : PropKey) (g : loc) (st : State) : Prop :=
  match kind with
  | PlainValue =>
      (∃ e c, own_prop st X key = Some (PAccessor (VObj g) VUndef e c))
      ∧ code_of st g = Some (mk_value mk pp)
  | Method =>
      (∃ w e c, own_prop st X key = Some (PData (VObj g) w e c))
      ∧ code_of st g = Some (mk_method mk pp)
  end.

(** The private properties of each kind the loops accept. *)
Definition member_of_kind (kind : MemberKind) (st : State) (pp : Property) : Prop :=
  match kind, pp with
  | PlainValue, PData v false _ _ => non_function st v = true
  | Method, PData v _ _ _ => is_callable st v = true
  | _, _ => False
  end.

(** What a method of a façade of [Utility.js] does with the function [m] of
    the implementation: the array of the arguments is translated to the
    private side, [m] is called on [receiver] with the translated
    arguments, the result is translated to the public side. *)
Definition forward_call (I : Interp) (m : loc) (receiver : Value)
    (args : list Value) : M Value :=
  let* publicArgs := rest_array args in
  let* privatArgs := filterPublicInstance (depth I) publicArgs in
  let* applied := list_of_array privatArgs in
  let* privateResult := call_rec I m receiver applied in
  filterPrivateInstance (depth I) privateResult.

(** [F.name(...args)] *)
Definition static_call (I : Interp) (F : loc) (name : string) (args : list Value)
  : M Value :=
  let* f := Get I (VObj F) (KStr name) in
  call_value I f (VObj F) args.

(** [x instanceof T] holds in [st], for a class [T] with its own
    prototype object. *)
Definition instance_of (st : State) (x T : loc) : bool :=
  is_callable st (VObj T)
  && match own_prop st T (KStr "prototype") with
     | Some (PData (VObj Tp) _ _ _) => on_chain (size (heap st)) (heap st) x Tp
     | _ => false
     end.

(** The two levels of members: those of the class itself and those of its
    prototype object. *)
Inductive Level := TypeLevel | InstanceLevel.

Definition exposed (lv : Level) (name : string) : bool :=
  match lv with
  | TypeLevel => exposed_static name
  | InstanceLevel => exposed_proto name
  end.

(** The object that holds the members of a level of the class [C]. *)
Definition members_object (st : State) (C : loc) (lv : Level) : option loc :=
  match lv with
  | TypeLevel => Some C
  | InstanceLevel =>
      match own_prop st C (KStr "prototype") with
      | Some (PData (VObj p) _ _ _) => Some p
      | _ => None
      end
  end.

Definition level_makers (statics protos : Makers) (lv : Level) : Makers :=
  match lv with TypeLevel => statics | InstanceLevel => protos end.

(** ** A small program: one class, one instance *)

(** Every function of the program returns its receiver; [new C()] makes an
    object whose prototype is [C.prototype]. *)
Definition demo_host : Host := mkHost
  (λ f this args, ret this)
  (λ F args st,
     match own_prop st F (KStr "prototype") with
     | Some (PData (VObj p) _ _ _) => alloc (mkObj (Some p) true [] KOrdinary) st
     | _ => alloc (mkObj (Some ObjectPrototype) true [] KOrdinary) st
     end)
  (λ l, ret "[object Object]").

Definition plain : Obj := mkObj None true [] KOrdinary.

Definition intrinsics : gmap loc Obj :=
  <[ObjectPrototype := plain]>
  (<[FunctionPrototype := mkObj (Some ObjectPrototype) true [] KOrdinary]>
  (<[ArrayPrototype := mkObj (Some ObjectPrototype) true [] KOrdinary]>
  (<[PromisePrototype := mkObj (Some ObjectPrototype) true [] KOrdinary]>
  (<[PublicClassBuilderPrototype := mkObj (Some ObjectPrototype) true [] KOrdinary]>
   ∅)))).

(** [class Counter { static self() { return this }
                     increment(n) { ...; return this } }
     Object.defineProperty(Counter, 'version', { value: 1, configurable: true })
     counter = new Counter()] *)
Definition Counter : loc := 10%positive.
Definition Counter_prototype : loc := 11%positive.
Definition counter : loc := 12%positive.
Definition Counter_self : loc := 13%positive.
Definition Counter_increment : loc := 14%positive.
(** a promise of the program, still pending *)
Definition pending : loc := 15%positive.
(** [class Settings { static level = 3 }] *)
Definition Settings : loc := 16%positive.
Definition Settings_prototype : loc := 17%positive.
(** [mixed = [counter, , 7, [counter]]], with a hole at index 1 *)
Definition mixed : loc := 18%positive.
Definition nested : loc := 19%positive.

Definition method_object (name : string) (len : Z) : Obj :=
  mkObj (Some FunctionPrototype) true
    [(KStr "length", PData (VNum len) false false true);
     (KStr "name", PData (VStr name) false false true)] (KFunction CHost).

Definition class_Counter : Obj :=
  mkObj (Some FunctionPrototype) true
    [(KStr "length", PData (VNum 0) false false true);
     (KStr "name", PData (VStr "Counter") false false true);
     (KStr "prototype", PData (VObj Counter_prototype) false false false);
     (KStr "self", PData (VObj Counter_self) true false true);
     (KStr "version", PData (VNum 1) false false true)]
    (KFunction CHost).

Definition demo_heap : gmap loc Obj :=
  <[Counter := class_Counter]>
  (<[Counter_prototype := mkObj (Some ObjectPrototype) true
        [(KStr "constructor", PData (VObj Counter) true false true);
         (KStr "increment", PData (VObj Counter_increment) true false true)]
        KOrdinary]>
  (<[counter := mkObj (Some Counter_prototype) true
        [(KStr "_count", PData (VNum 0) true true true)] KOrdinary]>
  (<[Counter_self := method_object "self" 0]>
  (<[Counter_increment := method_object "increment" 1]>
  (<[pending := mkObj (Some PromisePrototype) true [] (KPromise None)]>
  (<[Settings := mkObj (Some FunctionPrototype) true
        [(KStr "length", PData (VNum 0) false false true);
         (KStr "name", PData (VStr "Settings") false false true);
         (KStr "prototype", PData (VObj Settings_prototype) false false false);
         (KStr "level", PData (VNum 3) true true true)]
        (KFunction CHost)]>
  (<[Settings_prototype := mkObj (Some ObjectPrototype) true
        [(KStr "constructor", PData (VObj Settings) true false true)] KOrdinary]>
  (<[mixed := mkObj (Some ArrayPrototype) true []
        (KArray [Some (VObj counter); None; Some (VNum 7); Some (VObj nested)])]>
  (<[nested := mkObj (Some ArrayPrototype) true [] (KArray [Some (VObj counter)])]>
   intrinsics))))))))).

Definition demo : State := mkState demo_heap empty_registry ∅ ∅.

Definition demo_I : Interp := interp demo_host 5.

(** The state a computation ends in, and what it returns. *)
Definition state_after {A} (r : option (Outcome A * State)) : State :=
  match r with Some (_, st) => st | None => demo end.
Definition outcome {A} (r : option (Outcome A * State)) : option (Outcome A) :=
  fst <$> r.

(** *** The scenario in the process-wide scope

    [Facade = getPublicClass(Counter)], then [wrapper = new Facade(counter)]. *)
Definition Facade : loc := 21%positive.
Definition Facade_prototype : loc := 20%positive.
Definition wrapper : loc := 33%positive.
(** the method the façade has for [increment] *)
Definition Facade_increment : loc := 31%positive.

Definition U_compiled : State :=
  state_after (compile demo_I ProcessWide (VObj Counter) demo).
Definition U_wrapped : State :=
  state_after (construct_rec demo_I Facade [VObj counter] U_compiled).

(** ... then [Object.defineProperty(Counter, 'version', { value: 2 })]. *)
Definition U_redefined : State :=
  state_after (defineProperty (VObj Counter) (KStr "version")
                 (with_value (VNum 2) empty_desc) U_compiled).

(** *** The scenario in the scope of a builder

    [builder = new PublicClassBuilder()], then
    [BFacade = builder.getPublicClass(Counter)], then
    [bwrapper = new BFacade(counter)]. *)
Definition builder : loc := 20%positive.
Definition BFacade : loc := 22%positive.
Definition bwrapper : loc := 34%positive.

Definition B_start : State := state_after (PublicClassBuilder.new demo).
Definition B_compiled : State :=
  state_after (compile demo_I (BuilderScope builder) (VObj Counter) B_start).
Definition B_wrapped : State :=
  state_after (construct_rec demo_I BFacade [VObj counter] B_compiled).

(** ** Vocabulary of the further properties *)

(** *** More vocabulary: rejection, builders, receivers *)

(** The message of the error [getPublicClass] throws in each module. *)
Definition class_error (sc : Scope) : string :=
  match sc with
  | ProcessWide => Utility.not_a_class
  | BuilderScope _ => PublicClassBuilder.not_a_class
  end.

(** [v.prototype] is read without running a getter and is falsy. *)
Definition prototype_falsy (st : State) (v : Value) : bool :=
  match v with
  | VObj l =>
      match find_property st l (KStr "prototype") with
      | None => true
      | Some (PData x _ _ _) => negb (to_boolean x)
      | Some (PAccessor g _ _ _) => bool_decide (g = VUndef)
      end
  | _ => false
  end.

(** [_privateMap] knows [v]: [v] is a builder whose constructor has run. *)
Definition is_builder (st : State) (v : Value) : bool :=
  match v with
  | VObj b => bool_decide (is_Some (registry (BuilderScope b) st))
  | _ => false
  end.

(** The closures of [PublicClassBuilder.js] that translate before they call
    anything of the implementation: setters, methods and plain values. *)
Definition translates_first (c : Code) : bool :=
  match c with
  | BStaticSetter _ _ | BStaticMethod _ _ | BStaticValue _
  | BProtoSetter _ _ | BProtoMethod _ _ | BProtoValue _ _ => true
  | _ => false
  end.

(** A translator of [PublicClassBuilder.js] and its receiver. *)
Definition builder_translator (T : Translator) : option Value :=
  match T with
  | TfilterPublic this | TfilterPrivate this => Some this
  | _ => None
  end.

(** The receiver passes the guard of the closure [c], if [c] has one: the
    instance map of its scope knows the receiver. *)
Definition guard_passes (st : State) (c : Code) (this : Value) : bool :=
  match receiver_map st c with
  | Some m => has m this
  | None => true
  end.

(** The first argument is no object ([undefined] when there is none). *)
Definition first_is_primitive (args : list Value) : bool :=
  match nth 0 args VUndef with
  | VObj _ => false
  | _ => true
  end.

(** the method the façade of the builder has for [increment] *)
Definition BFacade_increment : loc := 32%positive.

(** ... or else [new Facade(1)], which constructs a [Counter]. *)
Definition U_constructed : State :=
  state_after (construct_rec demo_I Facade [VNum 1] U_compiled).

(** the lookup accessor [_get] of the façade, and the getter it has for
    the member [name] of [Counter] *)
Definition Facade__get : loc := 22%positive.
Definition Facade_name : loc := 25%positive.

(** [v instanceof T] is false in [st], for a class [T] with its own
    prototype object. *)
Definition not_instance (st : State) (v : Value) (T : loc) : bool :=
  is_callable st (VObj T)
  && match v with
     | VObj x =>
         match own_prop st T (KStr "prototype") with
         | Some (PData (VObj Tp) _ _ _) =>
             negb (on_chain (size (heap st)) (heap st) x Tp)
         | _ => false
         end
     | _ => true
     end.

(** *** The members of a façade, in full

    What a loop makes of a property of the implementation: an accessor
    whose getter and setter are closures of the loop (or absent), or a
    data property that holds a closure of the loop. *)
Inductive Shape :=
  | AccessorShape (getter setter : option Code)
  | MethodShape (method : Code) (writable : bool).

(** The shape steps 2.4 and 3.4 choose for the property [pp]; [None] when
    the descriptor they build is no descriptor (a writable plain value) or
    when the value of [pp] is no object of the heap. *)
Definition expected (mk : Makers) (st : State) (pp : Property) : option Shape :=
  if to_boolean (p_get pp) || to_boolean (p_set pp) then
    Some (AccessorShape
            (if to_boolean (p_get pp) then Some (mk_getter mk pp) else None)
            (if to_boolean (p_set pp) then Some (mk_setter mk pp) else None))
  else if is_callable st (p_value pp) then
    Some (MethodShape (mk_method mk pp) (p_writable pp))
  else if non_function st (p_value pp) && negb (p_writable pp) then
    Some (AccessorShape (Some (mk_value mk pp)) None)
  else None.

(** [v] is a function object with the code [c], or [undefined]. *)
Definition closure_is (st : State) (v : Value) (c : option Code) : Prop :=
  match c with
  | Some code => ∃ f, v = VObj f ∧ code_of st f = Some code
  | None => v = VUndef
  end.

Definition has_shape (st : State) (p : Property) (s : Shape) : Prop :=
  match s, p with
  | AccessorShape g s, PAccessor g' s' _ _ =>
      closure_is st g' g ∧ closure_is st s' s
  | MethodShape m w, PData v' w' _ _ =>
      closure_is st v' (Some m) ∧ w' = w
  | _, _ => False
  end.

(** The names a class definition gives the class and its prototype
    object, and those among them that the loops redefine: [length] and
    [name] of the class, which are configurable. *)
Definition initial_keys (lv : Level) : list PropKey :=
  match lv with
  | TypeLevel => [KStr "length"; KStr "name"; KStr "prototype"; KStr "_get"]
  | InstanceLevel => [KStr "constructor"]
  end.

Definition preset (lv : Level) (key : PropKey) : bool :=
  match lv, key with
  | TypeLevel, KStr name => String.eqb name "length" || String.eqb name "name"
  | _, _ => false
  end.

Definition exposed_key (lv : Level) (key : PropKey) : bool :=
  match key with
  | KStr name => exposed lv name
  | KSym _ => false
  end.

(** The closures each module makes for the members of a level. *)
Definition scope_makers (sc : Scope) (st : State) (T : loc) (lv : Level) : Makers :=
  match sc with
  | ProcessWide => level_makers (U_static T) U_proto lv
  | BuilderScope b => level_makers (B_static T) (B_proto (_privateMap st !! b)) lv
  end.

(** The object that holds the members of a level: the class [C] or its
    prototype object [Cp]. *)
Definition level_object (lv : Level) (C Cp : loc) : loc :=
  match lv with TypeLevel => C | InstanceLevel => Cp end.

(** An exposed member of the implementation for which the loops build no
    descriptor. *)
Definition unexposable (mk : Level → Makers) (st : State) (T Tp : loc) : Prop :=
  ∃ lv key pp,
    exposed_key lv key = true
    ∧ own_prop st (level_object lv T Tp) key = Some pp
    ∧ expected (mk lv) st pp = None.

(** The field [o] of a descriptor holds a function object with the code
    [c], or is absent. *)
Definition opt_closure (st : State) (o : option Value) (c : option Code) : Prop :=
  match c with
  | Some code => ∃ f, o = Some (VObj f) ∧ code_of st f = Some code
  | None => o = None
  end.

(** The descriptor [d] is the one the loops build for the shape [s]. *)
Definition desc_for (st : State) (d : Desc) (s : Shape) : Prop :=
  match s with
  | AccessorShape g s' =>
      d_value d = None ∧ d_writable d = None
      ∧ opt_closure st (d_get d) g ∧ opt_closure st (d_set d) s'
  | MethodShape m w =>
      d_get d = None ∧ d_set d = None ∧ d_writable d = flag w
      ∧ opt_closure st (d_value d) (Some m)
  end.

(** The property a class definition leaves under a key the loops do not
    skip: none, or the configurable [length] and [name] of the class. *)
Definition initial (cur : option Property) (preset : bool) : Prop :=
  (cur = None ∧ preset = false)
  ∨ (∃ v0, cur = Some (PData v0 false false true) ∧ preset = true).

Definition extensible (st : State) (X : loc) : Prop :=
  ∃ oX, heap st !! X = Some oX ∧ o_extensible oX = true.

(** The loop has installed on [X], under [key], what it makes of [pp]:
    a property with the enumerability of [pp], configurable when [pp] is
    (or when the key was configurable before), of the expected shape. *)
Definition member_installed (mk : Makers) (st0 : State) (pre : bool)
    (pp : Property) (st : State) (X : loc) (key : PropKey) : Prop :=
  ∃ p, own_prop st X key = Some p
       ∧ p_enumerable p = p_enumerable pp
       ∧ p_configurable p = p_configurable pp || pre
       ∧ ∀ s, expected mk st0 pp = Some s → has_shape st p s.

(** The façade [P] with the prototype object [Pp], built in [st] for the
    class [T] with the prototype object [Tp] of [st0]: it has the keys of
    the class definition and the exposed keys of the implementation, no
    other, and under each of the latter the member the loop installs. *)
Record built (mk : Level → Makers) (st0 : State) (T Tp P Pp : loc)
    (st : State) : Prop := mkBuilt {
  bt_keys : ∀ lv k,
    is_Some (own_prop st (level_object lv P Pp) k)
    ↔ k ∈ initial_keys lv
      ∨ (exposed_key lv k = true ∧ is_Some (own_prop st0 (level_object lv T Tp) k));
  bt_members : ∀ lv k pp,
    exposed_key lv k = true →
    own_prop st0 (level_object lv T Tp) k = Some pp →
    member_installed (mk lv) st0 (preset lv k) pp st (level_object lv P Pp) k
}.

(** Every exposed own member of [S] is one the loops can expose: an
    accessor, a function, or a plain value that is not writable. *)
Definition exposable (mk : Makers) (st : State) (lv : Level) (S : loc) : bool :=
  forallb (λ k, negb (exposed_key lv k)
                || match own_prop st S k with
                   | Some pp => bool_decide (is_Some (expected mk st pp))
                   | None => true
                   end)
          (ownKeys st S).

(** What the getter and the setter of a façade of [Utility.js] do with the
    getter [g] and the setter [s] of the implementation: the getter calls
    [g] on [receiver] and translates the result to the public side; the
    setter translates its argument to the private side and calls [s] on
    [receiver] with it. *)
Definition forward_get (I : Interp) (g receiver : Value) : M Value :=
  let* privateResult := call_value I g receiver [] in
  filterPrivateInstance (depth I) privateResult.

Definition forward_set (I : Interp) (s receiver : Value) (args : list Value)
  : M Value :=
  let publicValue := nth 0 args VUndef in
  let* privatValue := filterPublicInstance (depth I) publicValue in
  let* _ := call_value I s receiver [privatValue] in
  ret VUndef.

(** The receiver of the implementation: the class itself for a member of
    the class, the instance bound to [this] for a member of the
    prototype. *)
Definition receiver_of (lv : Level) (T : loc) (st : State) (this : Value) : Value :=
  match lv with
  | TypeLevel => VObj T
  | InstanceLevel => get (publicInstancesMap (closure st)) this
  end.

(** What a call of [compile] in the scope [sc] leaves of the other scopes:
    the maps of the builders, for [Utility.js]; the maps of [Utility.js]
    and of the other builders, for a builder. *)
Definition scope_frame (sc : Scope) (st st' : State) : Prop :=
  match sc with
  | ProcessWide => _privateMap st' = _privateMap st ∧ privates st' = privates st
  | BuilderScope b =>
      closure st' = closure st ∧ _privateMap st' = _privateMap st
      ∧ ∀ r, _privateMap st !! b ≠ Some r → privates st' !! r = privates st !! r
  end.

(** *** A class with accessors

    [class Gauge { static get unit() {...}
                   get value() {...}
                   set value(v) {...} }] *)
Definition Gauge : loc := 40%positive.
Definition Gauge_prototype : loc := 41%positive.
Definition Gauge_unit : loc := 42%positive.
Definition Gauge_value_get : loc := 43%positive.
Definition Gauge_value_set : loc := 44%positive.

Definition gauge_heap : gmap loc Obj :=
  <[Gauge := mkObj (Some FunctionPrototype) true
       [(KStr "length", PData (VNum 0) false false true);
        (KStr "name", PData (VStr "Gauge") false false true);
        (KStr "prototype", PData (VObj Gauge_prototype) false false false);
        (KStr "unit", PAccessor (VObj Gauge_unit) VUndef false true)]
       (KFunction CHost)]>
  (<[Gauge_prototype := mkObj (Some ObjectPrototype) true
        [(KStr "constructor", PData (VObj Gauge) true false true);
         (KStr "value",
          PAccessor (VObj Gauge_value_get) (VObj Gauge_value_set) false true)]
        KOrdinary]>
  (<[Gauge_unit := method_object "get unit" 0]>
  (<[Gauge_value_get := method_object "get value" 0]>
  (<[Gauge_value_set := method_object "set value" 1]>
   demo_heap)))).

Definition gauge_demo : State := mkState gauge_heap empty_registry ∅ ∅.

Definition G_compiled : State :=
  state_after (compile demo_I ProcessWide (VObj Gauge) gauge_demo).

Definition GFacade : loc := 46%positive.
Definition GFacade_prototype : loc := 45%positive.

(** *** The form of the constructor with public arguments *)

(** A primitive, or an object of the heap that is no array. *)
Definition leaf (st : State) (v : Value) : bool :=
  match v with
  | VObj l =>
      match kind_of st l with
      | Some (KArray _) | None => false
      | Some _ => true
      end
  | _ => true
  end.

(** The implementation instance bound to a façade instance, any other
    value as it is. *)
Definition to_private (st : State) (v : Value) : Value :=
  default v (lookup_in (publicInstancesMap (closure st)) v).

(** [new T(...args)], and the new instance bound to [this] in both
    instance maps of [Utility.js]. *)
Definition construct_and_bind (I : Interp) (T this : loc) (args : list Value)
  : M loc :=
  let* r := construct_rec I T args in
  let* _ := closure_update (set_publicInstancesMap this (VObj r)) in
  let* _ := closure_update (set_privateInstancesMap r (VObj this)) in
  ret this.

(** [filterPrivateInstance(mixed)] after [counter] has been wrapped. *)
Definition U_translated : State :=
  state_after (filterPrivateInstance 3 (VObj mixed) U_wrapped).

Definition U_translated_array : loc := 35%positive.

(** The code of the façade class that [compile] builds for [T] in the
    scope [sc]: the class of [Utility.js], or the class of the builder
    with the maps it found at line 217. *)
Definition facade_code (sc : Scope) (st : State) (T : loc) : option Code :=
  match sc with
  | ProcessWide => Some (UPublicClass T)
  | BuilderScope b => (λ r, BPublicClass (Some r) T) <$> _privateMap st !! b
  end.

(** The prototype object of [BFacade]. *)
Definition BFacade_prototype : loc := 21%positive.

(** *** The class [Counter] compiled in two scopes

    [builder.getPublicClass(Counter)], then [getPublicClass(Counter)] of
    [Utility.js]. *)
Definition BU_compiled : State :=
  state_after (compile demo_I ProcessWide (VObj Counter) B_compiled).
(** the façade that [Utility.js] builds then *)
Definition BUFacade : loc := 35%positive.

(** The code of the static method [_get] of the façade class [P] built in
    the scope [sc]. *)
Definition getter_code (sc : Scope) (st : State) (P : loc) : option Code :=
  match sc with
  | ProcessWide => Some (U_get P)
  | BuilderScope b => (λ r, B_get (Some r) P) <$> _privateMap st !! b
  end.

(** The method [_get] of [BFacade], and the maps of the builder once
    [counter] is wrapped. *)
Definition BFacade__get : loc := 23%positive.
Definition B_registry : Registry :=
  set_privateInstancesMap counter (VObj bwrapper)
    (set_publicInstancesMap bwrapper (VObj counter)
       (set_publicClassesMap BFacade (VObj Counter)
          (set_privateClassesMap Counter (VObj BFacade) empty_registry))).

(** * Properties *)

Section Monad.
Context {A B : Type}.

Lemma bind_ok (m : M A) (k : A → M B) st x st1 :
  m st = Some (Ok x, st1) → bind m k st = k x st1.
Proof. unfold bind. by intros ->. Qed.

Lemma bind_throw (m : M A) (k : A → M B) st e st1 :
  m st = Some (Throw e, st1) → bind m k st = Some (Throw e, st1).
Proof. unfold bind. by intros ->. Qed.

Lemma bind_inv_ok (m : M A) (k : A → M B) st y st' :
  bind m k st = Some (Ok y, st') →
  ∃ x st1, m st = Some (Ok x, st1) ∧ k x st1 = Some (Ok y, st').
Proof.
  unfold bind. destruct (m st) as [[[x|e] st1]|]; [eauto|done|done].
Qed.

Lemma sat_bind (m : M A) (k : A → M B) st ok err :
  sat (m st) (λ x st1, sat (k x st1) ok err) err → sat (bind m k st) ok err.
Proof.
  unfold bind, sat. by destruct (m st) as [[[x|e] st1]|].
Qed.

Lemma sat_mono (r : option (Outcome A * State)) (ok ok' : A → State → Prop)
    (err err' : Exn → State → Prop) :
  (∀ x st, ok x st → ok' x st) → (∀ e st, err e st → err' e st) →
  sat r ok err → sat r ok' err'.
Proof. destruct r as [[[x|e] st1]|]; simpl; eauto. Qed.
End Monad.

Lemma for_of_sat {A} (Inv : State → Prop) (err : Exn → State → Prop)
    (body : A → M unit) (l : list A) :
  (∀ x st, x ∈ l → Inv st → sat (body x st) (λ _ st', Inv st') err) →
  ∀ st, Inv st → sat (for_of l body st) (λ _ st', Inv st') err.
Proof.
  induction l as [|x l IH]; intros Hbody st Hst; simpl; [done|].
  apply sat_bind. eapply sat_mono; [| |apply Hbody; [left|done]]; simpl; [|done].
  intros _ st1 Hst1. apply IH; [|done]. intros y st2 Hy. apply Hbody. by right.
Qed.

(** ** The heap under the primitive operations *)

Lemma evolves_refl W st : evolves W st st.
Proof. by split. Qed.

Lemma evolves_trans W st1 st2 st3 :
  evolves W st1 st2 → evolves W st2 st3 → evolves W st1 st3.
Proof.
  intros [[? [? ?]] ? ? ?] [[? [? ?]] ? ? ?].
  split; [split_and!; congruence|eauto..].
Qed.

Lemma evolves_weaken W W' st st' : W ⊆ W' → evolves W st st' → evolves W' st st'.
Proof.
  intros HW [? Hold ? ?]. split; [done| |done..].
  intros l o Hl. apply Hold. set_solver.
Qed.

Lemma evolves_dom W st st' l :
  evolves W st st' → is_Some (heap st !! l) → is_Some (heap st' !! l).
Proof.
  intros Hev [o Ho]. pose proof (ev_kind _ _ _ Hev l (o_kind o)) as Hk.
  unfold kind_of in Hk. rewrite Ho in Hk. specialize (Hk eq_refl).
  destruct (heap st' !! l); [eauto|done].
Qed.

Lemma evolves_code W st st' l c :
  evolves W st st' → code_of st l = Some c → code_of st' l = Some c.
Proof.
  intros Hev. unfold code_of.
  destruct (kind_of st l) as [k|] eqn:Hk; [|done].
  by rewrite (ev_kind _ _ _ Hev l k Hk).
Qed.

Lemma evolves_own_prop W st st' l k :
  evolves W st st' → l ∉ W → is_Some (heap st !! l) →
  own_prop st' l k = own_prop st l k.
Proof.
  intros Hev Hl [o Ho]. unfold own_prop.
  by rewrite (ev_old _ _ _ Hev l o Hl Ho), Ho.
Qed.

Lemma fresh_heap (h : gmap loc Obj) : h !! fresh (dom h) = None.
Proof. apply not_elem_of_dom, is_fresh. Qed.

Lemma alloc_eq o st :
  alloc o st = Some (Ok (fresh (dom (heap st))),
                     set_heap (<[fresh (dom (heap st)) := o]> (heap st)) st).
Proof. done. Qed.

Lemma insert_new_evolves W st l o :
  heap st !! l = None → evolves W st (set_heap (<[l := o]> (heap st)) st).
Proof.
  intros Hl. split; [done|..]; simpl.
  - intros l' o' _ Ho'. rewrite lookup_insert_ne; [done|congruence].
  - intros l' k. unfold kind_of; simpl. intros Hk.
    rewrite lookup_insert_ne; [done|]. intros ->. by rewrite Hl in Hk.
  - intros l' p Hp. rewrite lookup_insert_ne; [done|]. intros ->. by rewrite Hl in Hp.
Qed.

Lemma alloc_evolves W o st l st' :
  alloc o st = Some (Ok l, st') →
  evolves W st st' ∧ heap st !! l = None ∧ heap st' !! l = Some o.
Proof.
  rewrite alloc_eq. intros [= <- <-]. split_and!.
  - apply insert_new_evolves, fresh_heap.
  - apply fresh_heap.
  - simpl. apply lookup_insert_eq.
Qed.

(** Changing the own properties of one object. *)
Lemma set_props_evolves W st l o ps :
  l ∈ W → heap st !! l = Some o →
  evolves W st
    (set_heap (<[l := mkObj (o_proto o) (o_extensible o) ps (o_kind o)]> (heap st)) st).
Proof.
  intros HW Ho. split; [done|..]; simpl.
  - intros l' o' Hl' Ho'. rewrite lookup_insert_ne; [done|]. by intros ->.
  - intros l' k. unfold kind_of; simpl.
    destruct (decide (l = l')) as [->|]; [|by rewrite lookup_insert_ne].
    rewrite lookup_insert_eq, Ho. done.
  - intros l' p.
    destruct (decide (l = l')) as [->|]; [|by rewrite lookup_insert_ne].
    rewrite lookup_insert_eq, Ho. done.
Qed.

Lemma assoc_set_eq k p ps : assoc k (assoc_set k p ps) = Some p.
Proof.
  induction ps as [|[k' p'] ps IH]; simpl.
  - by rewrite decide_True.
  - destruct (decide (k = k')) as [->|Hne]; simpl.
    + by rewrite decide_True.
    + by rewrite decide_False.
Qed.

Lemma assoc_set_ne k k' p ps : k ≠ k' → assoc k' (assoc_set k p ps) = assoc k' ps.
Proof.
  intros Hne. induction ps as [|[k2 p2] ps IH]; simpl.
  - by rewrite decide_False.
  - destruct (decide (k = k2)) as [->|Hne2]; simpl.
    + by rewrite !decide_False.
    + destruct (decide (k' = k2)); [done|apply IH].
Qed.

Lemma assoc_app_ne k k' p ps : k ≠ k' → assoc k' (ps ++ [(k, p)]) = assoc k' ps.
Proof.
  intros Hne. induction ps as [|[k2 p2] ps IH]; simpl.
  - by rewrite decide_False.
  - destruct (decide (k' = k2)); [done|apply IH].
Qed.

(** What [Object.defineProperty] does when it returns. *)
Lemma defineProperty_ok O k d st st' :
  defineProperty O k d st = Some (Ok tt, st') →
  ∃ l o, O = VObj l ∧ heap st !! l = Some o ∧ desc_well_formed st d = true
    ∧ st' = set_heap (<[l := mkObj (o_proto o) (o_extensible o)
                             (assoc_set k (define_result o k d) (o_props o))
                             (o_kind o)]> (heap st)) st.
Proof.
  unfold defineProperty. destruct O as [| | | | | |l]; try done.
  destruct (heap st !! l) as [o|] eqn:Ho; [|done].
  destruct (desc_well_formed st d) eqn:Hwf; [|done].
  unfold validate_and_apply, define_result.
  destruct (assoc k (o_props o)) as [cur|] eqn:Hcur.
  - destruct (negb (p_configurable cur) && frozen_conflict cur d); [done|].
    intros [= <-]. eexists l, o. by rewrite Hcur.
  - destruct (o_extensible o) eqn:He; [|done].
    intros [= <-]. eexists l, o. by rewrite Hcur, He.
Qed.

Lemma defineProperty_sat O k d st :
  sat (defineProperty O k d st)
      (λ _ st', defineProperty O k d st = Some (Ok tt, st'))
      (λ e _, e = TypeError).
Proof.
  unfold defineProperty. destruct O; try done.
  destruct (heap st !! l); [|done].
  destruct (desc_well_formed st d); [|done].
  by destruct (validate_and_apply _ _ _).
Qed.

(** ** The four loops are instances of [transfer] *)

Lemma U_transfer_static T P key :
  Utility.transfer_static T P key
  = transfer "prototype" (ret (VObj T)) (ret (VObj P)) (U_static T) key.
Proof. reflexivity. Qed.

Lemma U_transfer_proto I T P key :
  Utility.transfer_proto I T P key
  = transfer "constructor" (Get I (VObj T) (KStr "prototype"))
             (Get I (VObj P) (KStr "prototype")) U_proto key.
Proof. reflexivity. Qed.

Lemma B_transfer_static T P key :
  PublicClassBuilder.transfer_static T P key
  = transfer "prototype" (ret (VObj T)) (ret (VObj P)) (B_static T) key.
Proof. reflexivity. Qed.

Lemma B_transfer_proto I r T P key :
  PublicClassBuilder.transfer_proto I r T P key
  = transfer "constructor" (Get I (VObj T) (KStr "prototype"))
             (Get I (VObj P) (KStr "prototype")) (B_proto r) key.
Proof. reflexivity. Qed.

(** ** Allocation leaves the objects of the heap as they are *)

Lemma extends_refl st : extends st st.
Proof. by split. Qed.

Lemma extends_trans st1 st2 st3 : extends st1 st2 → extends st2 st3 → extends st1 st3.
Proof.
  intros [[? [? ?]] ?] [[? [? ?]] ?].
  split; [split_and!; congruence|by etrans].
Qed.

Lemma extends_lookup st st' l o :
  extends st st' → heap st !! l = Some o → heap st' !! l = Some o.
Proof. intros [_ Hsub] Ho. by eapply lookup_weaken. Qed.

Lemma extends_none st st' l :
  extends st st' → heap st' !! l = None → heap st !! l = None.
Proof.
  intros Hext Hl. destruct (heap st !! l) as [o|] eqn:Ho; [|done].
  by rewrite (extends_lookup _ _ _ _ Hext Ho) in Hl.
Qed.

Lemma extends_evolves W st st' : extends st st' → evolves W st st'.
Proof.
  intros [Hreg Hsub]. split; [done|..].
  - intros l o _ Ho. by eapply lookup_weaken.
  - intros l k. unfold kind_of.
    destruct (heap st !! l) as [o|] eqn:Ho; [|done].
    by rewrite (lookup_weaken _ _ _ _ Ho Hsub).
  - intros l p.
    destruct (heap st !! l) as [o|] eqn:Ho; [|done].
    by rewrite (lookup_weaken _ _ _ _ Ho Hsub).
Qed.

Lemma extends_insert st l o :
  heap st !! l = None → extends st (set_heap (<[l := o]> (heap st)) st).
Proof. intros Hl. split; [done|]. by apply insert_subseteq. Qed.

Lemma extends_alter st0 st l f :
  extends st0 st → heap st0 !! l = None →
  extends st0 (set_heap (alter f l (heap st)) st).
Proof.
  intros [Hreg Hsub] Hl. split; [done|]. simpl.
  apply map_subseteq_spec. intros l' o' Ho'.
  rewrite lookup_alter_ne; [|by intros ->; rewrite Hl in Ho'].
  by apply (lookup_weaken _ _ _ _ Ho' Hsub).
Qed.

Lemma alloc_extends o st l st' :
  alloc o st = Some (Ok l, st') →
  extends st st' ∧ heap st !! l = None ∧ heap st' !! l = Some o.
Proof.
  rewrite alloc_eq. intros [= <- <-]. split_and!.
  - apply extends_insert, fresh_heap.
  - apply fresh_heap.
  - simpl. apply lookup_insert_eq.
Qed.

Lemma extends_code st st' l c :
  extends st st' → code_of st l = Some c → code_of st' l = Some c.
Proof. intros Hext. by apply (evolves_code ∅), extends_evolves. Qed.

Lemma extends_callable st st' v :
  extends st st' → is_callable st v = true → is_callable st' v = true.
Proof.
  intros Hext. destruct v; simpl; try done.
  rewrite !bool_decide_eq_true. intros [c Hc].
  exists c. by apply (extends_code st).
Qed.

Lemma make_function_spec c len st :
  ∃ F st', make_function c len st = Some (Ok F, st')
    ∧ extends st st' ∧ heap st !! F = None ∧ code_of st' F = Some c.
Proof.
  unfold make_function, bind, alloc, update_obj, modify, ret. simpl.
  eexists _, _. split; [done|].
  set (F := fresh (dom (heap st))).
  set (oF := mkObj _ _ _ (KFunction c)).
  assert (heap st !! F = None) as HF by apply fresh_heap.
  pose proof (fresh_heap (<[F := oF]> (heap st))) as HP.
  set (P := fresh (dom (<[F := oF]> (heap st)))) in *.
  assert (P ≠ F) as Hne. { intros Heq. by rewrite Heq, lookup_insert_eq in HP. }
  split_and!; [|done|].
  - apply (extends_alter st (set_heap _ (set_heap _ st))); [|done].
    eapply extends_trans; [by apply extends_insert|].
    by apply (extends_insert (set_heap _ st)).
  - unfold code_of, kind_of. simpl.
    by rewrite lookup_alter_eq, lookup_insert_ne, lookup_insert_eq.
Qed.

(** ** Reading a data property an object owns *)

Lemma lookup_chain_own n h l k o p :
  h !! l = Some o → assoc k (o_props o) = Some p → lookup_chain n h l k = Some p.
Proof. intros Ho Hp. destruct n; simpl; by rewrite Ho, Hp. Qed.

Lemma Get_own_data I st l k v w e c :
  own_prop st l k = Some (PData v w e c) → Get I (VObj l) k st = Some (Ok v, st).
Proof.
  unfold own_prop, Get, find_property.
  destruct (heap st !! l) as [o|] eqn:Ho; [|done]. simpl. intros Hp.
  by rewrite (lookup_chain_own _ _ _ _ _ _ Ho Hp).
Qed.

(** ** The class definition *)

Lemma define_PublicClass_spec ctor getter st :
  ∃ F P g st', define_PublicClass ctor getter st = Some (Ok F, st')
    ∧ extends st st' ∧ heap st !! F = None ∧ heap st !! P = None ∧ F ≠ P
    ∧ heap st' !! F = Some (PublicClass_object ctor P g)
    ∧ heap st' !! P = Some (PublicClass_prototype_object F)
    ∧ code_of st' g = Some (getter F).
Proof.
  unfold define_PublicClass, make_method, bind, alloc, update_obj, modify, ret.
  simpl.
  set (P := fresh (dom (heap st))).
  set (oP := mkObj (Some ObjectPrototype) true [] KOrdinary).
  set (h1 := <[P := oP]> (heap st)).
  set (F := fresh (dom h1)).
  set (oF := mkObj (Some FunctionPrototype) true _ (KFunction ctor)).
  set (h2 := <[F := oF]> h1).
  set (h3 := alter _ P h2).
  set (g := fresh (dom h3)).
  set (og := mkObj (Some FunctionPrototype) true _ (KFunction (getter F))).
  set (h4 := <[g := og]> h3).
  exists F, P, g. eexists. split; [done|].
  assert (heap st !! P = None) as HP by apply fresh_heap.
  assert (h1 !! F = None) as HF by apply fresh_heap.
  assert (h3 !! g = None) as Hg by apply fresh_heap.
  assert (F ≠ P) as HFP. { intros Heq. subst h1. by rewrite Heq, lookup_insert_eq in HF. }
  assert (heap st !! F = None) as HF0.
  { subst h1. by rewrite lookup_insert_ne in HF. }
  assert (g ≠ F) as HgF.
  { intros Heq. subst h3 h2. rewrite Heq in Hg.
    by rewrite lookup_alter_ne, lookup_insert_eq in Hg. }
  assert (g ≠ P) as HgP.
  { intros Heq. subst h3 h2 h1. rewrite Heq in Hg.
    by rewrite lookup_alter_eq, lookup_insert_ne, lookup_insert_eq in Hg. }
  assert (heap st !! g = None) as Hg0.
  { subst h3 h2 h1.
    by rewrite lookup_alter_ne, !lookup_insert_ne in Hg. }
  split_and!; try done.
  - split; [done|]. simpl. apply map_subseteq_spec. intros l o Ho.
    assert (l ≠ P) by (intros ->; by rewrite HP in Ho).
    assert (l ≠ F) by (intros ->; by rewrite HF0 in Ho).
    assert (l ≠ g) by (intros ->; by rewrite Hg0 in Ho).
    subst h4 h3 h2 h1.
    by rewrite lookup_alter_ne, lookup_insert_ne, lookup_alter_ne, !lookup_insert_ne.
  - simpl. subst h4 h3 h2 h1.
    by rewrite lookup_alter_eq, lookup_insert_ne, lookup_alter_ne, lookup_insert_eq.
  - simpl. subst h4 h3 h2 h1.
    by rewrite lookup_alter_ne, lookup_insert_ne, lookup_alter_eq,
      lookup_insert_ne, lookup_insert_eq.
  - unfold code_of, kind_of. simpl. subst h4.
    by rewrite lookup_alter_ne, lookup_insert_eq.
Qed.

(** ** The descriptors the loops synthesise *)

Lemma synthesize_total mk pp st :
  ∃ d st', synthesize mk pp st = Some (Ok d, st') ∧ extends st st'.
Proof.
  unfold synthesize.
  destruct (to_boolean (p_get pp) || to_boolean (p_set pp)).
  - destruct (to_boolean (p_get pp)).
    + destruct (make_function_spec (mk_getter mk pp) 0 st) as (f & st1 & Hf & Hext & _).
      rewrite (bind_ok _ _ _ _ _ (bind_ok _ _ _ _ _ Hf)). unfold ret at 1.
      destruct (to_boolean (p_set pp)).
      * destruct (make_function_spec (mk_setter mk pp) 1 st1)
          as (f' & st2 & Hf' & Hext' & _).
        rewrite (bind_ok _ _ _ _ _ Hf'). eexists _, _. split; [done|].
        by eapply extends_trans.
      * by eexists _, _.
    + unfold bind at 1, ret at 1. destruct (to_boolean (p_set pp)).
      * destruct (make_function_spec (mk_setter mk pp) 1 st)
          as (f' & st2 & Hf' & Hext' & _).
        rewrite (bind_ok _ _ _ _ _ Hf'). by eexists _, _.
      * eexists _, _. split; [done|]. apply extends_refl.
  - unfold bind at 1, gets at 1.
    destruct (String.eqb (typeof st (p_value pp)) "function").
    + destruct (make_function_spec (mk_method mk pp) 0 st) as (f & st1 & Hf & Hext & _).
      rewrite (bind_ok _ _ _ _ _ Hf). by eexists _, _.
    + destruct (make_function_spec (mk_value mk pp) 0 st) as (f & st1 & Hf & Hext & _).
      rewrite (bind_ok _ _ _ _ _ Hf). by eexists _, _.
Qed.

(** A plain value: [{ get }] and the flags that are set. *)
Lemma synthesize_plain mk v w e c st :
  String.eqb (typeof st v) "function" = false →
  ∃ f st', synthesize mk (PData v w e c) st
           = Some (Ok (mkDesc None (flag w) (Some (VObj f)) None (flag e) (flag c)), st')
    ∧ extends st st' ∧ heap st !! f = None
    ∧ code_of st' f = Some (mk_value mk (PData v w e c)).
Proof.
  intros Hty. unfold synthesize. simpl.
  unfold bind at 1, gets at 1. rewrite Hty.
  destruct (make_function_spec (mk_value mk (PData v w e c)) 0 st)
    as (f & st1 & Hf & Hext & Hnew & Hcode).
  rewrite (bind_ok _ _ _ _ _ Hf). exists f, st1.
  split; [|done]. unfold ret. by destruct w, e, c.
Qed.

(** A function: [{ value }] and the flags that are set. *)
Lemma synthesize_method mk v w e c st :
  String.eqb (typeof st v) "function" = true →
  ∃ f st', synthesize mk (PData v w e c) st
           = Some (Ok (mkDesc (Some (VObj f)) (flag w) None None (flag e) (flag c)), st')
    ∧ extends st st' ∧ heap st !! f = None
    ∧ code_of st' f = Some (mk_method mk (PData v w e c)).
Proof.
  intros Hty. unfold synthesize. simpl.
  unfold bind at 1, gets at 1. rewrite Hty.
  destruct (make_function_spec (mk_method mk (PData v w e c)) 0 st)
    as (f & st1 & Hf & Hext & Hnew & Hcode).
  rewrite (bind_ok _ _ _ _ _ Hf). exists f, st1.
  split; [|done]. unfold ret. by destruct w, e, c.
Qed.

(** ** One round of a transfer loop *)

Lemma transfer_skipped skip source target mk key st :
  is_skipped skip key = true →
  transfer skip source target mk key st = Some (Ok tt, st).
Proof.
  destruct key as [name|]; simpl; [|done].
  destruct (startsWith name "_"); [done|]. simpl. by intros ->.
Qed.

Lemma transfer_exposed skip source target mk key st S :
  is_skipped skip key = false →
  source st = Some (Ok (VObj S), st) →
  transfer skip source target mk key st
  = match own_prop st S key with
    | None => Some (Throw TypeError, st)
    | Some privateProperty =>
        (let* publicProperty := synthesize mk privateProperty in
         let* to := target in
         defineProperty to key publicProperty) st
    end.
Proof.
  destruct key as [name|]; simpl; [|done].
  destruct (startsWith name "_"); [done|]. simpl. intros -> Hsrc.
  rewrite (bind_ok _ _ _ _ _ Hsrc). unfold bind at 1. simpl.
  by destruct (own_prop st S (KStr name)).
Qed.

Lemma defineProperty_own_prop O k d st st' l k' :
  defineProperty O k d st = Some (Ok tt, st') → k ≠ k' →
  own_prop st' l k' = own_prop st l k'.
Proof.
  intros (l0 & o & -> & Ho & _ & ->)%defineProperty_ok Hne.
  unfold own_prop. simpl.
  destruct (decide (l0 = l)) as [->|]; [|by rewrite lookup_insert_ne].
  rewrite lookup_insert_eq, Ho. simpl. by apply assoc_set_ne.
Qed.

Lemma defineProperty_own_prop_eq l k d st st' o :
  defineProperty (VObj l) k d st = Some (Ok tt, st') → heap st !! l = Some o →
  own_prop st' l k = Some (define_result o k d).
Proof.
  intros (l0 & o' & [= <-] & Ho & _ & ->)%defineProperty_ok Ho'.
  assert (o' = o) as -> by congruence.
  unfold own_prop. simpl. rewrite lookup_insert_eq. simpl. apply assoc_set_eq.
Qed.

Lemma defineProperty_evolves l k d st st' :
  defineProperty (VObj l) k d st = Some (Ok tt, st') → evolves {[l]} st st'.
Proof.
  intros (l0 & o & [= <-] & Ho & _ & ->)%defineProperty_ok.
  apply set_props_evolves; [set_solver|done].
Qed.

#[local] Arguments defineProperty : simpl never.
#[local] Arguments synthesize : simpl never.
#[local] Arguments make_function : simpl never.

(** A round writes to its target only, at its key only, and fails with a
    TypeError only. *)
Lemma transfer_sat skip source target mk key st S X :
  (is_skipped skip key = false → source st = Some (Ok (VObj S), st)) →
  (∀ st1, extends st st1 → target st1 = Some (Ok (VObj X), st1)) →
  is_Some (heap st !! X) →
  sat (transfer skip source target mk key st)
      (λ _ st', evolves {[X]} st st'
                ∧ (∀ k, k ≠ key → own_prop st' X k = own_prop st X k)
                ∧ (is_skipped skip key = true → st' = st))
      (λ e _, e = TypeError).
Proof.
  intros Hsrc Htgt [oX HX].
  destruct (is_skipped skip key) eqn:Hskip.
  { rewrite transfer_skipped by done. simpl. split; [apply evolves_refl|done]. }
  rewrite (transfer_exposed _ _ _ _ _ _ S) by auto.
  destruct (own_prop st S key) as [pp|]; [|done].
  destruct (synthesize_total mk pp st) as (d & st1 & Hd & Hext).
  rewrite (bind_ok _ _ _ _ _ Hd), (bind_ok _ _ _ _ _ (Htgt st1 Hext)).
  eapply sat_mono; [| |apply defineProperty_sat]; simpl; [|done].
  intros [] st' Hdef. split_and!; [| |done].
  - eapply evolves_trans; [by apply extends_evolves|].
    by apply defineProperty_evolves in Hdef.
  - intros k Hk. rewrite (defineProperty_own_prop _ _ _ _ _ X _ Hdef) by done.
    unfold own_prop. by rewrite (extends_lookup _ _ _ _ Hext HX), HX.
Qed.

(** ** The loops keep the invariant of the construction *)

Lemma code_in_heap st l c : code_of st l = Some c → is_Some (heap st !! l).
Proof.
  unfold code_of, kind_of. destruct (heap st !! l); [eauto|done].
Qed.

Lemma proto_in_heap st l p : o_proto <$> heap st !! l = Some p → is_Some (heap st !! l).
Proof. destruct (heap st !! l); [eauto|done]. Qed.

Lemma skipped_underscore skip name :
  startsWith name "_" = true → is_skipped skip (KStr name) = true.
Proof. simpl. by intros ->. Qed.

Lemma not_elem_of_pair (l P Pp : loc) : l ≠ P → l ≠ Pp → l ∉ ({[P; Pp]} : gset loc).
Proof.
  intros H1 H2 [Hl%elem_of_singleton|Hl%elem_of_singleton]%elem_of_union; congruence.
Qed.

Section Building.
Context (I : Interp) (st0 : State) (ctor : Code) (getter : loc → Code).
Context (T P Pp : loc) (oT : Obj).
Hypothesis T_old : heap st0 !! T = Some oT.

Lemma building_T st : building st0 ctor getter P Pp st → heap st !! T = Some oT.
Proof.
  intros Hb. apply (ev_old _ _ _ (bd_evolves _ _ _ _ _ _ Hb)); [|done].
  pose proof (bd_new_P _ _ _ _ _ _ Hb). pose proof (bd_new_Pp _ _ _ _ _ _ Hb).
  apply not_elem_of_pair; congruence.
Qed.

Lemma building_static_round mk key st :
  building st0 ctor getter P Pp st →
  sat (transfer "prototype" (ret (VObj T)) (ret (VObj P)) mk key st)
      (λ _ st', building st0 ctor getter P Pp st')
      (λ e _, e = TypeError).
Proof.
  intros Hb.
  eapply sat_mono; [| |apply (transfer_sat _ _ _ _ _ _ T P)]; try done.
  - intros _ st' (Hev & Hother & Hskip). simpl.
    destruct Hb as [Hev0 HnP HnPp Hne Hcode Hproto (g & Hg & Hgc) Hst Hpr HlP HlPp].
    assert (evolves {[P; Pp]} st st') as Hev'.
    { eapply evolves_weaken; [|done]. set_solver. }
    assert (own_prop st' P (KStr "prototype") = own_prop st P (KStr "prototype")) as E1.
    { destruct (decide (KStr "prototype" = key)) as [<-|]; [|by apply Hother].
      by rewrite Hskip. }
    assert (own_prop st' P (KStr "_get") = own_prop st P (KStr "_get")) as E2.
    { destruct (decide (KStr "_get" = key)) as [<-|]; [|by apply Hother].
      by rewrite Hskip. }
    split; try done.
    + by eapply evolves_trans.
    + by eapply evolves_code.
    + by rewrite E1.
    + exists g. rewrite E2. split; [done|]. by eapply evolves_code.
    + intros name Hu Hn. rewrite <- (Hst name Hu Hn).
      destruct (decide (KStr name = key)) as [<-|]; [|by apply Hother].
      by rewrite Hskip; [|apply skipped_underscore].
    + intros name Hu. rewrite <- (Hpr name Hu).
      apply (evolves_own_prop {[P]}); [done| |by eapply proto_in_heap].
      set_solver.
    + by eapply ev_proto.
    + by eapply ev_proto.
  - eapply code_in_heap, bd_code, Hb.
Qed.

Lemma building_proto_round mk key st Tp w e c :
  own_prop st0 T (KStr "prototype") = Some (PData (VObj Tp) w e c) →
  building st0 ctor getter P Pp st →
  sat (transfer "constructor" (Get I (VObj T) (KStr "prototype"))
                (Get I (VObj P) (KStr "prototype")) mk key st)
      (λ _ st', building st0 ctor getter P Pp st')
      (λ e _, e = TypeError).
Proof.
  intros HT Hb.
  pose proof (building_T _ Hb) as HTst.
  eapply sat_mono; [| |apply (transfer_sat _ _ _ _ _ _ Tp Pp)]; try done.
  - intros _ st' (Hev & Hother & Hskip). simpl.
    destruct Hb as [Hev0 HnP HnPp Hne Hcode Hproto (g & Hg & Hgc) Hst Hpr HlP HlPp].
    assert (evolves {[P; Pp]} st st') as Hev'.
    { eapply evolves_weaken; [|done]. set_solver. }
    assert (∀ k, own_prop st' P k = own_prop st P k) as EP.
    { intros k. apply (evolves_own_prop {[Pp]}); [done| |by eapply code_in_heap].
      set_solver. }
    split; try done.
    + by eapply evolves_trans.
    + by eapply evolves_code.
    + by rewrite EP.
    + exists g. rewrite EP. split; [done|]. by eapply evolves_code.
    + intros name Hu Hn. by rewrite EP, Hst.
    + intros name Hu. rewrite <- (Hpr name Hu).
      destruct (decide (KStr name = key)) as [<-|]; [|by apply Hother].
      by rewrite Hskip; [|apply skipped_underscore].
    + by eapply ev_proto.
    + by eapply ev_proto.
  - intros _. eapply Get_own_data. unfold own_prop in *.
    rewrite HTst. by rewrite T_old in HT.
  - intros st1 Hext. eapply Get_own_data.
    pose proof (bd_prototype _ _ _ _ _ _ Hb) as Hp. unfold own_prop in *.
    destruct (heap st !! P) as [oP|] eqn:HP; [|done].
    by rewrite (extends_lookup _ _ _ _ Hext HP).
  - eapply proto_in_heap, bd_Pp_link, Hb.
Qed.
End Building.

(** ** The construction, stage by stage *)

Lemma assoc_underscore name (ps : list (PropKey * Property)) :
  startsWith name "_" = true →
  Forall (λ kp, match kp.1 with
                | KStr n => startsWith n "_" = false ∨ n ≠ name
                | KSym _ => True
                end) ps →
  assoc (KStr name) ps = None.
Proof.
  intros Hu. induction 1 as [|[k p] ps Hk _ IH]; simpl; [done|].
  destruct (decide (KStr name = k)) as [<-|]; [|done].
  simpl in Hk. destruct Hk; congruence.
Qed.

Section Stages.
Context {B : Type} (I : Interp) (ctor : Code) (getter : loc → Code).
Context (statics protos : Makers) (T : loc) (rest : loc → M B).
Context (st0 : State) (oT : Obj).
Hypothesis T_old : heap st0 !! T = Some oT.

(** Stage 1: the class is defined. *)
Lemma build_with_start :
  ∃ P Pp g st1,
    building st0 ctor getter P Pp st1
    ∧ heap st1 !! P = Some (PublicClass_object ctor Pp g)
    ∧ heap st1 !! Pp = Some (PublicClass_prototype_object P)
    ∧ extends st0 st1
    ∧ build_with I ctor getter statics protos T rest st0
      = (let* _ := for_of (o_props oT).*1
                     (transfer "prototype" (ret (VObj T)) (ret (VObj P)) statics) in
         build_tail I protos T P rest) st1.
Proof.
  destruct (define_PublicClass_spec ctor getter st0)
    as (P & Pp & g & st1 & Hdef & Hext & HnP & HnPp & Hne & HP & HPp & Hg).
  exists P, Pp, g, st1. split_and!; try done.
  - assert (∀ k, own_prop st1 P k = assoc k (o_props (PublicClass_object ctor Pp g)))
      as EP by (intros k; unfold own_prop; by rewrite HP).
    assert (∀ k, own_prop st1 Pp k = assoc k (o_props (PublicClass_prototype_object P)))
      as EPp by (intros k; unfold own_prop; by rewrite HPp).
    split; try done.
    + by apply extends_evolves.
    + unfold code_of, kind_of. by rewrite HP.
    + exists g. rewrite EP. split; [reflexivity|done].
    + intros name Hu Hn. rewrite EP. apply assoc_underscore; [done|].
      repeat apply Forall_cons_2; try apply Forall_nil_2; simpl;
        (by left) || (right; congruence).
    + intros name Hu. rewrite EPp. apply assoc_underscore; [done|].
      repeat apply Forall_cons_2; try apply Forall_nil_2; simpl; by left.
    + by rewrite HP.
    + by rewrite HPp.
  - unfold build_with. rewrite (bind_ok _ _ _ _ _ Hdef).
    unfold bind at 1, Reflect_ownKeys at 1, ownKeys.
    by rewrite (extends_lookup _ _ _ _ Hext T_old).
Qed.

(** Stage 2: the loop over the keys of the class. *)
Lemma static_loop_sat P Pp keys st :
  building st0 ctor getter P Pp st →
  sat (for_of keys (transfer "prototype" (ret (VObj T)) (ret (VObj P)) statics) st)
      (λ _ st', building st0 ctor getter P Pp st')
      (λ e _, e = TypeError).
Proof.
  intros Hb. apply (for_of_sat (building st0 ctor getter P Pp)); [|done].
  intros key st1 _ Hb1. by eapply building_static_round.
Qed.

(** Stage 3: the prototype of the class is read, its keys are listed. *)
Lemma build_tail_eq P Pp st v w e c :
  own_prop st0 T (KStr "prototype") = Some (PData v w e c) →
  building st0 ctor getter P Pp st →
  build_tail I protos T P rest st
  = match v with
    | VObj Tp =>
        (let* _ := for_of (ownKeys st Tp)
                     (transfer "constructor" (Get I (VObj T) (KStr "prototype"))
                               (Get I (VObj P) (KStr "prototype")) protos) in
         rest P) st
    | _ => Some (Throw TypeError, st)
    end.
Proof.
  intros HT Hb. unfold build_tail.
  assert (Get I (VObj T) (KStr "prototype") st = Some (Ok v, st)) as HG.
  { eapply Get_own_data. unfold own_prop in *.
    rewrite (building_T _ _ _ _ _ _ _ T_old _ Hb). by rewrite T_old in HT. }
  rewrite (bind_ok _ _ _ _ _ HG). by destruct v.
Qed.

(** Stage 4: the loop over the keys of the prototype. *)
Lemma proto_loop_sat P Pp keys st Tp w e c :
  own_prop st0 T (KStr "prototype") = Some (PData (VObj Tp) w e c) →
  building st0 ctor getter P Pp st →
  sat (for_of keys
         (transfer "constructor" (Get I (VObj T) (KStr "prototype"))
                   (Get I (VObj P) (KStr "prototype")) protos) st)
      (λ _ st', building st0 ctor getter P Pp st')
      (λ e _, e = TypeError).
Proof.
  intros HT Hb. apply (for_of_sat (building st0 ctor getter P Pp)); [|done].
  intros key st1 _ Hb1. by eapply building_proto_round.
Qed.

(** The whole construction: it ends with the class built, or with a
    TypeError. *)
Lemma build_with_sat v w e c (ok : B → State → Prop) (err : Exn → State → Prop) :
  own_prop st0 T (KStr "prototype") = Some (PData v w e c) →
  (∀ P Pp st, building st0 ctor getter P Pp st → sat (rest P st) ok err) →
  (∀ st, err TypeError st) →
  sat (build_with I ctor getter statics protos T rest st0) ok err.
Proof.
  intros HT Hrest Herr.
  destruct build_with_start as (P & Pp & g & st1 & Hb & _ & _ & _ & ->).
  apply sat_bind.
  eapply sat_mono; [| |by apply static_loop_sat]; simpl;
    [|by intros ? ? ->].
  intros _ st2 Hb2. rewrite (build_tail_eq P Pp st2 v w e c) by done.
  destruct v as [| | | | | |Tp]; try apply Herr.
  apply sat_bind.
  eapply sat_mono; [| |by eapply proto_loop_sat]; simpl;
    [|by intros ? ? ->].
  intros _ st3 Hb3. by eapply Hrest.
Qed.
End Stages.

(** ** [getPublicClass] in both modules *)

Lemma U_build_eq I T :
  Utility.build I T
  = build_with I (UPublicClass T) U_get (U_static T) U_proto T
      (λ P, let* _ := closure_update (set_privateClassesMap T (VObj P)) in
            let* _ := closure_update (set_publicClassesMap P (VObj T)) in
            ret (VObj P)).
Proof. reflexivity. Qed.

Lemma B_build_eq I this T st :
  PublicClassBuilder.buildPublicClass I this T st
  = build_with I
      (BPublicClass (match this with VObj l => _privateMap st !! l | _ => None end) T)
      (B_get (match this with VObj l => _privateMap st !! l | _ => None end))
      (B_static T)
      (B_proto (match this with VObj l => _privateMap st !! l | _ => None end))
      T ret st.
Proof. reflexivity. Qed.

Lemma is_class_heap st st' T :
  heap st' !! T = heap st !! T → is_class st' T = is_class st T.
Proof.
  intros Heq. unfold is_class, is_callable, code_of, kind_of, own_prop.
  by rewrite Heq.
Qed.

Lemma is_class_inv st T :
  is_class st T = true →
  ∃ oT v w e c, heap st !! T = Some oT
    ∧ own_prop st T (KStr "prototype") = Some (PData v w e c)
    ∧ to_boolean v = true ∧ typeof st (VObj T) = "function".
Proof.
  unfold is_class, typeof. intros [Hc Hp]%andb_true_iff. rewrite Hc.
  destruct (own_prop st T (KStr "prototype")) as [[v w e c|]|] eqn:Hown; try done.
  unfold own_prop in Hown. destruct (heap st !! T) as [oT|] eqn:HT; [|done].
  by exists oT, v, w, e, c.
Qed.

Lemma U_rejects_class I st T :
  is_class st T = true → Utility.rejects I (VObj T) st = Some (Ok false, st).
Proof.
  intros (oT & v & w & e & c & HT & Hp & Hv & Hty)%is_class_inv.
  unfold Utility.rejects, bind at 1, gets at 1. rewrite Hty. simpl.
  rewrite (bind_ok _ _ _ _ _ (Get_own_data I _ _ _ _ _ _ _ Hp)).
  unfold ret. by rewrite Hv.
Qed.

Lemma B_rejects_class I st T :
  is_class st T = true → PublicClassBuilder.rejects I (VObj T) st = Some (Ok false, st).
Proof.
  intros (oT & v & w & e & c & HT & Hp & Hv & Hty)%is_class_inv.
  unfold PublicClassBuilder.rejects, bind at 1, gets at 1. rewrite Hty. simpl.
  rewrite (bind_ok _ _ _ _ _ (Get_own_data I _ _ _ _ _ _ _ Hp)).
  unfold ret. by rewrite Hv.
Qed.

(** What [getPublicClass] of [Utility.js] returns for a class that is not
    in the map yet. *)
Lemma U_getPublicClass_new I st T :
  is_class st T = true →
  privateClassesMap (closure st) !! T = None →
  sat (Utility.getPublicClass I (VObj T) st)
      (λ r st', ∃ P Pp st1,
         r = VObj P
         ∧ building st (UPublicClass T) U_get P Pp st1
         ∧ st' = set_closure (set_publicClassesMap P (VObj T)
                   (set_privateClassesMap T (VObj P) (closure st))) st1)
      (λ e _, e = TypeError).
Proof.
  intros Hcl Hnew. unfold Utility.getPublicClass.
  rewrite (bind_ok _ _ _ _ _ (U_rejects_class I _ _ Hcl)).
  unfold bind at 1, gets at 1. simpl.
  rewrite bool_decide_eq_false_2 by (rewrite Hnew; by intros [? ?]).
  destruct (is_class_inv _ _ Hcl) as (oT & v & w & e & c & HT & Hp & _ & _).
  rewrite U_build_eq. eapply build_with_sat; [done..| |done].
  intros P Pp st1 Hb. unfold closure_update, modify, bind, ret. simpl.
  exists P, Pp, st1. split_and!; [done..|].
  destruct (ev_registry _ _ _ (bd_evolves _ _ _ _ _ _ Hb)) as (-> & _ & _).
  done.
Qed.

(** The same for a builder whose [_private] object is [r]. *)
Lemma B_getPublicClass_new I st b r reg T :
  _privateMap st !! b = Some r → privates st !! r = Some reg →
  is_class st T = true →
  privateClassesMap reg !! T = None →
  sat (PublicClassBuilder.getPublicClass I (VObj b) (VObj T) st)
      (λ res st', ∃ P Pp st1,
         res = VObj P
         ∧ building st (BPublicClass (Some r) T) (B_get (Some r)) P Pp st1
         ∧ st' = mkState (heap st1) (closure st) (_privateMap st)
                   (<[r := set_publicClassesMap P (VObj T)
                             (set_privateClassesMap T (VObj P) reg)]> (privates st)))
      (λ e _, e = TypeError).
Proof.
  intros Hb Hr Hcl Hnew. unfold PublicClassBuilder.getPublicClass.
  unfold bind at 1, _privateMap_get at 1, gets at 1. rewrite Hb.
  rewrite (bind_ok _ _ _ _ _ (B_rejects_class I _ _ Hcl)).
  unfold bind at 1, field at 1. simpl. rewrite Hr. simpl.
  rewrite bool_decide_eq_false_2 by (rewrite Hnew; by intros [? ?]).
  destruct (is_class_inv _ _ Hcl) as (oT & v & w & e & c & HT & Hp & _ & _).
  apply sat_bind. rewrite B_build_eq, Hb.
  assert (sat (build_with I (BPublicClass (Some r) T) (B_get (Some r)) (B_static T)
                 (B_proto (Some r)) T ret st)
              (λ P st1, ∃ Pp, building st (BPublicClass (Some r) T) (B_get (Some r))
                                P Pp st1)
              (λ e _, e = TypeError)) as Hs.
  { eapply build_with_sat; [done..| |done]. intros P Pp st1 Hbd. simpl. by exists Pp. }
  eapply sat_mono; [| |exact Hs]; simpl; [|done].
  intros P st1 [Pp Hbd].
  destruct (ev_registry _ _ _ (bd_evolves _ _ _ _ _ _ Hbd)) as (Hc & Hm & Hps).
  unfold Map_set, field_update, bind, ret. simpl. rewrite Hps, Hr. simpl.
  rewrite lookup_insert_eq. simpl.
  exists P, Pp, st1. split_and!; [done..|].
  by rewrite Hc, Hm, insert_insert_eq.
Qed.

Lemma U_getPublicClass_cached I st T P :
  is_class st T = true →
  privateClassesMap (closure st) !! T = Some P →
  Utility.getPublicClass I (VObj T) st = Some (Ok P, st).
Proof.
  intros Hcl Hc. unfold Utility.getPublicClass.
  rewrite (bind_ok _ _ _ _ _ (U_rejects_class I _ _ Hcl)).
  unfold bind at 1, gets. simpl.
  rewrite bool_decide_eq_true_2 by (by rewrite Hc). by rewrite Hc.
Qed.

Lemma B_getPublicClass_cached I st b r reg T P :
  _privateMap st !! b = Some r → privates st !! r = Some reg →
  is_class st T = true →
  privateClassesMap reg !! T = Some P →
  PublicClassBuilder.getPublicClass I (VObj b) (VObj T) st = Some (Ok P, st).
Proof.
  intros Hb Hr Hcl Hc. unfold PublicClassBuilder.getPublicClass.
  unfold bind at 1, _privateMap_get at 1, gets at 1. rewrite Hb.
  rewrite (bind_ok _ _ _ _ _ (B_rejects_class I _ _ Hcl)).
  unfold bind at 1, field at 1. simpl. rewrite Hr. simpl.
  rewrite bool_decide_eq_true_2 by (by rewrite Hc).
  unfold bind, field, ret. simpl. by rewrite Hr, Hc.
Qed.

(** A builder that is not registered cannot compile. *)
Lemma B_getPublicClass_unregistered I st b T res st' :
  is_class st T = true →
  (_privateMap st !! b ≫= λ r, privates st !! r) = None →
  PublicClassBuilder.getPublicClass I (VObj b) (VObj T) st = Some (Ok res, st') → False.
Proof.
  intros Hcl Hnone. unfold PublicClassBuilder.getPublicClass.
  unfold bind at 1, _privateMap_get at 1, gets at 1.
  rewrite (bind_ok _ _ _ _ _ (B_rejects_class I _ _ Hcl)).
  unfold bind at 1, field at 1. by rewrite Hnone.
Qed.

Lemma compile_new I sc st reg T :
  registry sc st = Some reg →
  is_class st T = true →
  privateClassesMap reg !! T = None →
  sat (compile I sc (VObj T) st)
      (λ res st', ∃ P Pp ctor getter st1 reg',
         res = VObj P
         ∧ building st ctor getter P Pp st1
         ∧ heap st' = heap st1
         ∧ registry sc st' = Some reg'
         ∧ reg' = set_publicClassesMap P (VObj T) (set_privateClassesMap T (VObj P) reg))
      (λ e _, e = TypeError).
Proof.
  destruct sc as [|b]; simpl.
  - intros [= <-] Hcl Hnew.
    eapply sat_mono; [| |by apply U_getPublicClass_new]; simpl; [|done].
    intros res st' (P & Pp & st1 & -> & Hb & ->).
    by eexists P, Pp, _, _, st1, _.
  - intros Hreg Hcl Hnew.
    destruct (_privateMap st !! b) as [r|] eqn:Hb; [|done]. simpl in Hreg.
    eapply sat_mono; [| |by eapply B_getPublicClass_new]; simpl; [|done].
    intros res st' (P & Pp & st1 & -> & Hbd & ->).
    eexists P, Pp, _, _, st1, _. split_and!; [done..| |done].
    simpl. rewrite Hb. simpl. apply lookup_insert_eq.
Qed.

Lemma compile_cached I sc st reg T P :
  registry sc st = Some reg →
  is_class st T = true →
  privateClassesMap reg !! T = Some P →
  compile I sc (VObj T) st = Some (Ok P, st).
Proof.
  destruct sc as [|b]; simpl.
  - intros [= <-]. apply U_getPublicClass_cached.
  - intros Hreg. destruct (_privateMap st !! b) as [r|] eqn:Hb; [|done].
    by eapply B_getPublicClass_cached.
Qed.

Lemma compile_registry I sc st T res st' :
  is_class st T = true →
  compile I sc (VObj T) st = Some (Ok res, st') →
  is_Some (registry sc st).
Proof.
  destruct sc as [|b]; simpl; [by eauto|].
  intros Hcl Hc. destruct (_ ≫= _) eqn:Hreg; [by eauto|].
  by destruct (B_getPublicClass_unregistered _ _ _ _ _ _ Hcl Hreg Hc).
Qed.

(** C2: for every class [T] and every scope, a call of [compile] that
    returns a façade leaves it in the class map of the scope, so that a
    second call returns the same reference and changes nothing; when the
    first call built the façade, it is a class [p] that the reverse class
    map sends back to [T]. *)
Theorem C2_compile_twice_same_facade I sc T st P st' :
  is_class st T = true →
  compile I sc (VObj T) st = Some (Ok P, st') →
  compile I sc (VObj T) st' = Some (Ok P, st')
  ∧ ∃ reg',
      registry sc st' = Some reg'
      ∧ privateClassesMap reg' !! T = Some P
      ∧ ((∀ reg, registry sc st = Some reg → privateClassesMap reg !! T = None) →
         ∃ p, P = VObj p ∧ publicClassesMap reg' !! p = Some (VObj T)).
Proof.
  intros Hcl Hc.
  destruct (compile_registry _ _ _ _ _ _ Hcl Hc) as [reg Hreg].
  destruct (privateClassesMap reg !! T) as [x|] eqn:Hx.
  - rewrite (compile_cached _ _ _ _ _ _ Hreg Hcl Hx) in Hc.
    injection Hc as <- <-. split; [by eapply compile_cached|].
    exists reg. split_and!; [done..|]. intros Hn. by rewrite (Hn _ Hreg) in Hx.
  - pose proof (compile_new I _ _ _ _ Hreg Hcl Hx) as Hs. rewrite Hc in Hs.
    destruct Hs as (p & Pp & ctor & getter & st1 & reg' & -> & Hb & Hh & Hreg' & ->).
    destruct (is_class_inv _ _ Hcl) as (oT & _ & _ & _ & _ & HT & _).
    assert (is_class st' T = true) as Hcl'.
    { rewrite <- Hcl. apply is_class_heap.
      by rewrite Hh, (building_T _ _ _ _ _ _ _ HT _ Hb). }
    assert (privateClassesMap
              (set_publicClassesMap p (VObj T) (set_privateClassesMap T (VObj p) reg))
            !! T = Some (VObj p)) as Hl by apply lookup_insert_eq.
    split; [by eapply compile_cached|].
    eexists. split_and!; [done..|]. intros _. exists p. split; [done|].
    apply lookup_insert_eq.
Qed.

Lemma own_prop_heap st st' l k :
  heap st' = heap st → own_prop st' l k = own_prop st l k.
Proof. unfold own_prop. by intros ->. Qed.

(** C1, as stated, fails: the façade of [Counter] owns the static member
    [_get], in the process-wide scope as in the scope of a builder. *)
Lemma C1_facade_owns_get :
  (∃ P st',
     compile (interp demo_host 1) ProcessWide (VObj Counter) demo
     = Some (Ok (VObj P), st')
     ∧ ¬ no_internal_member st' P)
  ∧ (∃ b st0 P st',
       PublicClassBuilder.new demo = Some (Ok b, st0)
       ∧ compile (interp demo_host 1) (BuilderScope b) (VObj Counter) st0
         = Some (Ok (VObj P), st')
       ∧ ¬ no_internal_member st' P).
Proof.
  split.
  - eexists _, _. split; [vm_compute; reflexivity|].
    intros H. specialize (H "_get" eq_refl). vm_compute in H. discriminate H.
  - eexists _, _, _, _. split; [vm_compute; reflexivity|].
    split; [vm_compute; reflexivity|].
    intros H. specialize (H "_get" eq_refl). vm_compute in H. discriminate H.
Qed.

(** C1, amended: a façade that [compile] has just built owns no member
    whose name starts with an underscore except the static [_get], its
    prototype object owns none, and the two inherit from the function
    prototype and the object prototype of the host, not from the
    implementation class. *)
Theorem C1_only_get_is_internal I sc T st reg P st' :
  registry sc st = Some reg →
  is_class st T = true →
  privateClassesMap reg !! T = None →
  compile I sc (VObj T) st = Some (Ok (VObj P), st') →
  ∃ Pp,
    own_prop st' P (KStr "prototype") = Some (PData (VObj Pp) false false false)
    ∧ (∀ name, startsWith name "_" = true →
         is_Some (own_prop st' P (KStr name)) ↔ name = "_get")
    ∧ (∀ name, startsWith name "_" = true → own_prop st' Pp (KStr name) = None)
    ∧ o_proto <$> heap st' !! P = Some (Some FunctionPrototype)
    ∧ o_proto <$> heap st' !! Pp = Some (Some ObjectPrototype).
Proof.
  intros Hreg Hcl Hnew Hc.
  pose proof (compile_new I _ _ _ _ Hreg Hcl Hnew) as Hs. rewrite Hc in Hs.
  destruct Hs as (p & Pp & ctor & getter & st1 & reg' & [= <-] & Hb & Hh & _).
  destruct Hb as [_ _ _ _ _ Hproto (g & Hg & _) Hst Hpr HlP HlPp].
  exists Pp. rewrite !Hh. split_and!; [|intros name Hu; split| |done..].
  - by rewrite (own_prop_heap st1).
  - intros Hsome. destruct (decide (name = "_get")) as [|Hne]; [done|].
    rewrite (own_prop_heap st1), (Hst name Hu Hne) in Hsome by done.
    by destruct Hsome.
  - intros ->. rewrite (own_prop_heap st1), Hg by done. by eexists.
  - intros name Hu. rewrite (own_prop_heap st1) by done. by apply Hpr.
Qed.

(** ** Writable plain members *)

Lemma for_of_throws {A} (Inv : State → Prop) (body : A → M unit) (l : list A) x :
  x ∈ l →
  (∀ y st, Inv st → sat (body y st) (λ _ st', Inv st') (λ e _, e = TypeError)) →
  (∀ st, Inv st → ∃ st', body x st = Some (Throw TypeError, st')) →
  ∀ st, Inv st → ∃ st', for_of l body st = Some (Throw TypeError, st').
Proof.
  intros Hx Hbody Hthrow. induction l as [|y l IH]; intros st Hst.
  { by apply elem_of_nil in Hx. }
  simpl. apply elem_of_cons in Hx as [<-|Hx].
  - destruct (Hthrow st Hst) as [st' Hst']. exists st'. by apply bind_throw.
  - specialize (Hbody y st Hst). unfold bind.
    destruct (body y st) as [[[[]|e] st1]|]; simpl in Hbody; [|subst; eauto|done].
    by apply IH.
Qed.

Lemma non_function_typeof st v :
  non_function st v = true → String.eqb (typeof st v) "function" = false.
Proof.
  destruct v as [| | | | | |l]; simpl; try done.
  unfold code_of. destruct (kind_of st l) as [[]|]; try done.
  all: intros _; rewrite bool_decide_eq_false_2; [done|by intros [? ?]].
Qed.

Lemma non_function_evolves W st st' v :
  evolves W st st' → non_function st v = true → non_function st' v = true.
Proof.
  intros Hev. destruct v as [| | | | | |l]; simpl; try done.
  destruct (kind_of st l) as [k|] eqn:Hk; [|done].
  by rewrite (ev_kind _ _ _ Hev l k Hk).
Qed.

Lemma exposed_static_skipped name :
  exposed_static name = true → is_skipped "prototype" (KStr name) = false.
Proof.
  unfold exposed_static. simpl.
  by destruct (startsWith name "_"), (String.eqb name "prototype").
Qed.

Lemma exposed_proto_skipped name :
  exposed_proto name = true → is_skipped "constructor" (KStr name) = false.
Proof.
  unfold exposed_proto. simpl.
  by destruct (startsWith name "_"), (String.eqb name "constructor").
Qed.

Lemma assoc_elem_of k (ps : list (PropKey * Property)) p :
  assoc k ps = Some p → k ∈ ps.*1.
Proof.
  induction ps as [|[k' p'] ps IH]; simpl; [done|].
  destruct (decide (k = k')) as [->|]; [left|right; auto].
Qed.

(** The round of a writable plain member: [{ writable: true, get }] is no
    descriptor. *)
Lemma transfer_writable_plain skip source target mk key st S X v e c :
  is_skipped skip key = false →
  source st = Some (Ok (VObj S), st) →
  (∀ st1, extends st st1 → target st1 = Some (Ok (VObj X), st1)) →
  own_prop st S key = Some (PData v true e c) →
  non_function st v = true →
  ∃ st', transfer skip source target mk key st = Some (Throw TypeError, st').
Proof.
  intros Hskip Hsrc Htgt Hown Hnf.
  rewrite (transfer_exposed _ _ _ _ _ _ S), Hown by done.
  destruct (synthesize_plain mk v true e c st (non_function_typeof _ _ Hnf))
    as (f & st1 & Hd & Hext & _ & _).
  rewrite (bind_ok _ _ _ _ _ Hd), (bind_ok _ _ _ _ _ (Htgt st1 Hext)).
  unfold defineProperty. destruct (heap st1 !! X); [|by eauto].
  unfold desc_well_formed, desc_is_accessor, desc_is_data. simpl.
  rewrite andb_false_r. by eauto.
Qed.

Section Throws.
Context {B : Type} (I : Interp) (ctor : Code) (getter : loc → Code).
Context (statics protos : Makers) (T : loc) (rest : loc → M B).
Context (st0 : State).

Lemma build_with_throws v0 w0 e0 c0 :
  is_class st0 T = true →
  own_prop st0 T (KStr "prototype") = Some (PData v0 w0 e0 c0) →
  has_writable_plain_member st0 T →
  ∃ st', build_with I ctor getter statics protos T rest st0
         = Some (Throw TypeError, st').
Proof.
  intros Hcl HT0 Hmem.
  destruct (is_class_inv _ _ Hcl) as (oT & _ & _ & _ & _ & HT & _).
  destruct (build_with_start I ctor getter statics protos T rest st0 oT HT)
    as (P & Pp & g & st1 & Hb & _ & _ & _ & ->).
  destruct Hmem as [(name & v & e & c & Hex & Hown & Hnf)
                   |(Tp & w' & e' & c' & HTp & name & v & e & c & Hex & Hown & Hnf)].
  - (* a static member *)
    destruct (for_of_throws (building st0 ctor getter P Pp)
                (transfer "prototype" (ret (VObj T)) (ret (VObj P)) statics)
                (o_props oT).*1 (KStr name)) with (st := st1) as [st' Hst'];
      [| | |done|].
    + unfold own_prop in Hown. rewrite HT in Hown. by eapply assoc_elem_of.
    + intros y st Hst. by eapply building_static_round.
    + intros st Hst.
      eapply (transfer_writable_plain _ _ _ _ _ _ T P);
        [by apply exposed_static_skipped|done|done| |].
      * unfold own_prop in *.
        by rewrite (building_T _ _ _ _ _ _ _ HT _ Hst), <- HT.
      * eapply non_function_evolves; [eapply bd_evolves, Hst|done].
    + exists st'. by apply bind_throw.
  - (* a member of the prototype *)
    assert (v0 = VObj Tp) as -> by congruence.
    pose proof (static_loop_sat ctor getter statics T st0 oT HT P Pp
                  (o_props oT).*1 st1 Hb) as Hs.
    unfold bind at 1.
    destruct (for_of _ _ st1) as [[[[]|err] st2]|]; simpl in Hs;
      [|subst; eauto|done].
    rewrite (build_tail_eq I ctor getter protos T rest st0 oT HT P Pp st2
               _ _ _ _ HT0 Hs).
    assert (∃ oTp, heap st0 !! Tp = Some oTp) as [oTp HoTp].
    { unfold own_prop in Hown. destruct (heap st0 !! Tp); [eauto|done]. }
    assert (∀ st, building st0 ctor getter P Pp st → heap st !! Tp = Some oTp)
      as HTpst by (intros st Hst; by eapply building_T).
    destruct (for_of_throws (building st0 ctor getter P Pp)
                (transfer "constructor" (Get I (VObj T) (KStr "prototype"))
                          (Get I (VObj P) (KStr "prototype")) protos)
                (ownKeys st2 Tp) (KStr name)) with (st := st2) as [st' Hst'];
      [| | |done|].
    + unfold ownKeys. rewrite (HTpst _ Hs).
      unfold own_prop in Hown. rewrite HoTp in Hown. by eapply assoc_elem_of.
    + intros y st Hst. by eapply building_proto_round.
    + intros st Hst.
      eapply (transfer_writable_plain _ _ _ _ _ _ Tp Pp);
        [by apply exposed_proto_skipped| | | |].
      * eapply Get_own_data. unfold own_prop in *.
        rewrite (building_T _ _ _ _ _ _ _ HT _ Hst). by rewrite HT in HT0.
      * intros st3 Hext. eapply Get_own_data.
        pose proof (bd_prototype _ _ _ _ _ _ Hst) as Hp. unfold own_prop in *.
        destruct (heap st !! P) as [oP|] eqn:HP; [|done].
        by rewrite (extends_lookup _ _ _ _ Hext HP).
      * unfold own_prop in *. by rewrite (HTpst _ Hst), <- HoTp.
      * eapply non_function_evolves; [eapply bd_evolves, Hst|done].
    + exists st'. by apply bind_throw.
Qed.
End Throws.

(** C10: a class that is not compiled yet and has an exposed own static or
    prototype data property that is writable and holds no function cannot
    be compiled: [compile] throws a TypeError, in both scopes. *)
Theorem C10_writable_plain_member_rejected I sc T st reg :
  registry sc st = Some reg →
  is_class st T = true →
  privateClassesMap reg !! T = None →
  has_writable_plain_member st T →
  ∃ st', compile I sc (VObj T) st = Some (Throw TypeError, st').
Proof.
  intros Hreg Hcl Hnew Hmem.
  destruct (is_class_inv _ _ Hcl) as (oT & v & w & e & c & HT & Hp & _ & _).
  destruct sc as [|b]; simpl in *.
  - injection Hreg as <-. unfold Utility.getPublicClass.
    rewrite (bind_ok _ _ _ _ _ (U_rejects_class I _ _ Hcl)).
    unfold bind at 1, gets at 1. simpl.
    rewrite bool_decide_eq_false_2 by (rewrite Hnew; by intros [? ?]).
    rewrite U_build_eq. by eapply build_with_throws.
  - destruct (_privateMap st !! b) as [r|] eqn:Hb; [|done]. simpl in Hreg.
    unfold PublicClassBuilder.getPublicClass.
    unfold bind at 1, _privateMap_get at 1, gets at 1. rewrite Hb.
    rewrite (bind_ok _ _ _ _ _ (B_rejects_class I _ _ Hcl)).
    unfold bind at 1, field at 1. simpl. rewrite Hreg. simpl.
    rewrite bool_decide_eq_false_2 by (rewrite Hnew; by intros [? ?]).
    destruct (build_with_throws I (BPublicClass (Some r) T) (B_get (Some r))
                (B_static T) (B_proto (Some r)) T ret st v w e c Hcl Hp Hmem)
      as [st' Hst'].
    exists st'. apply bind_throw. by rewrite B_build_eq, Hb.
Qed.

(** ** Unbound receivers *)

(** C9: an instance-level member of a façade (getter, setter, method or
    plain value, of either module) called on a receiver that the instance
    map of its scope does not know returns [undefined]; it throws nothing,
    calls nothing and at most allocates the array of its arguments. *)
Theorem C9_unbound_receiver_yields_undefined host I st f c m this args :
  code_of st f = Some c →
  instance_member c = true →
  receiver_map st c = Some m →
  has m this = false →
  ∃ st', call_step host I f this args st = Some (Ok VUndef, st') ∧ extends st st'.
Proof.
  intros Hc Hinst Hm Hhas. unfold call_step. rewrite Hc.
  destruct c; try done; simpl in Hm.
  1-4: injection Hm as <-.
  5-8: destruct _private as [r|]; [|done]; simpl in Hm;
       destruct (privates st !! r) as [reg|] eqn:Hr; [|done];
       injection Hm as <-.
  - unfold Utility.proto_getter, bind, gets, ret. rewrite Hhas. simpl.
    eexists. split; [done|apply extends_refl].
  - unfold Utility.proto_setter, bind, gets, ret. rewrite Hhas. simpl.
    eexists. split; [done|apply extends_refl].
  - unfold Utility.proto_method, rest_array, new_array, bind, alloc, gets, ret.
    simpl. rewrite Hhas. simpl.
    eexists. split; [done|apply extends_insert, fresh_heap].
  - unfold Utility.proto_value, bind, gets, ret. rewrite Hhas. simpl.
    eexists. split; [done|apply extends_refl].
  - unfold PublicClassBuilder.proto_getter, bind, field, ret. simpl.
    rewrite Hr, Hhas. simpl. eexists. split; [done|apply extends_refl].
  - unfold PublicClassBuilder.proto_setter, bind, field, ret. simpl.
    rewrite Hr, Hhas. simpl. eexists. split; [done|apply extends_refl].
  - unfold PublicClassBuilder.proto_method, rest_array, new_array, bind, alloc,
      field, ret. simpl. rewrite Hr, Hhas. simpl.
    eexists. split; [done|apply extends_insert, fresh_heap].
  - unfold PublicClassBuilder.proto_value, bind, field, ret. simpl.
    rewrite Hr, Hhas. simpl. eexists. split; [done|apply extends_refl].
Qed.

(** ** The translators *)

Lemma typeof_not_promise st v : String.eqb (typeof st v) "promise" = false.
Proof. destruct v; simpl; try done. by destruct (bool_decide _). Qed.

Lemma map_elems_ext (f g : Value → M Value) es :
  (∀ v st, f v st = g v st) → ∀ st, map_elems f es st = map_elems g es st.
Proof.
  intros Hfg. induction es as [|[v|] es IH]; intros st; simpl; [done|..].
  - unfold bind. rewrite Hfg. destruct (g v st) as [[[v'|e] st1]|]; [|done..].
    rewrite IH. done.
  - unfold bind. by rewrite IH.
Qed.

Lemma Array_map_ext (f g : Value → M Value) obj :
  (∀ v st, f v st = g v st) → ∀ st, Array_map f obj st = Array_map g obj st.
Proof.
  intros Hfg st. unfold Array_map, bind.
  destruct (elems_of obj st) as [[[es|e] st1]|]; [|done..].
  destruct (new_array _ st1) as [[[A|e] st2]|]; [|done..].
  by rewrite (map_elems_ext f g es Hfg).
Qed.

Lemma filterPublicInstance_translate fuel obj st :
  filterPublicInstance fuel obj st
  = translate (U_lookup publicInstancesMap) TfilterPublicInstance fuel obj st.
Proof.
  revert obj st. induction fuel as [|n IH]; intros obj st; [done|].
  simpl. unfold bind, U_lookup, gets, lookup_in.
  destruct (has _ obj); [done|].
  destruct (isArray st obj); [|done]. by apply Array_map_ext.
Qed.

Lemma filterPrivateInstance_translate fuel obj st :
  filterPrivateInstance fuel obj st
  = translate (U_lookup privateInstancesMap) TfilterPrivateInstance fuel obj st.
Proof.
  revert obj st. induction fuel as [|n IH]; intros obj st; [done|].
  simpl. unfold bind, U_lookup, gets, lookup_in.
  destruct (has _ obj); [done|].
  destruct (isArray st obj); [|done]. by apply Array_map_ext.
Qed.

Lemma filterPublic_translate fuel this obj st :
  filterPublic fuel this obj st
  = translate (B_lookup publicInstancesMap publicClassesMap this)
              (TfilterPublic this) fuel obj st.
Proof.
  revert obj st. induction fuel as [|n IH]; intros obj st; [done|].
  simpl. unfold B_lookup, bind, _privateMap_get, gets, field.
  destruct (_ ≫= _) as [reg|]; [|done]. simpl.
  destruct (has (publicInstancesMap reg) obj); [done|].
  destruct (_ ≫= _) as [reg'|]; [|done]. simpl.
  destruct (has (publicClassesMap reg') obj); [done|]. simpl.
  destruct (isArray st obj); [|done]. by apply Array_map_ext.
Qed.

Lemma filterPrivate_translate fuel this obj st :
  filterPrivate fuel this obj st
  = translate (B_lookup privateInstancesMap privateClassesMap this)
              (TfilterPrivate this) fuel obj st.
Proof.
  revert obj st. induction fuel as [|n IH]; intros obj st; [done|].
  simpl. unfold B_lookup, bind, _privateMap_get, gets, field.
  destruct (_ ≫= _) as [reg|]; [|done]. simpl.
  destruct (has (privateInstancesMap reg) obj); [done|].
  destruct (_ ≫= _) as [reg'|]; [|done]. simpl.
  destruct (has (privateClassesMap reg') obj); [done|]. simpl.
  destruct (isArray st obj); [|done]. by apply Array_map_ext.
Qed.

Lemma translated_mono n cp h D D' h1 h2 v v' :
  D' ⊆ D →
  (∀ l k, l ∉ D → heap_kind h1 l = Some k → heap_kind h2 l = Some k) →
  translated n cp h D h1 v v' → translated n cp h D' h2 v v'.
Proof.
  intros HD Hk. revert v v'. induction n as [|n IH]; intros v v'; simpl.
  - destruct (cp v); [done|]. destruct v as [| | | | | |l]; done.
  - destruct (cp v); [done|]. destruct v as [| | | | | |l]; try done.
    destruct (heap_kind h l) as [[]|]; try done.
    intros (l' & es' & -> & Hl' & Hkind & Hall).
    exists l', es'. split_and!; [done|set_solver|by apply Hk|].
    eapply Forall2_impl; [exact Hall|]. intros [x|] [x'|]; try done. apply IH.
Qed.

Lemma translate_unfold lookup T n obj :
  translate lookup T (S n) obj
  = (let* found := lookup obj in
     match found with
     | Some v => ret v
     | None => λ st,
         if isArray st obj
         then Array_map (translate lookup T n) obj st
         else if String.eqb (typeof st obj) "promise"
         then new_Promise obj T st
         else ret obj st
     end).
Proof. reflexivity. Qed.

#[local] Arguments translate : simpl never.

Section Engine.
Context (lookup : Value → M (option Value)) (T : Translator).
Context (cp : Value → option Value) (Q : State → Prop).
Hypothesis lookup_cp : ∀ st v, Q st → lookup v st = Some (Ok (cp v), st).
Hypothesis Q_registry : ∀ st st', same_registry st st' → Q st → Q st'.

Lemma Q_extends st st' : extends st st' → Q st → Q st'.
Proof. intros [Hreg _]. by apply Q_registry. Qed.

(** The elements of an array, one after the other. *)
Lemma map_elems_spec n h es :
  (∀ st v, Q st → h ⊆ heap st → finite n h v →
     ∃ v' st', translate lookup T (S n) v st = Some (Ok v', st')
       ∧ extends st st'
       ∧ translated n cp h (dom (heap st)) (heap st') v v') →
  Forall (λ e, from_option (finite n h) True e) es →
  ∀ st, Q st → h ⊆ heap st →
    ∃ es' st', map_elems (translate lookup T (S n)) es st = Some (Ok es', st')
      ∧ extends st st'
      ∧ Forall2 (same_shape (translated n cp h (dom (heap st)) (heap st'))) es es'.
Proof.
  intros IH. induction 1 as [|e es He _ IHes]; intros st HQ Hh.
  { exists [], st. split_and!; [done|apply extends_refl|constructor]. }
  destruct e as [v|]; simpl in He.
  - destruct (IH st v HQ Hh He) as (v' & st1 & Hv & Hext1 & Htr).
    destruct (IHes st1) as (es' & st2 & Hes & Hext2 & Hall);
      [by eapply Q_extends|by etrans; [|apply Hext1]|].
    exists (Some v' :: es'), st2. split_and!.
    + cbn [map_elems]. rewrite (bind_ok _ _ _ _ _ Hv), (bind_ok _ _ _ _ _ Hes).
      done.
    + by eapply extends_trans.
    + constructor.
      * simpl. eapply translated_mono; [done| |exact Htr].
        intros l k _. unfold heap_kind.
        destruct (heap st1 !! l) as [o|] eqn:Ho; [|done].
        by rewrite (extends_lookup _ _ _ _ Hext2 Ho).
      * eapply Forall2_impl; [exact Hall|].
        intros [x|] [x'|]; try done. simpl.
        apply translated_mono; [|done].
        apply subseteq_dom, Hext1.
  - destruct (IHes st HQ Hh) as (es' & st2 & Hes & Hext2 & Hall).
    exists (None :: es'), st2. split_and!; [|done|by constructor].
    cbn [map_elems]. by rewrite (bind_ok _ _ _ _ _ Hes).
Qed.

Lemma translate_S n v st :
  Q st →
  translate lookup T (S n) v st
  = match cp v with
    | Some c => Some (Ok c, st)
    | None =>
        if isArray st v then Array_map (translate lookup T n) v st
        else Some (Ok v, st)
    end.
Proof.
  intros HQ. rewrite translate_unfold, (bind_ok _ _ _ _ _ (lookup_cp st v HQ)).
  destruct (cp v); [done|]. by rewrite typeof_not_promise.
Qed.

Lemma finite_kind n h st l :
  h ⊆ heap st → finite n h (VObj l) →
  ∃ o, h !! l = Some o ∧ heap st !! l = Some o.
Proof.
  intros Hh. destruct n; simpl; unfold heap_kind.
  all: destruct (h !! l) as [o|] eqn:Ho; [|done]; intros _.
  all: exists o; split; [done|]; by eapply lookup_weaken.
Qed.

Lemma translate_spec n h :
  ∀ st v, Q st → h ⊆ heap st → finite n h v →
    ∃ v' st', translate lookup T (S n) v st = Some (Ok v', st')
      ∧ extends st st'
      ∧ translated n cp h (dom (heap st)) (heap st') v v'.
Proof.
  induction n as [|n IH]; intros st v HQ Hh Hfin.
  - (* no array *)
    rewrite translate_S by done. cbn [translated].
    destruct (cp v) as [c|]; [by exists c, st; split_and!; [|apply extends_refl|]|].
    destruct v as [| | | | | |l];
      try (eexists _, st; split_and!; [done|apply extends_refl|done]).
    destruct (finite_kind _ _ _ _ Hh Hfin) as (o & Ho & Ho').
    simpl in Hfin. unfold isArray, kind_of, heap_kind in *.
    rewrite Ho in *. rewrite Ho'. simpl in *.
    destruct (o_kind o); try done;
      eexists _, st; (split_and!; [done|apply extends_refl|done]).
  - rewrite translate_S by done. cbn [translated].
    destruct (cp v) as [c|]; [by exists c, st; split_and!; [|apply extends_refl|]|].
    destruct v as [| | | | | |l];
      try (eexists _, st; split_and!; [done|apply extends_refl|done]).
    destruct (finite_kind _ _ _ _ Hh Hfin) as (o & Ho & Ho').
    simpl in Hfin. unfold isArray, kind_of, heap_kind in *.
    rewrite Ho in *. rewrite Ho'. simpl in *.
    destruct (o_kind o) as [|es| |] eqn:Hk;
      try (eexists _, st; split_and!; [done|apply extends_refl|done]).
    (* an array *)
    unfold Array_map.
    assert (elems_of (VObj l) st = Some (Ok es, st)) as Hes.
    { unfold elems_of, array_elems, kind_of. rewrite Ho'. simpl. by rewrite Hk. }
    rewrite (bind_ok _ _ _ _ _ Hes).
    unfold bind at 1, new_array at 1. rewrite alloc_eq.
    set (A := fresh (dom (heap st))).
    set (st1 := set_heap _ st).
    assert (heap st !! A = None) as HA by apply fresh_heap.
    assert (extends st st1) as Hext1 by (by apply extends_insert).
    destruct (map_elems_spec n h es IH Hfin st1) as (es' & st2 & Hmap & Hext2 & Hall);
      [by eapply Q_extends|by etrans; [|apply Hext1]|].
    rewrite (bind_ok _ _ _ _ _ Hmap).
    unfold bind, update_obj, modify, ret.
    eexists _, _. split; [done|].
    assert (heap st1 !! A = Some (mkObj (Some ArrayPrototype) true []
                                    (KArray (replicate (length es) None)))) as HA1
      by apply lookup_insert_eq.
    pose proof (extends_lookup _ _ _ _ Hext2 HA1) as HA2.
    split.
    + apply extends_alter; [by eapply extends_trans|done].
    + exists A, es'. split_and!; [done|by apply not_elem_of_dom| |].
      * simpl. by rewrite lookup_alter_eq, HA2.
      * eapply Forall2_impl; [exact Hall|].
        intros [x|] [x'|]; try done. simpl.
        apply translated_mono; [apply subseteq_dom, Hext1|].
        intros l0 k Hl0. unfold heap_kind. simpl. rewrite lookup_alter_ne; [done|].
        intros <-. apply Hl0. subst st1. simpl. rewrite dom_insert. set_solver.
Qed.
End Engine.

(** Each translator is the engine with the lookup of its scope. *)
Lemma run_translator_engine T sc reg :
  translator_scope T = Some sc →
  ∃ lookup Q,
    (∀ fuel v st, run_translator T fuel v st = translate lookup T fuel v st)
    ∧ (∀ st v, Q st → lookup v st = Some (Ok (counterpart T reg v), st))
    ∧ (∀ st st', same_registry st st' → Q st → Q st')
    ∧ (∀ st, registry sc st = Some reg → Q st).
Proof.
  destruct T as [| |this|this]; simpl.
  - intros [= <-].
    exists (U_lookup publicInstancesMap), (λ st, closure st = reg).
    split_and!.
    + apply filterPublicInstance_translate.
    + intros st v <-. done.
    + intros st st' (-> & _ & _). done.
    + intros st [= <-]. done.
  - intros [= <-].
    exists (U_lookup privateInstancesMap), (λ st, closure st = reg).
    split_and!.
    + apply filterPrivateInstance_translate.
    + intros st v <-. done.
    + intros st st' (-> & _ & _). done.
    + intros st [= <-]. done.
  - destruct this as [| | | | | |b]; try done. intros [= <-].
    exists (B_lookup publicInstancesMap publicClassesMap (VObj b)),
           (λ st, (_privateMap st !! b ≫= λ r, privates st !! r) = Some reg).
    split_and!.
    + intros. apply filterPublic_translate.
    + intros st v HQ. unfold B_lookup, bind, _privateMap_get, gets, field, lookup_in.
      rewrite HQ. destruct (has (publicInstancesMap reg) v); [done|].
      rewrite HQ. by destruct (has (publicClassesMap reg) v).
    + intros st st' (_ & -> & ->). done.
    + done.
  - destruct this as [| | | | | |b]; try done. intros [= <-].
    exists (B_lookup privateInstancesMap privateClassesMap (VObj b)),
           (λ st, (_privateMap st !! b ≫= λ r, privates st !! r) = Some reg).
    split_and!.
    + intros. apply filterPrivate_translate.
    + intros st v HQ. unfold B_lookup, bind, _privateMap_get, gets, field, lookup_in.
      rewrite HQ. destruct (has (privateInstancesMap reg) v); [done|].
      rewrite HQ. by destruct (has (privateClassesMap reg) v).
    + intros st st' (_ & -> & ->). done.
    + done.
Qed.

(** Every value of finite nesting is translated, as the specification
    says, without a change to an object of the heap or to the registry. *)
Lemma run_translator_spec T sc reg n st v :
  translator_scope T = Some sc →
  registry sc st = Some reg →
  finite n (heap st) v →
  ∃ v' st',
    run_translator T (S n) v st = Some (Ok v', st')
    ∧ extends st st'
    ∧ translated n (counterpart T reg) (heap st) (dom (heap st)) (heap st') v v'.
Proof.
  intros Hsc Hreg Hfin.
  destruct (run_translator_engine T sc reg Hsc) as (lookup & Q & Heq & Hcp & HQ & Hinit).
  rewrite Heq. eapply translate_spec; eauto.
Qed.

(** C8: a translator of either module, in either direction, given an
    array that has no counterpart of its own in the registry of the scope
    (arrays nested at most [n] deep in it), returns a new array; the array
    has the length of the given one and holds, index by index, a hole for
    a hole and the translation of the element for an element; no object of
    the heap, the given array included, is changed. *)
Theorem C8_arrays_translated_elementwise T sc reg n st l es :
  translator_scope T = Some sc →
  registry sc st = Some reg →
  array_elems st l = Some es →
  counterpart T reg (VObj l) = None →
  finite (S n) (heap st) (VObj l) →
  ∃ l' es' st',
    run_translator T (S (S n)) (VObj l) st = Some (Ok (VObj l'), st')
    ∧ heap st !! l' = None
    ∧ array_elems st' l' = Some es'
    ∧ length es' = length es
    ∧ Forall2 (same_shape (translated n (counterpart T reg) (heap st)
                                      (dom (heap st)) (heap st'))) es es'
    ∧ extends st st'.
Proof.
  intros Hsc Hreg Hes Hcp Hfin.
  destruct (run_translator_spec T sc reg (S n) st (VObj l) Hsc Hreg Hfin)
    as (v' & st' & Hrun & Hext & Htr).
  cbn [translated] in Htr. rewrite Hcp in Htr.
  unfold array_elems, kind_of in Hes. unfold heap_kind in Htr.
  destruct (o_kind <$> heap st !! l) as [[|es0| |]|]; try done.
  injection Hes as ->.
  destruct Htr as (l' & es' & -> & Hnew & Hkind & Hall).
  exists l', es', st'. split_and!; try done.
  - by apply not_elem_of_dom.
  - unfold array_elems, kind_of. by rewrite Hkind.
  - symmetry. by eapply Forall2_length.
Qed.

(** ** The members the loops install *)

Lemma for_of_establish {A} (Inv Q : State → Prop) (err : Exn → State → Prop)
    (body : A → M unit) (key : A) (l : list A) :
  (∀ x st, Inv st →
     sat (body x st) (λ _ st', Inv st' ∧ (x = key ∨ Q st → Q st')) err) →
  ∀ st, Inv st → key ∈ l ∨ Q st →
    sat (for_of l body st) (λ _ st', Inv st' ∧ Q st') err.
Proof.
  intros Hbody. induction l as [|x l IH]; intros st Hst Hkey; simpl.
  { destruct Hkey as [Hk|HQ]; [by apply elem_of_nil in Hk|done]. }
  apply sat_bind. eapply sat_mono; [| |by apply Hbody]; simpl; [|done].
  intros _ st1 [Hst1 HQ1]. apply IH; [done|].
  destruct Hkey as [[->|Hin]%elem_of_cons|HQ]; auto.
Qed.

Lemma sat_and {A} (r : option (Outcome A * State)) ok1 ok2 err :
  sat r ok1 err → sat r ok2 err → sat r (λ x st, ok1 x st ∧ ok2 x st) err.
Proof. by destruct r as [[[x|e] st1]|]. Qed.

Lemma typeof_callable st v :
  is_callable st v = true → String.eqb (typeof st v) "function" = true.
Proof. destruct v; simpl; try done. by intros ->. Qed.

Lemma defineProperty_code O k d st st' l c :
  defineProperty O k d st = Some (Ok tt, st') → code_of st l = Some c →
  code_of st' l = Some c.
Proof.
  intros (l0 & o & -> & Ho & _ & ->)%defineProperty_ok Hc.
  eapply (evolves_code {[l0]}); [|done].
  apply set_props_evolves; [by apply elem_of_singleton|done].
Qed.

(** The round of [key] installs the member. *)
Lemma transfer_installs kind skip source target mk key st S X pp :
  is_skipped skip key = false →
  source st = Some (Ok (VObj S), st) →
  (∀ st1, extends st st1 → target st1 = Some (Ok (VObj X), st1)) →
  is_Some (heap st !! X) →
  own_prop st S key = Some pp →
  member_of_kind kind st pp →
  (∀ cur, own_prop st X key = Some cur → p_set cur = VUndef) →
  sat (transfer skip source target mk key st)
      (λ _ st', ∃ g, installed kind mk pp X key g st')
      (λ e _, e = TypeError).
Proof.
  intros Hskip Hsrc Htgt [oX HX] Hown Hkind HJ.
  rewrite (transfer_exposed _ _ _ _ _ _ S), Hown by done.
  destruct kind, pp as [v w e c|]; try done; simpl in Hkind.
  - (* a plain value *)
    destruct w; [done|].
    destruct (synthesize_plain mk v false e c st (non_function_typeof _ _ Hkind))
      as (f & st1 & Hd & Hext & _ & Hcode).
    rewrite (bind_ok _ _ _ _ _ Hd), (bind_ok _ _ _ _ _ (Htgt st1 Hext)).
    eapply sat_mono; [| |apply defineProperty_sat]; simpl; [|done].
    intros [] st' Hdef. exists f. split; [|by eapply defineProperty_code].
    pose proof (extends_lookup _ _ _ _ Hext HX) as HX1.
    rewrite (defineProperty_own_prop_eq _ _ _ _ _ _ Hdef HX1).
    unfold define_result. specialize (HJ) as HJ'. unfold own_prop in HJ'.
    rewrite HX in HJ'. simpl in HJ'.
    destruct (assoc key (o_props oX)) as [[v0 w0 e0 c0|g0 s0 e0 c0]|]; simpl.
    + by eexists _, _.
    + specialize (HJ' _ eq_refl). simpl in HJ'. subst s0. by eexists _, _.
    + by eexists _, _.
  - (* a method *)
    destruct (synthesize_method mk v w e c st (typeof_callable _ _ Hkind))
      as (f & st1 & Hd & Hext & _ & Hcode).
    rewrite (bind_ok _ _ _ _ _ Hd), (bind_ok _ _ _ _ _ (Htgt st1 Hext)).
    eapply sat_mono; [| |apply defineProperty_sat]; simpl; [|done].
    intros [] st' Hdef. exists f. split; [|by eapply defineProperty_code].
    pose proof (extends_lookup _ _ _ _ Hext HX) as HX1.
    rewrite (defineProperty_own_prop_eq _ _ _ _ _ _ Hdef HX1).
    unfold define_result.
    destruct (assoc key (o_props oX)) as [[v0 w0 e0 c0|g0 s0 e0 c0]|]; simpl.
    + by eexists _, _, _.
    + unfold property_of_desc, desc_is_accessor. simpl. by eexists _, _, _.
    + unfold property_of_desc, desc_is_accessor. simpl. by eexists _, _, _.
Qed.

Lemma installed_stable kind mk pp X key g W st st' :
  evolves W st st' → own_prop st' X key = own_prop st X key →
  installed kind mk pp X key g st → installed kind mk pp X key g st'.
Proof.
  intros Hev Hown. destruct kind; simpl; rewrite Hown; intros [? Hc];
    (split; [done|by eapply evolves_code]).
Qed.

Lemma installed_no_setter kind mk pp X key g st :
  installed kind mk pp X key g st →
  ∀ cur, own_prop st X key = Some cur → p_set cur = VUndef.
Proof.
  destruct kind; simpl.
  - intros [(e & c & ->) _] cur [= <-]. done.
  - intros [(w & e & c & ->) _] cur [= <-]. done.
Qed.

Lemma member_of_kind_evolves kind W st st' pp :
  evolves W st st' → member_of_kind kind st pp → member_of_kind kind st' pp.
Proof.
  intros Hev. destruct kind, pp as [v w e c|]; simpl; try done.
  - destruct w; [done|]. by apply (non_function_evolves W).
  - destruct v; simpl; try done. rewrite !bool_decide_eq_true.
    intros [x Hx]. exists x. by eapply evolves_code.
Qed.

Section Members.
Context {B : Type} (I : Interp) (ctor : Code) (getter : loc → Code).
Context (statics protos : Makers) (T : loc) (rest : loc → M B).
Context (st0 : State) (oT : Obj).
Hypothesis T_old : heap st0 !! T = Some oT.

#[local] Abbreviation static_round P :=
  (transfer "prototype" (ret (VObj T)) (ret (VObj P)) statics).
#[local] Abbreviation proto_round P :=
  (transfer "constructor" (Get I (VObj T) (KStr "prototype"))
            (Get I (VObj P) (KStr "prototype")) protos).

(** The loop over the class installs the static member [name]. *)
Lemma static_loop_installs kind P Pp keys st name pp :
  building st0 ctor getter P Pp st →
  exposed_static name = true →
  own_prop st0 T (KStr name) = Some pp →
  member_of_kind kind st0 pp →
  KStr name ∈ keys →
  (∀ cur, own_prop st P (KStr name) = Some cur → p_set cur = VUndef) →
  sat (for_of keys (static_round P) st)
      (λ _ st', building st0 ctor getter P Pp st'
                ∧ ∃ g, installed kind statics pp P (KStr name) g st')
      (λ e _, e = TypeError).
Proof.
  intros Hb Hex Hown Hkind Hin HJ.
  eapply sat_mono;
    [| |apply (for_of_establish
                 (λ st, building st0 ctor getter P Pp st
                        ∧ ∀ cur, own_prop st P (KStr name) = Some cur
                                 → p_set cur = VUndef)
                 (λ st, ∃ g, installed kind statics pp P (KStr name) g st)
                 (λ e _, e = TypeError) _ (KStr name))]; simpl.
  - intros _ st' [[? ?] ?]. done.
  - done.
  - clear st Hb HJ. intros x st [Hb HJ].
    pose proof (code_in_heap _ _ _ (bd_code _ _ _ _ _ _ Hb)) as HP.
    pose proof (building_static_round st0 ctor getter T P Pp oT T_old
                  statics x st Hb) as H1.
    pose proof (transfer_sat "prototype" (ret (VObj T)) (ret (VObj P)) statics
                  x st T P (λ _, eq_refl) (λ _ _, eq_refl) HP) as H2.
    destruct (decide (x = KStr name)) as [->|Hne].
    + assert (sat (static_round P (KStr name) st)
                (λ _ st', ∃ g, installed kind statics pp P (KStr name) g st')
                (λ e _, e = TypeError)) as H3.
      { eapply (transfer_installs kind _ _ _ _ _ _ T P pp);
          [by apply exposed_static_skipped|done|done|done| | |done].
        - unfold own_prop in *.
          by rewrite (building_T _ _ _ _ _ _ _ T_old _ Hb), <- T_old.
        - eapply member_of_kind_evolves; [eapply bd_evolves, Hb|done]. }
      eapply sat_mono; [| |exact (sat_and _ _ _ _ H1 H3)]; simpl; [|done].
      intros _ st' [Hb' [g Hg]]. split_and!; [done| |by eauto].
      by eapply installed_no_setter.
    + eapply sat_mono; [| |exact (sat_and _ _ _ _ H1 H2)]; simpl; [|done].
      intros _ st' [Hb' (Hev & Hother & _)].
      assert (own_prop st' P (KStr name) = own_prop st P (KStr name)) as E
        by (apply Hother; congruence).
      split_and!; [done|by rewrite E|].
      intros [?|[g Hg]]; [done|]. exists g. by eapply installed_stable.
  - done.
  - by left.
Qed.

(** The loop over the prototype leaves what is installed on the class. *)
Lemma proto_loop_keeps kind P Pp keys st Tp w e c key pp g :
  own_prop st0 T (KStr "prototype") = Some (PData (VObj Tp) w e c) →
  building st0 ctor getter P Pp st →
  installed kind statics pp P key g st →
  sat (for_of keys (proto_round P) st)
      (λ _ st', building st0 ctor getter P Pp st'
                ∧ installed kind statics pp P key g st')
      (λ e _, e = TypeError).
Proof.
  intros HT Hb Hg.
  apply (for_of_sat (λ st, building st0 ctor getter P Pp st
                           ∧ installed kind statics pp P key g st)); [|done].
  clear st Hb Hg. intros x st _ [Hb Hg].
  pose proof (building_proto_round I st0 ctor getter T P Pp oT T_old
                protos x st Tp w e c HT Hb) as H1.
  assert (sat (proto_round P x st)
            (λ _ st', evolves {[Pp]} st st'
                      ∧ (∀ k, k ≠ x → own_prop st' Pp k = own_prop st Pp k)
                      ∧ (is_skipped "constructor" x = true → st' = st))
            (λ e _, e = TypeError)) as H2.
  { apply (transfer_sat _ _ _ _ _ _ Tp Pp).
    - intros _. eapply Get_own_data. unfold own_prop in *.
      rewrite (building_T _ _ _ _ _ _ _ T_old _ Hb). by rewrite T_old in HT.
    - intros st1 Hext. eapply Get_own_data.
      pose proof (bd_prototype _ _ _ _ _ _ Hb) as Hp. unfold own_prop in *.
      destruct (heap st !! P) as [oP|] eqn:HP; [|done].
      by rewrite (extends_lookup _ _ _ _ Hext HP).
    - eapply proto_in_heap, bd_Pp_link, Hb. }
  eapply sat_mono; [| |exact (sat_and _ _ _ _ H1 H2)]; simpl; [|done].
  intros _ st' [Hb' (Hev & _ & _)]. split; [done|].
  eapply installed_stable; [done| |done].
  apply (evolves_own_prop {[Pp]}); [done| |by eapply code_in_heap, bd_code].
  pose proof (bd_distinct _ _ _ _ _ _ Hb). set_solver.
Qed.

(** The loop over the class leaves the prototype of the façade alone. *)
Lemma static_loop_keeps_proto P Pp keys st :
  building st0 ctor getter P Pp st →
  sat (for_of keys (static_round P) st)
      (λ _ st', building st0 ctor getter P Pp st'
                ∧ ∀ k, own_prop st' Pp k = own_prop st Pp k)
      (λ e _, e = TypeError).
Proof.
  intros Hb.
  apply (for_of_sat (λ st', building st0 ctor getter P Pp st'
                            ∧ ∀ k, own_prop st' Pp k = own_prop st Pp k));
    [|done].
  intros x st1 _ [Hb1 Hsame].
  pose proof (code_in_heap _ _ _ (bd_code _ _ _ _ _ _ Hb1)) as HP.
  pose proof (building_static_round st0 ctor getter T P Pp oT T_old
                statics x st1 Hb1) as H1.
  pose proof (transfer_sat "prototype" (ret (VObj T)) (ret (VObj P)) statics
                x st1 T P (λ _, eq_refl) (λ _ _, eq_refl) HP) as H2.
  eapply sat_mono; [| |exact (sat_and _ _ _ _ H1 H2)]; simpl; [|done].
  intros _ st' [Hb' (Hev & _ & _)]. split; [done|]. intros k.
  rewrite <- Hsame.
  apply (evolves_own_prop {[P]}); [done| |by eapply proto_in_heap, bd_Pp_link].
  pose proof (bd_distinct _ _ _ _ _ _ Hb). set_solver.
Qed.

(** The loop over the prototype installs the instance member [name]. *)
Lemma proto_loop_installs kind P Pp st Tp w e c name pp :
  own_prop st0 T (KStr "prototype") = Some (PData (VObj Tp) w e c) →
  building st0 ctor getter P Pp st →
  exposed_proto name = true →
  own_prop st0 Tp (KStr name) = Some pp →
  member_of_kind kind st0 pp →
  (∀ cur, own_prop st Pp (KStr name) = Some cur → p_set cur = VUndef) →
  sat (for_of (ownKeys st Tp) (proto_round P) st)
      (λ _ st', building st0 ctor getter P Pp st'
                ∧ ∃ g, installed kind protos pp Pp (KStr name) g st')
      (λ e _, e = TypeError).
Proof.
  intros HT Hb Hex Hown Hkind HJ.
  assert (∃ oTp, heap st0 !! Tp = Some oTp) as [oTp HoTp].
  { unfold own_prop in Hown. destruct (heap st0 !! Tp); [eauto|done]. }
  assert (∀ st, building st0 ctor getter P Pp st → heap st !! Tp = Some oTp)
    as HTpst by (intros st1 Hst1; by eapply building_T).
  eapply sat_mono;
    [| |apply (for_of_establish
                 (λ st, building st0 ctor getter P Pp st
                        ∧ ∀ cur, own_prop st Pp (KStr name) = Some cur
                                 → p_set cur = VUndef)
                 (λ st, ∃ g, installed kind protos pp Pp (KStr name) g st)
                 (λ e _, e = TypeError) _ (KStr name))]; simpl.
  - intros _ st' [[? ?] ?]. done.
  - done.
  - clear st Hb HJ. intros x st [Hb HJ].
    pose proof (building_proto_round I st0 ctor getter T P Pp oT T_old
                  protos x st Tp w e c HT Hb) as H1.
    assert (Get I (VObj T) (KStr "prototype") st = Some (Ok (VObj Tp), st)) as Hsrc.
    { eapply Get_own_data. unfold own_prop in *.
      rewrite (building_T _ _ _ _ _ _ _ T_old _ Hb). by rewrite T_old in HT. }
    assert (∀ st1, extends st st1 →
              Get I (VObj P) (KStr "prototype") st1 = Some (Ok (VObj Pp), st1))
      as Htgt.
    { intros st1 Hext. eapply Get_own_data.
      pose proof (bd_prototype _ _ _ _ _ _ Hb) as Hp. unfold own_prop in *.
      destruct (heap st !! P) as [oP|] eqn:HP; [|done].
      by rewrite (extends_lookup _ _ _ _ Hext HP). }
    pose proof (proto_in_heap _ _ _ (bd_Pp_link _ _ _ _ _ _ Hb)) as HPp.
    pose proof (transfer_sat "constructor" _ _ protos x st Tp Pp
                  (λ _, Hsrc) Htgt HPp) as H2.
    destruct (decide (x = KStr name)) as [->|Hne].
    + assert (sat (proto_round P (KStr name) st)
                (λ _ st', ∃ g, installed kind protos pp Pp (KStr name) g st')
                (λ e _, e = TypeError)) as H3.
      { eapply (transfer_installs kind _ _ _ _ _ _ Tp Pp pp);
          [by apply exposed_proto_skipped|done|done|done| | |done].
        - unfold own_prop in *. by rewrite (HTpst _ Hb), <- HoTp.
        - eapply member_of_kind_evolves; [eapply bd_evolves, Hb|done]. }
      eapply sat_mono; [| |exact (sat_and _ _ _ _ H1 H3)]; simpl; [|done].
      intros _ st' [Hb' [g Hg]]. split_and!; [done| |by eauto].
      by eapply installed_no_setter.
    + eapply sat_mono; [| |exact (sat_and _ _ _ _ H1 H2)]; simpl; [|done].
      intros _ st' [Hb' (Hev & Hother & _)].
      assert (own_prop st' Pp (KStr name) = own_prop st Pp (KStr name)) as E
        by (apply Hother; congruence).
      split_and!; [done|by rewrite E|].
      intros [?|[g Hg]]; [done|]. exists g. by eapply installed_stable.
  - done.
  - left. unfold ownKeys. rewrite (HTpst _ Hb).
    unfold own_prop in Hown. rewrite HoTp in Hown. by eapply assoc_elem_of.
Qed.
End Members.

Lemma data_props_no_setter (ps : list (PropKey * Property)) k cur :
  Forall (λ kp, is_accessor kp.2 = false) ps →
  assoc k ps = Some cur → p_set cur = VUndef.
Proof.
  induction 1 as [|[k' p'] ps Hp _ IH]; simpl; [done|].
  destruct (decide (k = k')); [|done]. intros [= <-]. simpl in Hp.
  by destruct p'.
Qed.

Section Installs.
Context {B : Type} (I : Interp) (ctor : Code) (getter : loc → Code).
Context (statics protos : Makers) (T : loc) (rest : loc → M B).
Context (st0 : State).

(** A construction that ends has installed every member of the two
    kinds. *)
Lemma build_with_installs kind lv S name pp
    (ok : B → State → Prop) (err : Exn → State → Prop) :
  is_class st0 T = true →
  members_object st0 T lv = Some S →
  exposed lv name = true →
  own_prop st0 S (KStr name) = Some pp →
  member_of_kind kind st0 pp →
  (∀ P Pp st X g,
     building st0 ctor getter P Pp st →
     members_object st P lv = Some X →
     installed kind (level_makers statics protos lv) pp X (KStr name) g st →
     sat (rest P st) ok err) →
  (∀ st, err TypeError st) →
  sat (build_with I ctor getter statics protos T rest st0) ok err.
Proof.
  intros Hcl HS Hex Hown Hkind Hrest Herr.
  destruct (is_class_inv _ _ Hcl) as (oT & v & w & e & c & HT & Hp & _ & _).
  destruct (build_with_start I ctor getter statics protos T rest st0 oT HT)
    as (P & Pp & g0 & st1 & Hb & HP & HPp & _ & ->).
  assert (∀ k cur, own_prop st1 P k = Some cur → p_set cur = VUndef) as HJP.
  { intros k cur. unfold own_prop. rewrite HP.
    change (assoc k (o_props (PublicClass_object ctor Pp g0)) = Some cur
            → p_set cur = VUndef).
    apply data_props_no_setter. by repeat constructor. }
  assert (∀ k cur, own_prop st1 Pp k = Some cur → p_set cur = VUndef) as HJPp.
  { intros k cur. unfold own_prop. rewrite HPp.
    change (assoc k (o_props (PublicClass_prototype_object P)) = Some cur
            → p_set cur = VUndef).
    apply data_props_no_setter. by repeat constructor. }
  apply sat_bind. destruct lv; simpl in HS, Hex.
  - (* a member of the class *)
    injection HS as <-.
    eapply sat_mono;
      [| |eapply (static_loop_installs ctor getter statics T st0 oT HT kind
                   P Pp _ st1 name pp)]; simpl;
      [|by intros ? ? ->|done..| |by apply HJP].
    2:{ unfold own_prop in Hown. rewrite HT in Hown. by eapply assoc_elem_of. }
    intros _ st2 [Hb2 [g Hg]].
    rewrite (build_tail_eq I ctor getter protos T rest st0 oT HT P Pp st2
               _ _ _ _ Hp Hb2).
    destruct v as [| | | | | |Tp]; try apply Herr.
    apply sat_bind.
    eapply sat_mono;
      [| |eapply (proto_loop_keeps I ctor getter statics protos T st0 oT HT kind)];
      simpl; [|by intros ? ? ->|done..].
    intros _ st3 [Hb3 Hg3]. by eapply Hrest.
  - (* a member of the prototype *)
    unfold members_object in HS. rewrite Hp in HS.
    destruct v as [| | | | | |Tp]; try done. injection HS as ->.
    eapply sat_mono;
      [| |eapply (static_loop_keeps_proto ctor getter statics T st0 oT HT
                   P Pp _ st1 Hb)]; simpl; [|by intros ? ? ->].
    intros _ st2 [Hb2 Hsame].
    rewrite (build_tail_eq I ctor getter protos T rest st0 oT HT P Pp st2
               _ _ _ _ Hp Hb2).
    apply sat_bind.
    eapply sat_mono;
      [| |eapply (proto_loop_installs I ctor getter protos T st0 oT HT kind
                   P Pp st2 S w e c name pp)]; simpl;
      [|by intros ? ? ->|done..|].
    2:{ intros cur. rewrite Hsame. apply HJPp. }
    intros _ st3 [Hb3 [g Hg3]]. eapply Hrest; [done| |done].
    unfold members_object. by rewrite (bd_prototype _ _ _ _ _ _ Hb3).
Qed.
End Installs.

Lemma installed_heap kind mk pp X key g st st' :
  heap st' = heap st →
  installed kind mk pp X key g st → installed kind mk pp X key g st'.
Proof.
  intros Hh. unfold installed, own_prop, code_of, kind_of. by rewrite Hh.
Qed.

Lemma members_object_heap st st' C lv :
  heap st' = heap st → members_object st' C lv = members_object st C lv.
Proof. intros Hh. unfold members_object, own_prop. by rewrite Hh. Qed.

(** In [Utility.js]: the façade [getPublicClass] builds has, for every
    exposed plain value and every exposed method of the class and of its
    prototype, the member of that kind under the same name. *)
Lemma U_getPublicClass_installs kind lv I st T S name pp P st' :
  is_class st T = true →
  privateClassesMap (closure st) !! T = None →
  members_object st T lv = Some S →
  exposed lv name = true →
  own_prop st S (KStr name) = Some pp →
  member_of_kind kind st pp →
  Utility.getPublicClass I (VObj T) st = Some (Ok (VObj P), st') →
  ∃ X g,
    members_object st' P lv = Some X
    ∧ installed kind (level_makers (U_static T) U_proto lv) pp X (KStr name) g st'.
Proof.
  intros Hcl Hnew HS Hex Hown Hkind Hc.
  assert (sat (Utility.getPublicClass I (VObj T) st)
            (λ r st', ∃ P X g, r = VObj P ∧ members_object st' P lv = Some X
               ∧ installed kind (level_makers (U_static T) U_proto lv) pp X
                           (KStr name) g st')
            (λ e _, e = TypeError)) as Hs.
  { unfold Utility.getPublicClass.
    rewrite (bind_ok _ _ _ _ _ (U_rejects_class I _ _ Hcl)).
    unfold bind at 1, gets at 1. simpl.
    rewrite bool_decide_eq_false_2 by (rewrite Hnew; by intros [? ?]).
    rewrite U_build_eq. eapply build_with_installs; [done..| |done].
    intros P0 Pp st1 X g Hb HX Hg. unfold closure_update, modify, bind, ret. simpl.
    exists P0, X, g. split_and!; [done| |].
    - by rewrite (members_object_heap st1).
    - by apply (installed_heap _ _ _ _ _ _ st1). }
  rewrite Hc in Hs. destruct Hs as (P0 & X & g & [= <-] & HX & Hg). eauto.
Qed.

(** ** Plain values and methods of a façade of [Utility.js] *)

(** The translators leave the registry alone. *)
Lemma map_elems_registry (f : Value → M Value) es :
  (∀ v st r st', f v st = Some (r, st') → same_registry st st') →
  ∀ st r st', map_elems f es st = Some (r, st') → same_registry st st'.
Proof.
  intros Hf. induction es as [|[v|] es IH]; intros st r st'; simpl.
  - by intros [= <- <-].
  - unfold bind. destruct (f v st) as [[[v'|e] st1]|] eqn:Hv; [| |done].
    + pose proof (Hf _ _ _ _ Hv) as (? & ? & ?).
      destruct (map_elems f es st1) as [[[es'|e] st2]|] eqn:Hes; [| |done].
      * pose proof (IH _ _ _ Hes) as (? & ? & ?).
        intros [= <- <-]. split_and!; congruence.
      * pose proof (IH _ _ _ Hes) as (? & ? & ?).
        intros [= <- <-]. split_and!; congruence.
    + intros [= <- <-]. by eapply Hf.
  - unfold bind. destruct (map_elems f es st) as [[[es'|e] st2]|] eqn:Hes; [| |done].
    + intros [= <- <-]. by eapply IH.
    + intros [= <- <-]. by eapply IH.
Qed.

Lemma translate_registry lookup T n :
  (∀ v st r st', lookup v st = Some (r, st') → st' = st) →
  ∀ v st r st', translate lookup T n v st = Some (r, st') → same_registry st st'.
Proof.
  intros Hl. induction n as [|n IH]; intros v st r st'; [done|].
  rewrite translate_unfold. unfold bind at 1.
  destruct (lookup v st) as [[[[c|]|e] st1]|] eqn:Hlk; [| | |done].
  - rewrite (Hl _ _ _ _ Hlk). by intros [= <- <-].
  - rewrite (Hl _ _ _ _ Hlk). rewrite typeof_not_promise.
    destruct (isArray st v); [|by intros [= <- <-]].
    unfold Array_map, bind, elems_of, new_array, update_obj, modify, ret.
    destruct v as [| | | | | |l]; try by intros [= <- <-].
    destruct (array_elems st l) as [es|]; [|by intros [= <- <-]].
    rewrite alloc_eq.
    destruct (map_elems _ es _) as [[[es'|e] st2]|] eqn:Hes; [| |done].
    + pose proof (map_elems_registry _ _ IH _ _ _ Hes) as (? & ? & ?).
      intros [= <- <-]. by split_and!.
    + pose proof (map_elems_registry _ _ IH _ _ _ Hes) as (? & ? & ?).
      intros [= <- <-]. by split_and!.
  - rewrite (Hl _ _ _ _ Hlk). by intros [= <- <-].
Qed.

Lemma filterPublicInstance_registry n v st r st' :
  filterPublicInstance n v st = Some (r, st') → same_registry st st'.
Proof.
  rewrite filterPublicInstance_translate. apply translate_registry.
  unfold U_lookup, gets. by intros ? ? ? ? [= <- <-].
Qed.

Lemma rest_array_eq args st :
  rest_array args st
  = Some (Ok (VObj (fresh (dom (heap st)))),
          set_heap (<[fresh (dom (heap st)) :=
                        mkObj (Some ArrayPrototype) true [] (KArray (Some <$> args))]>
                      (heap st)) st).
Proof. done. Qed.

(** C5, amended, for [Utility.js]: for an exposed member of the class or of
    its prototype that holds a plain value [v] and is not writable, the
    façade [compile] builds exposes an accessor without setter; at each
    access (with a bound receiver, for a member of the prototype) its
    getter returns the translation, in the registry of that moment, of
    the value [v] the member held when [compile] ran. *)
Theorem C5_plain_value_read_only_snapshot host I lv st T S name v e c P st' :
  is_class st T = true →
  privateClassesMap (closure st) !! T = None →
  members_object st T lv = Some S →
  exposed lv name = true →
  own_prop st S (KStr name) = Some (PData v false e c) →
  non_function st v = true →
  compile I ProcessWide (VObj T) st = Some (Ok (VObj P), st') →
  ∃ X g e' c',
    members_object st' P lv = Some X
    ∧ own_prop st' X (KStr name) = Some (PAccessor (VObj g) VUndef e' c')
    ∧ ∀ I' st2 this args,
        code_of st2 g = code_of st' g →
        (lv = InstanceLevel → has (publicInstancesMap (closure st2)) this = true) →
        call_step host I' g this args st2 = filterPrivateInstance (depth I') v st2.
Proof.
  intros Hcl Hnew HS Hex Hown Hnf Hc.
  destruct (U_getPublicClass_installs PlainValue lv I st T S name _ P st'
              Hcl Hnew HS Hex Hown Hnf Hc) as (X & g & HX & [(e' & c' & Hp) Hcode]).
  exists X, g, e', c'. split_and!; [done..|].
  intros I' st2 this args Hc2 Hbound. unfold call_step. rewrite Hc2, Hcode.
  destruct lv; simpl; [done|].
  unfold Utility.proto_value, bind, gets. by rewrite Hbound.
Qed.

(** C7, amended, for [Utility.js]: for an exposed method [m] of the class
    or of its prototype, the façade [compile] builds has a method under
    the same name that translates the array of its arguments to the
    private side, calls [m] with the translated arguments and with the
    implementation class as receiver (for a member of the class) or with
    the implementation instance bound to its own receiver (for a member of
    the prototype), and translates the result to the public side. *)
Theorem C7_methods_call_the_implementation host I lv st T S name m w e c P st' :
  is_class st T = true →
  privateClassesMap (closure st) !! T = None →
  members_object st T lv = Some S →
  exposed lv name = true →
  own_prop st S (KStr name) = Some (PData (VObj m) w e c) →
  is_callable st (VObj m) = true →
  compile I ProcessWide (VObj T) st = Some (Ok (VObj P), st') →
  ∃ X g w' e' c',
    members_object st' P lv = Some X
    ∧ own_prop st' X (KStr name) = Some (PData (VObj g) w' e' c')
    ∧ ∀ I' st2 this args,
        code_of st2 g = code_of st' g →
        (lv = InstanceLevel → has (publicInstancesMap (closure st2)) this = true) →
        call_step host I' g this args st2
        = forward_call I' m
            (match lv with
             | TypeLevel => VObj T
             | InstanceLevel => get (publicInstancesMap (closure st2)) this
             end) args st2.
Proof.
  intros Hcl Hnew HS Hex Hown Hm Hc.
  destruct (U_getPublicClass_installs Method lv I st T S name _ P st'
              Hcl Hnew HS Hex Hown Hm Hc)
    as (X & g & HX & [(w' & e' & c' & Hp) Hcode]).
  exists X, g, w', e', c'. split_and!; [done..|].
  intros I' st2 this args Hc2 Hbound. unfold call_step. rewrite Hc2, Hcode.
  destruct lv; simpl; [done|].
  unfold Utility.proto_method, forward_call.
  rewrite !(bind_ok _ _ _ _ _ (rest_array_eq args st2)).
  set (st3 := set_heap _ st2).
  unfold bind at 1, gets at 1.
  change (closure st3) with (closure st2). rewrite (Hbound eq_refl). cbn [negb].
  destruct (filterPublicInstance (depth I') (VObj (fresh (dom (heap st2)))) st3)
    as [[[r|err] st4]|] eqn:Hf.
  - rewrite !(bind_ok _ _ _ _ _ Hf).
    apply filterPublicInstance_registry in Hf as (Hcl4 & _ & _).
    unfold bind at 1, gets at 1. by rewrite Hcl4.
  - by rewrite !(bind_throw _ _ _ _ _ Hf).
  - unfold bind. by rewrite Hf.
Qed.

(** ** The wrap form and the lookup accessor *)

Lemma on_chain_unfold n h l P :
  on_chain n h l P
  = match h !! l with
    | None => false
    | Some o =>
        match o_proto o with
        | None => false
        | Some l' =>
            if decide (l' = P) then true
            else match n with S n' => on_chain n' h l' P | O => false end
        end
    end.
Proof. by destruct n. Qed.

Lemma on_chain_mono (h h' : gmap loc Obj) P (n n' : nat) l :
  h ⊆ h' → (n ≤ n')%nat → on_chain n h l P = true → on_chain n' h' l P = true.
Proof.
  intros Hh. revert n' l. induction n as [|n IH]; intros n' l Hle;
    rewrite (on_chain_unfold _ h), (on_chain_unfold _ h');
    destruct (h !! l) as [o|] eqn:Ho; try done;
    rewrite (lookup_weaken _ _ _ _ Ho Hh);
    destruct (o_proto o) as [l'|]; try done;
    destruct (decide (l' = P)); try done.
  destruct n' as [|n']; [lia|]. apply IH. lia.
Qed.

Lemma extends_own_prop st st' l k p :
  extends st st' → own_prop st l k = Some p → own_prop st' l k = Some p.
Proof.
  intros Hext. unfold own_prop.
  destruct (heap st !! l) as [o|] eqn:Ho; [|done].
  by rewrite (extends_lookup _ _ _ _ Hext Ho).
Qed.

Lemma instanceOf_true I st st' x T :
  instance_of st x T = true → extends st st' →
  instanceOf I (VObj x) (VObj T) st' = Some (Ok true, st').
Proof.
  unfold instance_of. intros [Hc Hp]%andb_true_iff Hext.
  destruct (own_prop st T (KStr "prototype")) as [[v w e c|]|] eqn:Hown; try done.
  destruct v as [| | | | | |Tp]; try done.
  unfold instanceOf, bind at 1, gets at 1.
  rewrite (extends_callable _ _ _ Hext Hc). simpl.
  rewrite (bind_ok _ _ _ _ _
             (Get_own_data I _ _ _ _ _ _ _ (extends_own_prop _ _ _ _ _ Hext Hown))).
  unfold gets. do 2 f_equal. f_equal.
  eapply on_chain_mono; [apply Hext| |done].
  apply map_subseteq_size, Hext.
Qed.

Lemma throw_Error_not_ok {A} host I P text st (x : A) st' :
  throw_Error host I P text st ≠ Some (Ok x, st').
Proof.
  unfold throw_Error, bind.
  destruct (Get _ _ _ _) as [[[v|e] st1]|]; [|done..].
  by destruct (ToString _ _ _) as [[[s|e] st2]|].
Qed.

(** [Utility.js], wrap form, instance already bound: the constructor goes
    on to throw the error of line 59, and never returns. *)
Lemma U_wrap_bound host I P T this x st :
  instance_of st x T = true →
  has (privateInstancesMap (closure st)) (VObj x) = true →
  ∃ st1, extends st st1
    ∧ Utility.PublicClass_constructor host I P T this [VObj x] st
      = throw_Error host I P already_bound st1.
Proof.
  intros Hinst Hbound. unfold Utility.PublicClass_constructor.
  rewrite (bind_ok _ _ _ _ _ (rest_array_eq _ st)).
  set (st1 := set_heap _ st).
  assert (extends st st1) as Hext by apply extends_insert, fresh_heap.
  exists st1. split; [done|].
  assert (index (VObj (fresh (dom (heap st)))) 0 st1 = Some (Ok (VObj x), st1)) as Hi.
  { unfold index, gets, array_elems, kind_of. subst st1. simpl.
    by rewrite lookup_insert_eq. }
  rewrite (bind_ok _ _ _ _ _ Hi), (bind_ok _ _ _ _ _ (instanceOf_true I _ _ _ _ Hinst Hext)).
  unfold bind at 1. unfold bind at 1, gets at 1.
  change (closure st1) with (closure st). rewrite Hbound.
  unfold throw_Error, bind.
  destruct (Get _ _ _ _) as [[[v|e] st2]|]; [|done..].
  by destruct (ToString _ _ _) as [[[s|e] st3]|].
Qed.

(** [Utility.js], wrap form, instance not bound yet: the pair is written
    to both instance maps. *)
Lemma U_wrap_new host I P T this x st :
  instance_of st x T = true →
  has (privateInstancesMap (closure st)) (VObj x) = false →
  ∃ st1, extends st st1
    ∧ Utility.PublicClass_constructor host I P T this [VObj x] st
      = Some (Ok tt, set_closure
                       (set_privateInstancesMap x (VObj this)
                          (set_publicInstancesMap this (VObj x) (closure st))) st1).
Proof.
  intros Hinst Hbound. unfold Utility.PublicClass_constructor.
  rewrite (bind_ok _ _ _ _ _ (rest_array_eq _ st)).
  set (st1 := set_heap _ st).
  assert (extends st st1) as Hext by apply extends_insert, fresh_heap.
  exists st1. split; [done|].
  assert (index (VObj (fresh (dom (heap st)))) 0 st1 = Some (Ok (VObj x), st1)) as Hi.
  { unfold index, gets, array_elems, kind_of. subst st1. simpl.
    by rewrite lookup_insert_eq. }
  rewrite (bind_ok _ _ _ _ _ Hi), (bind_ok _ _ _ _ _ (instanceOf_true I _ _ _ _ Hinst Hext)).
  unfold bind at 1. unfold bind at 1, gets at 1.
  change (closure st1) with (closure st). rewrite Hbound. done.
Qed.

(** [PublicClassBuilder.js], wrap form, instance not bound yet: the pair
    is written to both instance maps of the builder. *)
Lemma B_wrap_new host I r reg P T this x st :
  privates st !! r = Some reg →
  instance_of st x T = true →
  has (privateInstancesMap reg) (VObj x) = false →
  ∃ st1, extends st st1
    ∧ PublicClassBuilder.PublicClass_constructor host I (Some r) P T this [VObj x] st
      = Some (Ok tt, mkState (heap st1) (closure st) (_privateMap st)
                       (<[r := set_privateInstancesMap x (VObj this)
                                 (set_publicInstancesMap this (VObj x) reg)]>
                          (privates st))).
Proof.
  intros Hr Hinst Hbound. unfold PublicClassBuilder.PublicClass_constructor.
  rewrite (bind_ok _ _ _ _ _ (rest_array_eq _ st)).
  set (st1 := set_heap _ st).
  assert (extends st st1) as Hext by apply extends_insert, fresh_heap.
  exists st1. split; [done|].
  assert (index (VObj (fresh (dom (heap st)))) 0 st1 = Some (Ok (VObj x), st1)) as Hi.
  { unfold index, gets, array_elems, kind_of. subst st1. simpl.
    by rewrite lookup_insert_eq. }
  rewrite (bind_ok _ _ _ _ _ Hi), (bind_ok _ _ _ _ _ (instanceOf_true I _ _ _ _ Hinst Hext)).
  unfold bind at 1. unfold bind at 1, field at 1. simpl. rewrite Hr. simpl.
  simpl in Hbound. rewrite Hbound. unfold bind, ret, Map_set, field_update. simpl.
  rewrite Hr. simpl. rewrite lookup_insert_eq. by rewrite insert_insert_eq.
Qed.

(** [PublicClassBuilder.js], [_get] for an instance that is not bound: the
    identifier [publicClassesMap] cannot be resolved. *)
Lemma B_get_unbound host I r reg P x st :
  privates st !! r = Some reg →
  has (privateInstancesMap reg) x = false →
  PublicClassBuilder.PublicClass__get host I (Some r) P [x] st
  = Some (Throw ReferenceError, st).
Proof.
  intros Hr Hx. unfold PublicClassBuilder.PublicClass__get, bind, field.
  cbn [nth mbind option_bind]. by rewrite Hr, Hx.
Qed.

(** [Utility.js], [_get]: the façade instance of a bound instance. *)
Lemma U_get_bound host I P x st :
  has (privateInstancesMap (closure st)) x = true →
  Utility.PublicClass__get host I P [x] st
  = Some (Ok (get (privateInstancesMap (closure st)) x), st).
Proof.
  intros Hx. unfold Utility.PublicClass__get, bind, gets. cbn [nth]. by rewrite Hx.
Qed.


(** A promise is no array and its [typeof] is ["object"]: the translators
    return it as it is, and allocate nothing. *)
Lemma translators_pass_promises T sc reg n st p d :
  translator_scope T = Some sc →
  registry sc st = Some reg →
  kind_of st p = Some (KPromise d) →
  counterpart T reg (VObj p) = None →
  run_translator T (S n) (VObj p) st = Some (Ok (VObj p), st).
Proof.
  intros Hsc Hreg Hk Hcp.
  destruct (run_translator_engine T sc reg Hsc) as (lookup & Q & Heq & Hl & HQ & Hinit).
  rewrite Heq, (translate_S lookup T (counterpart T reg) Q Hl) by auto.
  rewrite Hcp. unfold isArray. by rewrite Hk.
Qed.

(** ** The scenarios, evaluated *)

Lemma U_compiled_eq :
  compile demo_I ProcessWide (VObj Counter) demo = Some (Ok (VObj Facade), U_compiled).
Proof. vm_compute. reflexivity. Qed.

Lemma U_wrapped_eq :
  construct_rec demo_I Facade [VObj counter] U_compiled = Some (Ok wrapper, U_wrapped).
Proof. vm_compute. reflexivity. Qed.

Lemma B_start_eq : PublicClassBuilder.new demo = Some (Ok builder, B_start).
Proof. vm_compute. reflexivity. Qed.

Lemma B_compiled_eq :
  compile demo_I (BuilderScope builder) (VObj Counter) B_start
  = Some (Ok (VObj BFacade), B_compiled).
Proof. vm_compute. reflexivity. Qed.

Lemma B_wrapped_eq :
  construct_rec demo_I BFacade [VObj counter] B_compiled = Some (Ok bwrapper, B_wrapped).
Proof. vm_compute. reflexivity. Qed.

(** In the process-wide scope the second wrap of [counter] throws the
    error of line 59, [_get] finds the wrapper of a bound instance, makes
    one for an instance of [Counter] that is not bound, and throws the
    error of line 77 for a value that is no instance of [Counter]. *)
Lemma U_second_wrap_is_rejected :
  outcome (construct_rec demo_I Facade [VObj counter] U_wrapped)
  = Some (Throw (JsError (already_bound "Counter"))).
Proof. vm_compute. reflexivity. Qed.

Lemma U_lookup_accessor :
  outcome (static_call demo_I Facade "_get" [VObj counter] U_wrapped)
  = Some (Ok (VObj wrapper))
  ∧ static_call demo_I Facade "_get" [VObj counter] U_compiled
    = Some (Ok (VObj wrapper), U_wrapped)
  ∧ outcome (static_call demo_I Facade "_get" [VNum 3] U_wrapped)
    = Some (Throw (JsError (unrelated "Counter"))).
Proof. split_and!; vm_compute; reflexivity. Qed.

(** C3, in [PublicClassBuilder.js]: the first wrap of [counter] registers
    the pair in both instance maps of the builder, but the second wrap
    does not throw the error of line 52: reading [PublicClass.name] for its
    message runs the getter the loop has installed for the member [name]
    of [Counter], which calls [filterPrivate] with the façade class as
    receiver, for which [_privateMap] has no entry, and a TypeError is
    thrown instead. *)
Theorem C3_builder_second_wrap_throws_TypeError :
  instance_of B_compiled counter Counter = true
  ∧ construct_rec demo_I BFacade [VObj counter] B_compiled = Some (Ok bwrapper, B_wrapped)
  ∧ (registry (BuilderScope builder) B_wrapped
       ≫= λ reg, privateInstancesMap reg !! counter) = Some (VObj bwrapper)
  ∧ (registry (BuilderScope builder) B_wrapped
       ≫= λ reg, publicInstancesMap reg !! bwrapper) = Some (VObj counter)
  ∧ outcome (Get demo_I (VObj BFacade) (KStr "name") B_wrapped) = Some (Throw TypeError)
  ∧ outcome (construct_rec demo_I BFacade [VObj counter] B_wrapped)
    = Some (Throw TypeError).
Proof. split_and!; vm_compute; reflexivity. Qed.

(** C4, in [PublicClassBuilder.js]: [_get] returns the wrapper of a bound
    instance, but for [counter], an instance of [Counter] that is not
    bound, it neither makes a wrapper nor throws the error of line 70:
    the identifier [publicClassesMap] is not bound and a ReferenceError is
    thrown; the same happens for a value that is no instance. *)
Theorem C4_builder_get_throws_ReferenceError :
  instance_of B_compiled counter Counter = true
  ∧ outcome (static_call demo_I BFacade "_get" [VObj counter] B_wrapped)
    = Some (Ok (VObj bwrapper))
  ∧ outcome (static_call demo_I BFacade "_get" [VObj counter] B_compiled)
    = Some (Throw ReferenceError)
  ∧ outcome (static_call demo_I BFacade "_get" [VNum 3] B_compiled)
    = Some (Throw ReferenceError).
Proof. split_and!; vm_compute; reflexivity. Qed.

(** C6: [typeof] of a promise is ["object"], never ["promise"], so the
    branch of the translators for promises is never taken: each of the
    four translators returns the pending promise itself and leaves the
    state as it is, where the instance [counter] the promise may resolve
    to is translated to its wrapper when it is passed directly. *)
Theorem C6_promise_returned_as_is :
  typeof U_wrapped (VObj pending) = "object"
  ∧ filterPrivateInstance 5 (VObj pending) U_wrapped
    = Some (Ok (VObj pending), U_wrapped)
  ∧ filterPublicInstance 5 (VObj pending) U_wrapped
    = Some (Ok (VObj pending), U_wrapped)
  ∧ filterPrivate 5 (VObj builder) (VObj pending) B_wrapped
    = Some (Ok (VObj pending), B_wrapped)
  ∧ filterPublic 5 (VObj builder) (VObj pending) B_wrapped
    = Some (Ok (VObj pending), B_wrapped)
  ∧ outcome (filterPrivateInstance 5 (VObj counter) U_wrapped)
    = Some (Ok (VObj wrapper)).
Proof. split_and!; vm_compute; reflexivity. Qed.

(** C5, as stated, fails: after [Counter.version] is redefined to 2 the
    getter of the façade still returns 1, the value the member had when
    the façade was built. *)
Lemma C5_getter_returns_the_old_value :
  defineProperty (VObj Counter) (KStr "version") (with_value (VNum 2) empty_desc)
                 U_compiled = Some (Ok tt, U_redefined)
  ∧ outcome (Get demo_I (VObj Counter) (KStr "version") U_redefined)
    = Some (Ok (VNum 2))
  ∧ outcome (Get demo_I (VObj Facade) (KStr "version") U_redefined)
    = Some (Ok (VNum 1)).
Proof. split_and!; vm_compute; reflexivity. Qed.

(** C7, as stated, fails: [Counter.self] returns its receiver, and
    [Facade.self()] returns [Counter]: the function was called on the
    implementation class; called on the façade class, as the claim has
    it, the method would have returned the façade class. *)
Lemma C7_static_receiver_is_the_implementation_class :
  own_prop U_compiled Counter (KStr "self")
  = Some (PData (VObj Counter_self) true false true)
  ∧ outcome (static_call demo_I Facade "self" [] U_compiled) = Some (Ok (VObj Counter))
  ∧ outcome (forward_call (interp demo_host 4) Counter_self (VObj Facade) [] U_compiled)
    = Some (Ok (VObj Facade))
  ∧ Counter ≠ Facade.
Proof. split_and!; try (vm_compute; reflexivity). done. Qed.

(** ** Values of finite nesting *)

Lemma finite_array n h l es :
  heap_kind h l = Some (KArray es) →
  Forall (λ e, from_option (finite n h) True e) es →
  finite (S n) h (VObj l).
Proof. intros Hk Hes. simpl. by rewrite Hk. Qed.

Lemma finite_object n h l k :
  heap_kind h l = Some k →
  match k with KArray _ => False | _ => True end →
  finite n h (VObj l).
Proof. intros Hk Hn. destruct n; simpl; rewrite Hk; by destruct k. Qed.

Lemma from_option_Some {A} (P : A → Prop) x : P x → from_option P True (Some x).
Proof. done. Qed.

(** ** The theorems at work on the scenarios *)

Lemma C1_witness :
  registry ProcessWide demo = Some empty_registry
  ∧ is_class demo Counter = true
  ∧ privateClassesMap empty_registry !! Counter = None
  ∧ compile demo_I ProcessWide (VObj Counter) demo = Some (Ok (VObj Facade), U_compiled)
  ∧ ∃ Pp,
      own_prop U_compiled Facade (KStr "prototype")
      = Some (PData (VObj Pp) false false false)
      ∧ (∀ name, startsWith name "_" = true →
           is_Some (own_prop U_compiled Facade (KStr name)) ↔ name = "_get")
      ∧ (∀ name, startsWith name "_" = true →
           own_prop U_compiled Pp (KStr name) = None)
      ∧ o_proto <$> heap U_compiled !! Facade = Some (Some FunctionPrototype)
      ∧ o_proto <$> heap U_compiled !! Pp = Some (Some ObjectPrototype).
Proof.
  split_and!; [reflexivity|vm_compute; reflexivity|reflexivity|
               vm_compute; reflexivity|].
  apply (C1_only_get_is_internal demo_I ProcessWide Counter demo empty_registry
           Facade U_compiled);
    [reflexivity|vm_compute; reflexivity|reflexivity|vm_compute; reflexivity].
Defined.

Lemma C2_witness :
  is_class B_start Counter = true
  ∧ compile demo_I (BuilderScope builder) (VObj Counter) B_start
    = Some (Ok (VObj BFacade), B_compiled)
  ∧ compile demo_I (BuilderScope builder) (VObj Counter) B_compiled
    = Some (Ok (VObj BFacade), B_compiled)
  ∧ ∃ reg',
      registry (BuilderScope builder) B_compiled = Some reg'
      ∧ privateClassesMap reg' !! Counter = Some (VObj BFacade)
      ∧ ((∀ reg, registry (BuilderScope builder) B_start = Some reg →
                 privateClassesMap reg !! Counter = None) →
         ∃ p, VObj BFacade = VObj p ∧ publicClassesMap reg' !! p = Some (VObj Counter)).
Proof.
  split_and!; [vm_compute; reflexivity|vm_compute; reflexivity|..];
    apply (C2_compile_twice_same_facade demo_I (BuilderScope builder) Counter
             B_start (VObj BFacade) B_compiled);
    vm_compute; reflexivity.
Defined.

Lemma C5_witness :
  is_class demo Counter = true
  ∧ privateClassesMap (closure demo) !! Counter = None
  ∧ members_object demo Counter TypeLevel = Some Counter
  ∧ exposed TypeLevel "version" = true
  ∧ own_prop demo Counter (KStr "version") = Some (PData (VNum 1) false false true)
  ∧ non_function demo (VNum 1) = true
  ∧ compile demo_I ProcessWide (VObj Counter) demo = Some (Ok (VObj Facade), U_compiled)
  ∧ ∃ X g e' c',
      members_object U_compiled Facade TypeLevel = Some X
      ∧ own_prop U_compiled X (KStr "version") = Some (PAccessor (VObj g) VUndef e' c')
      ∧ ∀ I' st2 this args,
          code_of st2 g = code_of U_compiled g →
          (TypeLevel = InstanceLevel →
           has (publicInstancesMap (closure st2)) this = true) →
          call_step demo_host I' g this args st2
          = filterPrivateInstance (depth I') (VNum 1) st2.
Proof.
  split_and!; try (vm_compute; reflexivity).
  apply (C5_plain_value_read_only_snapshot demo_host demo_I TypeLevel demo Counter
           Counter "version" (VNum 1) false true Facade U_compiled);
    vm_compute; reflexivity.
Defined.

Lemma C7_witness :
  is_class demo Counter = true
  ∧ privateClassesMap (closure demo) !! Counter = None
  ∧ members_object demo Counter InstanceLevel = Some Counter_prototype
  ∧ exposed InstanceLevel "increment" = true
  ∧ own_prop demo Counter_prototype (KStr "increment")
    = Some (PData (VObj Counter_increment) true false true)
  ∧ is_callable demo (VObj Counter_increment) = true
  ∧ compile demo_I ProcessWide (VObj Counter) demo = Some (Ok (VObj Facade), U_compiled)
  ∧ ∃ X g w' e' c',
      members_object U_compiled Facade InstanceLevel = Some X
      ∧ own_prop U_compiled X (KStr "increment") = Some (PData (VObj g) w' e' c')
      ∧ ∀ I' st2 this args,
          code_of st2 g = code_of U_compiled g →
          (InstanceLevel = InstanceLevel →
           has (publicInstancesMap (closure st2)) this = true) →
          call_step demo_host I' g this args st2
          = forward_call I' Counter_increment
              (get (publicInstancesMap (closure st2)) this) args st2.
Proof.
  split_and!; try (vm_compute; reflexivity).
  apply (C7_methods_call_the_implementation demo_host demo_I InstanceLevel demo
           Counter Counter_prototype "increment" Counter_increment true false true
           Facade U_compiled);
    vm_compute; reflexivity.
Defined.

Lemma C8_witness :
  translator_scope TfilterPrivateInstance = Some ProcessWide
  ∧ registry ProcessWide U_wrapped = Some (closure U_wrapped)
  ∧ array_elems U_wrapped mixed
    = Some [Some (VObj counter); None; Some (VNum 7); Some (VObj nested)]
  ∧ counterpart TfilterPrivateInstance (closure U_wrapped) (VObj mixed) = None
  ∧ finite 2 (heap U_wrapped) (VObj mixed)
  ∧ ∃ l' es' st',
      run_translator TfilterPrivateInstance 3 (VObj mixed) U_wrapped
      = Some (Ok (VObj l'), st')
      ∧ heap U_wrapped !! l' = None
      ∧ array_elems st' l' = Some es'
      ∧ length es'
        = length [Some (VObj counter); None; Some (VNum 7); Some (VObj nested)]
      ∧ Forall2 (same_shape (translated 1
                   (counterpart TfilterPrivateInstance (closure U_wrapped))
                   (heap U_wrapped) (dom (heap U_wrapped)) (heap st')))
                [Some (VObj counter); None; Some (VNum 7); Some (VObj nested)] es'
      ∧ extends U_wrapped st'.
Proof.
  assert (∀ n, finite n (heap U_wrapped) (VObj counter)) as Hc.
  { intros n. apply (finite_object n _ counter KOrdinary); [|exact I].
    vm_compute. reflexivity. }
  assert (finite 1 (heap U_wrapped) (VObj nested)) as Hn.
  { apply (finite_array 0 _ nested [Some (VObj counter)]);
      [vm_compute; reflexivity|].
    apply Forall_cons_2; [|apply Forall_nil_2].
    cbv beta. apply from_option_Some, Hc. }
  assert (finite 2 (heap U_wrapped) (VObj mixed)) as Hfin.
  { apply (finite_array 1 _ mixed
             [Some (VObj counter); None; Some (VNum 7); Some (VObj nested)]);
      [vm_compute; reflexivity|].
    apply Forall_cons_2; [cbv beta; apply from_option_Some, Hc|].
    apply Forall_cons_2; [exact I|].
    apply Forall_cons_2; [cbv beta; apply from_option_Some; exact I|].
    apply Forall_cons_2; [cbv beta; apply from_option_Some, Hn|].
    apply Forall_nil_2. }
  split; [reflexivity|]. split; [reflexivity|].
  split; [vm_compute; reflexivity|]. split; [vm_compute; reflexivity|].
  split; [exact Hfin|].
  apply (C8_arrays_translated_elementwise TfilterPrivateInstance ProcessWide
           (closure U_wrapped) 1 U_wrapped mixed);
    [reflexivity|reflexivity|vm_compute; reflexivity|vm_compute; reflexivity|
     exact Hfin].
Defined.

Lemma C9_witness :
  code_of U_compiled Facade_increment
  = Some (UProtoMethod (PData (VObj Counter_increment) true false true))
  ∧ instance_member (UProtoMethod (PData (VObj Counter_increment) true false true))
    = true
  ∧ receiver_map U_compiled
      (UProtoMethod (PData (VObj Counter_increment) true false true))
    = Some (publicInstancesMap (closure U_compiled))
  ∧ has (publicInstancesMap (closure U_compiled)) (VObj Facade_prototype) = false
  ∧ ∃ st',
      call_step demo_host demo_I Facade_increment (VObj Facade_prototype) [VNum 5]
                U_compiled = Some (Ok VUndef, st')
      ∧ extends U_compiled st'.
Proof.
  split_and!; try (vm_compute; reflexivity).
  apply (C9_unbound_receiver_yields_undefined demo_host demo_I U_compiled
           Facade_increment
           (UProtoMethod (PData (VObj Counter_increment) true false true))
           (publicInstancesMap (closure U_compiled)));
    vm_compute; reflexivity.
Defined.

Lemma C10_witness :
  registry ProcessWide demo = Some empty_registry
  ∧ is_class demo Settings = true
  ∧ privateClassesMap empty_registry !! Settings = None
  ∧ has_writable_plain_member demo Settings
  ∧ ∃ st', compile demo_I ProcessWide (VObj Settings) demo = Some (Throw TypeError, st').
Proof.
  assert (has_writable_plain_member demo Settings) as Hmem.
  { left. exists "level", (VNum 3), true, true.
    split_and!; vm_compute; reflexivity. }
  split_and!; [reflexivity|vm_compute; reflexivity|reflexivity|exact Hmem|].
  apply (C10_writable_plain_member_rejected demo_I ProcessWide Settings demo
           empty_registry);
    [reflexivity|vm_compute; reflexivity|reflexivity|exact Hmem].
Defined.

(** * Further properties of the two modules *)

(** A decidable proposition, decided by evaluation. *)
Ltac by_evaluation := apply (bool_decide_unpack _); vm_compute; exact I.

(** ** What [getPublicClass] rejects *)

(** X1: [getPublicClass] of either module, given a value that is not a
    function, or a function whose [prototype] reads as a falsy value
    (a method, an arrow function), throws the error "... has to be a
    class" of its module and changes nothing; for a builder this holds
    whatever the receiver is. *)
Theorem X1_not_a_class_is_rejected I sc v st :
  is_callable st v = false ∨ prototype_falsy st v = true →
  compile I sc v st = Some (Throw (JsError (class_error sc)), st).
Proof.
  intros Hv.
  assert (Utility.rejects I v st = Some (Ok true, st)
          ∧ PublicClassBuilder.rejects I v st = Some (Ok true, st)) as [HU HB].
  { unfold Utility.rejects, PublicClassBuilder.rejects, bind at 1 3, gets at 1 2.
    destruct (String.eqb (typeof st v) "function") eqn:Hty; [|done]. simpl.
    destruct Hv as [Hc|Hp].
    { destruct v; simpl in Hty, Hc; try done. by rewrite Hc in Hty. }
    destruct v as [| | | | | |l]; try done. unfold prototype_falsy in Hp.
    unfold bind, Get, ret.
    destruct (find_property st l (KStr "prototype")) as [[x w e c|g s e c]|];
      [by rewrite Hp| |done].
    apply bool_decide_eq_true in Hp as ->. done. }
  destruct sc as [|b]; simpl.
  - unfold Utility.getPublicClass. by rewrite (bind_ok _ _ _ _ _ HU).
  - unfold PublicClassBuilder.getPublicClass.
    unfold bind at 1, _privateMap_get at 1, gets at 1.
    by rewrite (bind_ok _ _ _ _ _ HB).
Qed.

Lemma X1_witness :
  (is_callable demo (VObj Counter_increment) = false
   ∨ prototype_falsy demo (VObj Counter_increment) = true)
  ∧ compile demo_I (BuilderScope builder) (VObj Counter_increment) demo
    = Some (Throw (JsError (class_error (BuilderScope builder))), demo).
Proof.
  assert (is_callable demo (VObj Counter_increment) = false
          ∨ prototype_falsy demo (VObj Counter_increment) = true) as H
    by (right; vm_compute; reflexivity).
  split; [exact H|].
  apply (X1_not_a_class_is_rejected demo_I (BuilderScope builder)
           (VObj Counter_increment) demo H).
Defined.

(** ** A new builder *)

(** X2: [new PublicClassBuilder()] returns a new object whose four maps are
    empty; the maps of [Utility.js] and of every other builder, and every
    object of the heap, stay as they are. *)
Theorem X2_new_builder_starts_empty st :
  ∃ b st',
    PublicClassBuilder.new st = Some (Ok b, st')
    ∧ heap st !! b = None
    ∧ registry (BuilderScope b) st' = Some empty_registry
    ∧ closure st' = closure st
    ∧ heap st ⊆ heap st'
    ∧ ∀ b' reg, b' ≠ b →
        registry (BuilderScope b') st = Some reg →
        registry (BuilderScope b') st' = Some reg.
Proof.
  unfold PublicClassBuilder.new, PublicClassBuilder.constructor, bind, alloc,
    modify, ret. simpl.
  set (b := fresh (dom (heap st))). set (r := fresh (dom (privates st))).
  assert (heap st !! b = None) as Hb by apply fresh_heap.
  assert (privates st !! r = None) as Hr by apply not_elem_of_dom, is_fresh.
  eexists b, _. split; [done|]. split_and!; simpl; [done| |done| |].
  - rewrite lookup_insert_eq. simpl. apply lookup_insert_eq.
  - by apply insert_subseteq.
  - intros b' reg Hne. rewrite lookup_insert_ne by done.
    destruct (_privateMap st !! b') as [r'|]; [|done]. simpl. intros Hreg.
    rewrite lookup_insert_ne; [done|]. intros <-. by rewrite Hr in Hreg.
Qed.

(** ** The translators on values that are no arrays *)

(** X3: a translator of either module (those of [PublicClassBuilder.js]
    called on a builder) returns the counterpart its maps hold for the
    value, even for an array; a value without counterpart that is no array
    (a primitive, a function, a promise, any other object) is returned as
    it is; in both cases nothing is allocated and nothing changes. *)
Theorem X3_translators_on_leaves T sc reg n st v :
  translator_scope T = Some sc →
  registry sc st = Some reg →
  is_Some (counterpart T reg v) ∨ isArray st v = false →
  run_translator T (S n) v st = Some (Ok (default v (counterpart T reg v)), st).
Proof.
  intros Hsc Hreg Hv.
  destruct (run_translator_engine T sc reg Hsc) as (lookup & Q & Heq & Hl & HQ & Hinit).
  rewrite Heq, (translate_S lookup T (counterpart T reg) Q Hl) by auto.
  destruct (counterpart T reg v) as [c|]; [done|]. simpl.
  destruct Hv as [[? ?]|Hv]; [done|by rewrite Hv].
Qed.

Lemma X3_witness :
  translator_scope (TfilterPrivate (VObj builder)) = Some (BuilderScope builder)
  ∧ registry (BuilderScope builder) B_compiled
    = Some (mkRegistry {[BFacade := VObj Counter]} {[Counter := VObj BFacade]} ∅ ∅)
  ∧ (is_Some (counterpart (TfilterPrivate (VObj builder))
                (mkRegistry {[BFacade := VObj Counter]} {[Counter := VObj BFacade]} ∅ ∅)
                (VObj Counter))
     ∨ isArray B_compiled (VObj Counter) = false)
  ∧ run_translator (TfilterPrivate (VObj builder)) 1 (VObj Counter) B_compiled
    = Some (Ok (default (VObj Counter)
                  (counterpart (TfilterPrivate (VObj builder))
                     (mkRegistry {[BFacade := VObj Counter]}
                                 {[Counter := VObj BFacade]} ∅ ∅)
                     (VObj Counter))), B_compiled).
Proof.
  assert (registry (BuilderScope builder) B_compiled
          = Some (mkRegistry {[BFacade := VObj Counter]} {[Counter := VObj BFacade]} ∅ ∅))
    as Hreg by (vm_compute; reflexivity).
  assert (is_Some (counterpart (TfilterPrivate (VObj builder))
                (mkRegistry {[BFacade := VObj Counter]} {[Counter := VObj BFacade]} ∅ ∅)
                (VObj Counter))
     ∨ isArray B_compiled (VObj Counter) = false) as Hv
    by (right; vm_compute; reflexivity).
  split; [reflexivity|]. split; [exact Hreg|]. split; [exact Hv|].
  apply (X3_translators_on_leaves (TfilterPrivate (VObj builder)) (BuilderScope builder)
           _ 0 B_compiled (VObj Counter) eq_refl Hreg Hv).
Defined.

(** ** [PublicClassBuilder.js]: receivers that are no builders *)

Lemma filterPublic_needs_builder n this v st :
  is_builder st this = false →
  filterPublic (S n) this v st = Some (Throw TypeError, st).
Proof.
  intros Hb. simpl. unfold bind, _privateMap_get, gets, field.
  destruct this as [| | | | | |b]; try done.
  simpl in Hb. apply bool_decide_eq_false in Hb.
  destruct (_privateMap st !! b ≫= _) as [reg|] eqn:Hreg; [|done].
  destruct Hb. by exists reg.
Qed.

Lemma filterPrivate_needs_builder n this v st :
  is_builder st this = false →
  filterPrivate (S n) this v st = Some (Throw TypeError, st).
Proof.
  intros Hb. simpl. unfold bind, _privateMap_get, gets, field.
  destruct this as [| | | | | |b]; try done.
  simpl in Hb. apply bool_decide_eq_false in Hb.
  destruct (_privateMap st !! b ≫= _) as [reg|] eqn:Hreg; [|done].
  destruct Hb. by exists reg.
Qed.

Lemma is_builder_set_heap h st this :
  is_builder (set_heap h st) this = is_builder st this.
Proof. done. Qed.

(** X4: a setter, a method or the getter of a plain value that
    [buildPublicClass] has synthesised, called on a receiver that is no
    builder (a façade class, a bound façade instance), throws a TypeError
    before anything of the implementation is called: the closures hand
    their own receiver to [filterPublic] and [filterPrivate], which look
    it up in [_privateMap]. *)
Theorem X4_builder_members_throw_on_facades host I st f c this args :
  code_of st f = Some c →
  translates_first c = true →
  depth I ≠ 0%nat →
  is_builder st this = false →
  guard_passes st c this = true →
  ∃ st', call_step host I f this args st = Some (Throw TypeError, st')
         ∧ extends st st'.
Proof.
  intros Hc Hkind Hdepth Hb Hguard. unfold call_step. rewrite Hc.
  destruct (depth I) as [|n] eqn:Hd; [done|].
  unfold guard_passes in Hguard.
  destruct c; try done; simpl in Hguard.
  - unfold PublicClassBuilder.static_setter. rewrite Hd.
    rewrite (bind_throw _ _ _ _ _ (filterPublic_needs_builder n _ _ _ Hb)).
    eexists. split; [done|apply extends_refl].
  - unfold PublicClassBuilder.static_method. rewrite Hd.
    rewrite (bind_ok _ _ _ _ _ (rest_array_eq args st)).
    rewrite (bind_throw _ _ _ _ _
               (filterPublic_needs_builder n _ _ (set_heap _ st) Hb)).
    eexists. split; [done|apply extends_insert, fresh_heap].
  - unfold PublicClassBuilder.static_value. rewrite Hd.
    rewrite (filterPrivate_needs_builder n _ _ _ Hb).
    eexists. split; [done|apply extends_refl].
  - unfold PublicClassBuilder.proto_setter, bind at 1, field at 1.
    destruct (_private ≫= _) as [reg|]; [|eexists; split; [done|apply extends_refl]].
    simpl in Hguard. rewrite Hguard. cbn [negb]. rewrite Hd.
    rewrite (bind_throw _ _ _ _ _ (filterPublic_needs_builder n _ _ _ Hb)).
    eexists. split; [done|apply extends_refl].
  - unfold PublicClassBuilder.proto_method.
    rewrite (bind_ok _ _ _ _ _ (rest_array_eq args st)).
    unfold bind at 1, field at 1. cbn [privates set_heap].
    destruct (_private ≫= _) as [reg|];
      [|eexists; split; [done|apply extends_insert, fresh_heap]].
    simpl in Hguard. rewrite Hguard. cbn [negb]. rewrite Hd.
    rewrite (bind_throw _ _ _ _ _
               (filterPublic_needs_builder n _ _ (set_heap _ st) Hb)).
    eexists. split; [done|apply extends_insert, fresh_heap].
  - unfold PublicClassBuilder.proto_value, bind at 1, field at 1.
    destruct (_private ≫= _) as [reg|]; [|eexists; split; [done|apply extends_refl]].
    simpl in Hguard. rewrite Hguard. cbn [negb]. rewrite Hd.
    rewrite (filterPrivate_needs_builder n _ _ _ Hb).
    eexists. split; [done|apply extends_refl].
Qed.

Lemma X4_witness :
  code_of B_wrapped BFacade_increment
  = Some (BProtoMethod (Some 1%positive)
            (PData (VObj Counter_increment) true false true))
  ∧ translates_first (BProtoMethod (Some 1%positive)
                        (PData (VObj Counter_increment) true false true)) = true
  ∧ depth demo_I ≠ 0%nat
  ∧ is_builder B_wrapped (VObj bwrapper) = false
  ∧ guard_passes B_wrapped
      (BProtoMethod (Some 1%positive)
         (PData (VObj Counter_increment) true false true)) (VObj bwrapper) = true
  ∧ ∃ st', call_step demo_host demo_I BFacade_increment (VObj bwrapper) [VNum 5]
                     B_wrapped = Some (Throw TypeError, st')
           ∧ extends B_wrapped st'.
Proof.
  assert (depth demo_I ≠ 0%nat) as Hd by discriminate.
  split_and!; [vm_compute; reflexivity|reflexivity|exact Hd|
               vm_compute; reflexivity|vm_compute; reflexivity|].
  apply (X4_builder_members_throw_on_facades demo_host demo_I B_wrapped
           BFacade_increment
           (BProtoMethod (Some 1%positive)
              (PData (VObj Counter_increment) true false true))
           (VObj bwrapper) [VNum 5]);
    [vm_compute; reflexivity|reflexivity|exact Hd|
     vm_compute; reflexivity|vm_compute; reflexivity].
Defined.

Lemma index_rest_array args st A :
  kind_of st A = Some (KArray (Some <$> args)) →
  index (VObj A) 0 st = Some (Ok (nth 0 args VUndef), st).
Proof.
  intros Hk. unfold index, gets, array_elems. rewrite Hk. by destruct args.
Qed.

Lemma create_this_eq I F st v w e c :
  own_prop st F (KStr "prototype") = Some (PData v w e c) →
  create_this I F st
  = Some (Ok (fresh (dom (heap st))),
          set_heap (<[fresh (dom (heap st)) :=
                        mkObj (Some (match v with VObj l => l | _ => ObjectPrototype end))
                              true [] KOrdinary]> (heap st)) st).
Proof.
  intros Hp. unfold create_this.
  by rewrite (bind_ok _ _ _ _ _ (Get_own_data I _ _ _ _ _ _ _ Hp)).
Qed.

(** X5: in [PublicClassBuilder.js] a façade cannot be constructed from
    public arguments: when the first argument is no object (or there is
    none), [new PublicClass(...)] throws a TypeError and no implementation
    instance is constructed, since line 55 calls [filterPublic] with the
    new façade instance as receiver, which is no builder. *)
Theorem X5_builder_facade_rejects_public_arguments host I st F r T args v w e c :
  code_of st F = Some (BPublicClass r T) →
  own_prop st F (KStr "prototype") = Some (PData v w e c) →
  first_is_primitive args = true →
  depth I ≠ 0%nat →
  dom (_privateMap st) ⊆ dom (heap st) →
  ∃ st', construct_step host I F args st = Some (Throw TypeError, st')
         ∧ extends st st'.
Proof.
  intros Hc Hp Hfirst Hdepth Hdom. unfold construct_step. rewrite Hc.
  rewrite (bind_ok _ _ _ _ _ (create_this_eq I _ _ _ _ _ _ Hp)).
  set (this := fresh (dom (heap st))). set (st1 := set_heap _ st).
  assert (heap st !! this = None) as Hthis by apply fresh_heap.
  assert (extends st st1) as Hext1 by (by apply extends_insert).
  assert (is_builder st1 (VObj this) = false) as Hb.
  { simpl. apply bool_decide_eq_false. intros [reg Hreg].
    destruct (_privateMap st !! this) as [r'|] eqn:Hr'; [|done].
    apply not_elem_of_dom in Hthis. apply Hthis, Hdom, elem_of_dom. eauto. }
  assert (∃ st', PublicClassBuilder.PublicClass_constructor host I r F T this args st1
                 = Some (Throw TypeError, st') ∧ extends st st')
    as (st' & Hctor & Hext'); [|rewrite (bind_throw _ _ _ _ _ Hctor); by eexists].
  unfold PublicClassBuilder.PublicClass_constructor.
  rewrite !(bind_ok _ _ _ _ _ (rest_array_eq args st1)).
  set (A := fresh (dom (heap st1))). set (st2 := set_heap _ st1).
  assert (extends st st2) as Hext2.
  { eapply extends_trans; [done|]. apply extends_insert, fresh_heap. }
  assert (index (VObj A) 0 st2 = Some (Ok (nth 0 args VUndef), st2)) as Hi.
  { apply index_rest_array. unfold kind_of. subst st2. simpl.
    by rewrite lookup_insert_eq. }
  rewrite !(bind_ok _ _ _ _ _ Hi).
  unfold first_is_primitive in Hfirst.
  assert (instanceOf I (nth 0 args VUndef) (VObj T) st2 = Some (Ok false, st2)
          ∨ instanceOf I (nth 0 args VUndef) (VObj T) st2
            = Some (Throw TypeError, st2)) as [Hinst|Hinst].
  { unfold instanceOf, bind, gets.
    destruct (is_callable st2 (VObj T)); cbn [negb]; [left|by right].
    by destruct (nth 0 args VUndef). }
  - rewrite (bind_ok _ _ _ _ _ Hinst).
    destruct (depth I) as [|n]; [done|].
    cbv beta iota. unfold bind at 1.
    rewrite (bind_throw _ _ _ _ _
               (filterPublic_needs_builder n (VObj this) _ st2 Hb)).
    by eexists.
  - rewrite (bind_throw _ _ _ _ _ Hinst). by eexists.
Qed.

Lemma X5_witness :
  code_of B_compiled BFacade = Some (BPublicClass (Some 1%positive) Counter)
  ∧ own_prop B_compiled BFacade (KStr "prototype")
    = Some (PData (VObj 21%positive) false false false)
  ∧ first_is_primitive [VNum 1; VObj counter] = true
  ∧ depth demo_I ≠ 0%nat
  ∧ dom (_privateMap B_compiled) ⊆ dom (heap B_compiled)
  ∧ ∃ st', construct_step demo_host demo_I BFacade [VNum 1; VObj counter] B_compiled
           = Some (Throw TypeError, st')
           ∧ extends B_compiled st'.
Proof.
  assert (depth demo_I ≠ 0%nat) as Hd by discriminate.
  assert (dom (_privateMap B_compiled) ⊆ dom (heap B_compiled)) as Hdom.
  { by_evaluation. }
  split_and!; [vm_compute; reflexivity|vm_compute; reflexivity|reflexivity|
               exact Hd|exact Hdom|].
  apply (X5_builder_facade_rejects_public_arguments demo_host demo_I B_compiled
           BFacade (Some 1%positive) Counter [VNum 1; VObj counter]
           (VObj 21%positive) false false false);
    [vm_compute; reflexivity|vm_compute; reflexivity|reflexivity|
     exact Hd|exact Hdom].
Defined.

(** ** [Utility.js]: the instances of a façade *)

Lemma filterPublicInstance_bound n w x st :
  publicInstancesMap (closure st) !! w = Some x →
  filterPublicInstance (S n) (VObj w) st = Some (Ok x, st).
Proof.
  intros Hw. simpl. rewrite bool_decide_eq_true_2 by (by rewrite Hw).
  unfold ret. by rewrite Hw.
Qed.

Lemma filterPrivateInstance_bound n x w st :
  privateInstancesMap (closure st) !! x = Some w →
  filterPrivateInstance (S n) (VObj x) st = Some (Ok w, st).
Proof.
  intros Hx. simpl. rewrite bool_decide_eq_true_2 by (by rewrite Hx).
  unfold ret. by rewrite Hx.
Qed.

(** What the last two lines of the constructor leave in the maps. *)
Lemma U_constructor_binds host I P T this args st st' :
  Utility.PublicClass_constructor host I P T this args st = Some (Ok tt, st') →
  ∃ x, publicInstancesMap (closure st') !! this = Some (VObj x)
       ∧ privateInstancesMap (closure st') !! x = Some (VObj this).
Proof.
  unfold Utility.PublicClass_constructor.
  intros (publicArgs & st1 & _ & H)%bind_inv_ok.
  apply bind_inv_ok in H as (first & st2 & _ & H).
  apply bind_inv_ok in H as (wrap & st3 & _ & H).
  apply bind_inv_ok in H as (privateInstance & st4 & _ & H).
  apply bind_inv_ok in H as ([] & st5 & H1 & H2).
  unfold WeakMap_set, closure_update, modify in H1, H2.
  injection H1 as <-.
  destruct privateInstance as [| | | | | |x]; try done.
  injection H2 as <-. exists x. simpl. by rewrite !lookup_insert_eq.
Qed.

(** X6: in [Utility.js] every object [new PublicClass(...)] returns, in the
    wrap form as in the form with public arguments, is a new object bound
    to an implementation instance [x] in both instance maps, so that
    [filterPublicInstance] sends it to [x] and [filterPrivateInstance]
    sends [x] back to it. *)
Theorem X6_facade_instances_are_bound host I st F T args w st' v0 w0 e0 c0 :
  code_of st F = Some (UPublicClass T) →
  own_prop st F (KStr "prototype") = Some (PData v0 w0 e0 c0) →
  construct_step host I F args st = Some (Ok w, st') →
  heap st !! w = None
  ∧ ∃ x, publicInstancesMap (closure st') !! w = Some (VObj x)
         ∧ privateInstancesMap (closure st') !! x = Some (VObj w)
         ∧ ∀ n, filterPublicInstance (S n) (VObj w) st' = Some (Ok (VObj x), st')
                ∧ filterPrivateInstance (S n) (VObj x) st' = Some (Ok (VObj w), st').
Proof.
  intros Hc Hp. unfold construct_step. rewrite Hc.
  rewrite (bind_ok _ _ _ _ _ (create_this_eq I _ _ _ _ _ _ Hp)).
  intros ([] & st3 & Hctor & [= <- <-])%bind_inv_ok.
  split; [apply fresh_heap|].
  destruct (U_constructor_binds _ _ _ _ _ _ _ _ Hctor) as (x & Hw & Hx).
  exists x. split_and!; [done..|]. intros n. split.
  - by apply filterPublicInstance_bound.
  - by apply filterPrivateInstance_bound.
Qed.

Lemma X6_witness :
  code_of U_compiled Facade = Some (UPublicClass Counter)
  ∧ own_prop U_compiled Facade (KStr "prototype")
    = Some (PData (VObj Facade_prototype) false false false)
  ∧ construct_step demo_host (interp demo_host 4) Facade [VNum 1] U_compiled
    = Some (Ok wrapper, U_constructed)
  ∧ heap U_compiled !! wrapper = None
  ∧ ∃ x, publicInstancesMap (closure U_constructed) !! wrapper = Some (VObj x)
         ∧ privateInstancesMap (closure U_constructed) !! x = Some (VObj wrapper)
         ∧ ∀ n, filterPublicInstance (S n) (VObj wrapper) U_constructed
                = Some (Ok (VObj x), U_constructed)
                ∧ filterPrivateInstance (S n) (VObj x) U_constructed
                  = Some (Ok (VObj wrapper), U_constructed).
Proof.
  split; [vm_compute; reflexivity|]. split; [vm_compute; reflexivity|].
  split; [vm_compute; reflexivity|].
  apply (X6_facade_instances_are_bound demo_host (interp demo_host 4) U_compiled
           Facade Counter [VNum 1] wrapper U_constructed
           (VObj Facade_prototype) false false false);
    vm_compute; reflexivity.
Defined.

Lemma instance_of_extends st st' x T :
  extends st st' → instance_of st x T = true → instance_of st' x T = true.
Proof.
  intros Hext. unfold instance_of. intros [Hc Hp]%andb_true_iff.
  rewrite (extends_callable _ _ _ Hext Hc). simpl.
  destruct (own_prop st T (KStr "prototype")) as [[v w e c|]|] eqn:Hown; try done.
  rewrite (extends_own_prop _ _ _ _ _ Hext Hown).
  destruct v as [| | | | | |Tp]; try done.
  eapply on_chain_mono; [apply Hext| |done]. apply map_subseteq_size, Hext.
Qed.




(** ** [Utility.js]: the two errors and the name they carry *)

(** [PublicClass.name] is the getter the loop has made for the member
    [name] of the implementation class: the messages carry the name that
    class had when the façade was built. *)
Lemma throw_Error_names {A} host n st P g e c pp s text :
  own_prop st P (KStr "name") = Some (PAccessor (VObj g) VUndef e c) →
  code_of st g = Some (UStaticValue pp) →
  p_value pp = VStr s →
  throw_Error (A := A) host (interp host (S (S n))) P text st
  = Some (Throw (JsError (text s)), st).
Proof.
  intros Hname Hg Hs. unfold throw_Error.
  assert (Get (interp host (S (S n))) (VObj P) (KStr "name") st
          = Some (Ok (VStr s), st)) as HG.
  { unfold Get, find_property. unfold own_prop in Hname.
    destruct (heap st !! P) as [o|] eqn:Ho; [|done]. simpl in Hname.
    rewrite (lookup_chain_own _ _ _ _ _ _ Ho Hname).
    change (call_step host (interp host (S n)) g (VObj P) [] st
            = Some (Ok (VStr s), st)).
    unfold call_step. rewrite Hg. unfold Utility.static_value. by rewrite Hs. }
  by rewrite (bind_ok _ _ _ _ _ HG).
Qed.

Lemma instanceOf_false I st v T :
  not_instance st v T = true → instanceOf I v (VObj T) st = Some (Ok false, st).
Proof.
  unfold not_instance. intros [Hc Hv]%andb_true_iff.
  unfold instanceOf, bind at 1, gets at 1. rewrite Hc. cbn [negb].
  destruct v as [| | | | | |x]; try done.
  destruct (own_prop st T (KStr "prototype")) as [[u w e c|]|] eqn:Hown; try done.
  destruct u as [| | | | | |Tp]; try done.
  rewrite (bind_ok _ _ _ _ _ (Get_own_data I _ _ _ _ _ _ _ Hown)).
  unfold gets. by rewrite (negb_true_iff _), Hv in *.
Qed.

(** X8: in [Utility.js], the wrap form for an implementation instance
    that is bound already throws an Error whose message starts with the
    name the implementation class had when the façade was built; the maps
    are left as they are and no object of the heap is changed. *)
Theorem X8_second_wrap_is_an_error host n st P T x w v0 w0 e0 c0 g e c pp s :
  code_of st P = Some (UPublicClass T) →
  own_prop st P (KStr "prototype") = Some (PData v0 w0 e0 c0) →
  own_prop st P (KStr "name") = Some (PAccessor (VObj g) VUndef e c) →
  code_of st g = Some (UStaticValue pp) →
  p_value pp = VStr s →
  instance_of st x T = true →
  privateInstancesMap (closure st) !! x = Some w →
  ∃ st', construct_step host (interp host (S (S n))) P [VObj x] st
         = Some (Throw (JsError (already_bound s)), st')
         ∧ extends st st'.
Proof.
  intros HP Hp Hname Hg Hs Hinst Hbound. unfold construct_step. rewrite HP.
  rewrite (bind_ok _ _ _ _ _ (create_this_eq _ _ _ _ _ _ _ Hp)).
  set (this := fresh (dom (heap st))). set (st1 := set_heap _ st).
  assert (extends st st1) as Hext1 by apply extends_insert, fresh_heap.
  destruct (U_wrap_bound host (interp host (S (S n))) P T this x st1)
    as (st2 & Hext2 & Hctor).
  - by eapply instance_of_extends.
  - simpl. rewrite Hbound. by apply bool_decide_eq_true.
  - assert (extends st st2) as Hext by (by eapply extends_trans).
    exists st2. split; [|done].
    apply bind_throw. rewrite Hctor.
    eapply throw_Error_names; [|by eapply extends_code|done].
    by eapply extends_own_prop.
Qed.

Lemma X8_witness :
  code_of U_wrapped Facade = Some (UPublicClass Counter)
  ∧ own_prop U_wrapped Facade (KStr "prototype")
    = Some (PData (VObj Facade_prototype) false false false)
  ∧ own_prop U_wrapped Facade (KStr "name")
    = Some (PAccessor (VObj Facade_name) VUndef false true)
  ∧ code_of U_wrapped Facade_name
    = Some (UStaticValue (PData (VStr "Counter") false false true))
  ∧ p_value (PData (VStr "Counter") false false true) = VStr "Counter"
  ∧ instance_of U_wrapped counter Counter = true
  ∧ privateInstancesMap (closure U_wrapped) !! counter = Some (VObj wrapper)
  ∧ ∃ st', construct_step demo_host (interp demo_host 2) Facade [VObj counter] U_wrapped
           = Some (Throw (JsError (already_bound "Counter")), st')
           ∧ extends U_wrapped st'.
Proof.
  split_and!; try (vm_compute; reflexivity).
  apply (X8_second_wrap_is_an_error demo_host 0 U_wrapped Facade Counter counter
           (VObj wrapper) (VObj Facade_prototype) false false false
           Facade_name false true (PData (VStr "Counter") false false true) "Counter");
    vm_compute; reflexivity.
Defined.

(** X9: in [Utility.js], [PublicClass._get(v)] for a value [v] that is
    neither bound nor an instance of the implementation class throws an
    Error whose message starts with the name the implementation class had
    when the façade was built, and changes nothing. *)
Theorem X9_get_rejects_unrelated_values host n st f this P T v g e c pp s :
  code_of st f = Some (U_get P) →
  publicClassesMap (closure st) !! P = Some (VObj T) →
  own_prop st P (KStr "name") = Some (PAccessor (VObj g) VUndef e c) →
  code_of st g = Some (UStaticValue pp) →
  p_value pp = VStr s →
  has (privateInstancesMap (closure st)) v = false →
  not_instance st v T = true →
  call_step host (interp host (S (S n))) f this [v] st
  = Some (Throw (JsError (unrelated s)), st).
Proof.
  intros Hf Hcl Hname Hg Hs Hnew Hinst. unfold call_step. rewrite Hf.
  unfold Utility.PublicClass__get.
  unfold bind at 1, gets at 1. cbn [nth]. rewrite Hnew.
  unfold bind at 1, gets at 1. simpl. rewrite Hcl. simpl.
  rewrite (bind_ok _ _ _ _ _ (instanceOf_false _ _ _ _ Hinst)).
  by eapply throw_Error_names.
Qed.

Lemma X9_witness :
  code_of U_wrapped Facade__get = Some (U_get Facade)
  ∧ publicClassesMap (closure U_wrapped) !! Facade = Some (VObj Counter)
  ∧ own_prop U_wrapped Facade (KStr "name")
    = Some (PAccessor (VObj Facade_name) VUndef false true)
  ∧ code_of U_wrapped Facade_name
    = Some (UStaticValue (PData (VStr "Counter") false false true))
  ∧ p_value (PData (VStr "Counter") false false true) = VStr "Counter"
  ∧ has (privateInstancesMap (closure U_wrapped)) (VObj Settings_prototype) = false
  ∧ not_instance U_wrapped (VObj Settings_prototype) Counter = true
  ∧ call_step demo_host (interp demo_host 2) Facade__get (VObj Facade)
              [VObj Settings_prototype] U_wrapped
    = Some (Throw (JsError (unrelated "Counter")), U_wrapped).
Proof.
  do 7 (split; [vm_compute; reflexivity|]).
  apply (X9_get_rejects_unrelated_values demo_host 0 U_wrapped Facade__get (VObj Facade)
           Facade Counter (VObj Settings_prototype) Facade_name false true
           (PData (VStr "Counter") false false true) "Counter");
    vm_compute; reflexivity.
Defined.

(** ** [PublicClassBuilder.js]: the translators know the classes *)

(** X10: once a builder has compiled the class [T] into the façade [P],
    its translators take the one for the other: [filterPrivate], called on
    the builder, sends [T] to [P], and [filterPublic] sends [P] back to
    [T] (the translators of [Utility.js] consult the instance maps only). *)
Theorem X10_builder_translators_know_classes I b T st reg P st' :
  registry (BuilderScope b) st = Some reg →
  is_class st T = true →
  privateClassesMap reg !! T = None →
  privateInstancesMap reg !! T = None →
  dom (publicInstancesMap reg) ⊆ dom (heap st) →
  compile I (BuilderScope b) (VObj T) st = Some (Ok P, st') →
  ∀ n, filterPrivate (S n) (VObj b) (VObj T) st' = Some (Ok P, st')
       ∧ filterPublic (S n) (VObj b) P st' = Some (Ok (VObj T), st').
Proof.
  intros Hreg Hcl Hnew HT Hdom Hc n.
  pose proof (compile_new I _ _ _ _ Hreg Hcl Hnew) as Hs. rewrite Hc in Hs.
  destruct Hs as (p & Pp & ctor & getter & st1 & reg' & -> & Hb & _ & Hreg' & ->).
  assert (publicInstancesMap reg !! p = None) as Hp.
  { apply not_elem_of_dom. intros Hin%Hdom.
    by apply not_elem_of_dom in Hin; [|apply (bd_new_P _ _ _ _ _ _ Hb)]. }
  simpl in Hreg'.
  split; simpl; unfold bind, _privateMap_get, gets, field; rewrite Hreg'; simpl.
  - rewrite HT, bool_decide_eq_false_2 by (by intros [? ?]).
    rewrite Hreg'. simpl. rewrite lookup_insert_eq.
    by rewrite bool_decide_eq_true_2 by (by eexists).
  - rewrite Hp, bool_decide_eq_false_2 by (by intros [? ?]).
    rewrite Hreg'. simpl. rewrite lookup_insert_eq.
    by rewrite bool_decide_eq_true_2 by (by eexists).
Qed.

Lemma X10_witness :
  registry (BuilderScope builder) B_start = Some empty_registry
  ∧ is_class B_start Counter = true
  ∧ privateClassesMap empty_registry !! Counter = None
  ∧ privateInstancesMap empty_registry !! Counter = None
  ∧ dom (publicInstancesMap empty_registry) ⊆ dom (heap B_start)
  ∧ compile demo_I (BuilderScope builder) (VObj Counter) B_start
    = Some (Ok (VObj BFacade), B_compiled)
  ∧ ∀ n, filterPrivate (S n) (VObj builder) (VObj Counter) B_compiled
         = Some (Ok (VObj BFacade), B_compiled)
         ∧ filterPublic (S n) (VObj builder) (VObj BFacade) B_compiled
           = Some (Ok (VObj Counter), B_compiled).
Proof.
  assert (dom (publicInstancesMap empty_registry) ⊆ dom (heap B_start)) as Hdom.
  { by_evaluation. }
  split_and!; [vm_compute; reflexivity|vm_compute; reflexivity|reflexivity|
               reflexivity|exact Hdom|vm_compute; reflexivity|].
  apply (X10_builder_translators_know_classes demo_I builder Counter B_start
           empty_registry (VObj BFacade) B_compiled);
    [vm_compute; reflexivity|vm_compute; reflexivity|reflexivity|
     reflexivity|exact Hdom|vm_compute; reflexivity].
Defined.

(** ** The members of a façade, in full *)

Lemma is_callable_evolves W st st' v :
  evolves W st st' → is_callable st v = true → is_callable st' v = true.
Proof.
  intros Hev. destruct v; simpl; try done.
  rewrite !bool_decide_eq_true. intros [c Hc]. exists c. by eapply evolves_code.
Qed.

(** The descriptor of steps 2.3-2.4 and 3.3-3.4, for every property. *)
Lemma synthesize_spec mk pp W st0 st :
  evolves W st0 st →
  ∃ d st1, synthesize mk pp st = Some (Ok d, st1) ∧ extends st st1
    ∧ d_enumerable d = flag (p_enumerable pp)
    ∧ d_configurable d = flag (p_configurable pp)
    ∧ ∀ s, expected mk st0 pp = Some s → desc_for st1 d s.
Proof.
  intros Hev. unfold synthesize, expected.
  set (base := if p_enumerable pp then _ else _).
  assert (d_enumerable base = flag (p_enumerable pp)
          ∧ d_configurable base = flag (p_configurable pp)
          ∧ d_value base = None ∧ d_writable base = None
          ∧ d_get base = None ∧ d_set base = None) as (He & Hc & Hv & Hw & Hg & Hs).
  { subst base. by destruct (p_enumerable pp), (p_configurable pp). }
  clearbody base.
  destruct (to_boolean (p_get pp)) eqn:Hget, (to_boolean (p_set pp)) eqn:Hset;
    cbn [orb].
  - destruct (make_function_spec (mk_getter mk pp) 0 st) as (f & st1 & Hf & Hext & _ & Hcf).
    rewrite (bind_ok _ _ _ _ _ (bind_ok _ _ _ _ _ Hf)). unfold ret at 1.
    destruct (make_function_spec (mk_setter mk pp) 1 st1)
      as (f' & st2 & Hf' & Hext' & _ & Hcf').
    rewrite (bind_ok _ _ _ _ _ Hf'). eexists _, st2.
    split; [done|]. split; [by eapply extends_trans|]. split_and!; [done..|].
    intros s [= <-]. simpl. split_and!; [done..| |].
    + exists f. split; [done|]. by eapply extends_code.
    + by exists f'.
  - destruct (make_function_spec (mk_getter mk pp) 0 st) as (f & st1 & Hf & Hext & _ & Hcf).
    rewrite (bind_ok _ _ _ _ _ (bind_ok _ _ _ _ _ Hf)). unfold ret.
    eexists _, st1. split; [done|]. split_and!; [done..|].
    intros s [= <-]. simpl. split_and!; [done..| |done]. by exists f.
  - unfold bind at 1, ret at 1.
    destruct (make_function_spec (mk_setter mk pp) 1 st)
      as (f' & st2 & Hf' & Hext' & _ & Hcf').
    rewrite (bind_ok _ _ _ _ _ Hf'). unfold ret.
    eexists _, st2. split; [done|]. split_and!; [done..|].
    intros s [= <-]. simpl. split_and!; [done..|]. by exists f'.
  - set (base' := if p_writable pp then _ else _).
    assert (d_enumerable base' = flag (p_enumerable pp)
            ∧ d_configurable base' = flag (p_configurable pp)
            ∧ d_value base' = None ∧ d_writable base' = flag (p_writable pp)
            ∧ d_get base' = None ∧ d_set base' = None)
      as (He' & Hc' & Hv' & Hw' & Hg' & Hs').
    { subst base'. by destruct (p_writable pp). }
    clearbody base'. unfold bind at 1, gets at 1.
    destruct (is_callable st0 (p_value pp)) eqn:Hcall.
    + rewrite (typeof_callable _ _ (is_callable_evolves _ _ _ _ Hev Hcall)).
      destruct (make_function_spec (mk_method mk pp) 0 st)
        as (f & st1 & Hf & Hext & _ & Hcf).
      rewrite (bind_ok _ _ _ _ _ Hf). unfold ret.
      eexists _, st1. split; [done|]. split_and!; [done..|].
      intros s [= <-]. simpl. split_and!; [done..|]. by exists f.
    + destruct (non_function st0 (p_value pp) && negb (p_writable pp)) eqn:Hplain.
      * apply andb_true_iff in Hplain as [Hnf Hnw].
        rewrite (non_function_typeof _ _ (non_function_evolves _ _ _ _ Hev Hnf)).
        destruct (make_function_spec (mk_value mk pp) 0 st)
          as (f & st1 & Hf & Hext & _ & Hcf).
        rewrite (bind_ok _ _ _ _ _ Hf). unfold ret.
        eexists _, st1. split; [done|]. split_and!; [done..|].
        intros s [= <-]. simpl. split_and!; [done| |by exists f|done].
        rewrite Hw'. by destruct (p_writable pp).
      * destruct (String.eqb (typeof st (p_value pp)) "function").
        -- destruct (make_function_spec (mk_method mk pp) 0 st)
             as (f & st1 & Hf & Hext & _ & Hcf).
           rewrite (bind_ok _ _ _ _ _ Hf). unfold ret.
           eexists _, st1. by split_and!.
        -- destruct (make_function_spec (mk_value mk pp) 0 st)
             as (f & st1 & Hf & Hext & _ & Hcf).
           rewrite (bind_ok _ _ _ _ _ Hf). unfold ret.
           eexists _, st1. by split_and!.
Qed.

Lemma default_flag b0 b : default b0 (flag b) = b || b0.
Proof. by destruct b. Qed.

Lemma expected_well_shaped mk st pp :
  expected mk st pp ≠ Some (AccessorShape None None).
Proof.
  unfold expected.
  destruct (to_boolean (p_get pp)), (to_boolean (p_set pp)); simpl; try done.
  destruct (is_callable st (p_value pp)); [done|].
  by destruct (non_function st (p_value pp) && negb (p_writable pp)).
Qed.

Lemma opt_closure_callable st o c :
  opt_closure st o c → callable_or_undefined st o = true.
Proof.
  destruct c as [code|]; simpl; [|by intros ->].
  intros (f & -> & Hf). simpl. apply bool_decide_eq_true. by eexists.
Qed.

Lemma define_result_flags oX key d pre e c :
  initial (assoc key (o_props oX)) pre →
  d_enumerable d = flag e → d_configurable d = flag c →
  p_enumerable (define_result oX key d) = e
  ∧ p_configurable (define_result oX key d) = c || pre.
Proof.
  intros Hinit He Hc. unfold define_result, apply_desc, property_of_desc.
  rewrite He, Hc.
  destruct Hinit as [[-> ->]|(v0 & -> & ->)]; destruct (desc_is_accessor d); simpl;
    by rewrite !default_flag, ?orb_false_r, ?orb_true_r.
Qed.

(** [Object.defineProperty] with such a descriptor, on a key the class
    definition has left free or configurable. *)
Lemma defineProperty_initial X key d st oX pre s :
  heap st !! X = Some oX → o_extensible oX = true →
  initial (assoc key (o_props oX)) pre →
  s ≠ AccessorShape None None →
  desc_for st d s →
  ∃ st', defineProperty (VObj X) key d st = Some (Ok tt, st')
    ∧ has_shape st' (define_result oX key d) s.
Proof.
  intros HX Hext Hinit Hws Hd.
  assert (desc_well_formed st d = true) as Hwf.
  { unfold desc_well_formed, desc_is_accessor, desc_is_data.
    destruct s as [g s'|m w]; simpl in Hd.
    - destruct Hd as (-> & -> & Hg & Hs).
      rewrite (opt_closure_callable _ _ _ Hg), (opt_closure_callable _ _ _ Hs).
      simpl. by rewrite andb_false_r.
    - destruct Hd as (-> & -> & _ & _). done. }
  assert (∃ o', validate_and_apply oX key d = Some o') as [o' Ho'].
  { unfold validate_and_apply.
    destruct Hinit as [[-> _]|(v0 & -> & _)]; [rewrite Hext|]; by eexists. }
  assert (defineProperty (VObj X) key d st
          = Some (Ok tt, set_heap (<[X := o']> (heap st)) st)) as Hdef.
  { unfold defineProperty. by rewrite HX, Hwf, Ho'. }
  eexists. split; [exact Hdef|].
  assert (∀ o c0, opt_closure st o c0 →
            closure_is (set_heap (<[X := o']> (heap st)) st) (default VUndef o) c0)
    as Hcl.
  { intros o [code|]; [|by intros ->].
    intros (f & -> & Hf). exists f. split; [done|].
    by eapply defineProperty_code. }
  unfold define_result, apply_desc, property_of_desc, desc_is_accessor.
  destruct s as [g s'|m w]; simpl in Hd.
  - destruct Hd as (Hv & Hw & Hg & Hs).
    assert (bool_decide (is_Some (d_get d)) || bool_decide (is_Some (d_set d)) = true)
      as ->.
    { destruct g as [cg|]; [|destruct s' as [cs|]; [|done]].
      - destruct Hg as (f & -> & _). done.
      - destruct Hs as (f & -> & _). apply orb_true_r. }
    destruct Hinit as [[-> _]|(v0 & -> & _)]; simpl; split; by apply Hcl.
  - destruct Hd as (Hg & Hs & Hw & Hv). rewrite Hg, Hs. simpl.
    destruct Hinit as [[-> _]|(v0 & -> & _)]; simpl; rewrite Hw, default_flag.
    + split; [by apply (Hcl (d_value d) (Some m))|by rewrite orb_false_r].
    + split; [|by rewrite orb_false_r].
      destruct Hv as (f & Hf1 & Hf2). rewrite Hf1. simpl.
      exists f. split; [done|]. by eapply defineProperty_code.
Qed.

Lemma defineProperty_throws O k d st e st' :
  defineProperty O k d st = Some (Throw e, st') → e = TypeError ∧ st' = st.
Proof.
  unfold defineProperty. destruct O as [| | | | | |l]; try by intros [= <- <-].
  destruct (heap st !! l); [|by intros [= <- <-]].
  destruct (desc_well_formed st d); [|by intros [= <- <-]].
  destruct (validate_and_apply _ _ _); [done|by intros [= <- <-]].
Qed.

Lemma defineProperty_extensible l k d st st' X :
  defineProperty (VObj l) k d st = Some (Ok tt, st') →
  extensible st X → extensible st' X.
Proof.
  intros (l0 & o & [= <-] & Ho & _ & ->)%defineProperty_ok (oX & HX & Hext).
  unfold extensible. simpl.
  destruct (decide (l = X)) as [->|Hne].
  - rewrite lookup_insert_eq. eexists. split; [done|]. simpl. congruence.
  - rewrite lookup_insert_ne by done. by exists oX.
Qed.

Lemma closure_is_evolves W st st' v c :
  evolves W st st' → closure_is st v c → closure_is st' v c.
Proof.
  intros Hev. destruct c as [code|]; simpl; [|done].
  intros (f & -> & Hf). exists f. split; [done|]. by eapply evolves_code.
Qed.

Lemma has_shape_evolves W st st' p s :
  evolves W st st' → has_shape st p s → has_shape st' p s.
Proof.
  intros Hev. destruct s, p; simpl; try done.
  - intros (? & ?). split; by eapply closure_is_evolves.
  - intros (? & ?). split; [|done].
    by apply (closure_is_evolves W st st' _ (Some method)).
Qed.

Lemma member_installed_stable W mk st0 pre pp st st' X key :
  evolves W st st' → own_prop st' X key = own_prop st X key →
  member_installed mk st0 pre pp st X key →
  member_installed mk st0 pre pp st' X key.
Proof.
  intros Hev Hown (p & Hp & He & Hc & Hs). exists p. rewrite Hown.
  split_and!; [done..|].
  intros s Hexp. eapply has_shape_evolves; [done|by apply Hs].
Qed.

Lemma sat_both {A} (r : option (Outcome A * State)) ok1 ok2 err1 err2 :
  sat r ok1 err1 → sat r ok2 err2 →
  sat r (λ x st, ok1 x st ∧ ok2 x st) (λ e st, err1 e st ∧ err2 e st).
Proof. by destruct r as [[[x|e] st1]|]. Qed.

Section Loop.
Context (skip : string) (source target : M Value) (mk : Makers).
Context (S X : loc) (W : gset loc) (st0 : State) (Inv : State → Prop).
Context (pre : PropKey → bool).
Hypothesis Inv_source : ∀ st, Inv st → source st = Some (Ok (VObj S), st).
Hypothesis Inv_target :
  ∀ st st1, Inv st → extends st st1 → target st1 = Some (Ok (VObj X), st1).
Hypothesis Inv_S : ∀ st k, Inv st → own_prop st S k = own_prop st0 S k.
Hypothesis Inv_evolves : ∀ st, Inv st → evolves W st0 st.
Hypothesis Inv_round :
  ∀ key st, Inv st →
    sat (transfer skip source target mk key st)
        (λ _ st', Inv st') (λ e _, e = TypeError).

(** One round, for a key that is not skipped. *)
Lemma round_spec key st pp :
  Inv st → extensible st X → is_skipped skip key = false →
  own_prop st0 S key = Some pp →
  initial (own_prop st X key) (pre key) →
  sat (transfer skip source target mk key st)
      (λ _ st', Inv st' ∧ extensible st' X ∧ evolves {[X]} st st'
                ∧ (∀ k, k ≠ key → own_prop st' X k = own_prop st X k)
                ∧ member_installed mk st0 (pre key) pp st' X key)
      (λ e st', e = TypeError ∧ extends st st' ∧ expected mk st0 pp = None).
Proof.
  intros HI (oX & HX & HextX) Hskip Hpp Hinit.
  pose proof (Inv_round key st HI) as H1.
  pose proof (transfer_sat skip source target mk key st S X
                (λ _, Inv_source st HI) (λ st1, Inv_target st st1 HI)
                (ex_intro _ oX HX)) as H2.
  destruct (synthesize_spec mk pp W st0 st (Inv_evolves st HI))
    as (d & st1 & Hd & Hext & He & Hc & Hshape).
  assert (transfer skip source target mk key st
          = defineProperty (VObj X) key d st1) as Heq.
  { rewrite (transfer_exposed _ _ _ _ _ _ S) by auto.
    rewrite (Inv_S st key HI), Hpp.
    by rewrite (bind_ok _ _ _ _ _ Hd), (bind_ok _ _ _ _ _ (Inv_target st st1 HI Hext)). }
  rewrite Heq in *. clear Heq.
  pose proof (extends_lookup _ _ _ _ Hext HX) as HX1.
  assert (initial (assoc key (o_props oX)) (pre key)) as Hinit'.
  { unfold own_prop in Hinit. by rewrite HX in Hinit. }
  assert (∀ s, expected mk st0 pp = Some s →
            ∃ st', defineProperty (VObj X) key d st1 = Some (Ok tt, st')
              ∧ has_shape st' (define_result oX key d) s) as Hsome.
  { intros s Hs. eapply (defineProperty_initial X key d st1 oX); try done.
    - intros ->. by eapply expected_well_shaped.
    - by apply Hshape. }
  destruct (defineProperty (VObj X) key d st1) as [[[[]|e] st']|] eqn:Hdef;
    simpl in *; [| |done].
  - destruct H2 as (Hev & Hother & _). split_and!; try done.
    + eapply defineProperty_extensible; [done|]. by exists oX.
    + unfold member_installed.
      rewrite (defineProperty_own_prop_eq _ _ _ _ _ _ Hdef HX1).
      destruct (define_result_flags oX key d (pre key) _ _ Hinit' He Hc) as [E1 E2].
      eexists. split_and!; [done..|]. intros s Hs.
      by destruct (Hsome s Hs) as (st'' & [= <-] & Hsh).
  - apply defineProperty_throws in Hdef as [-> ->]. split_and!; [done..|].
    destruct (expected mk st0 pp) as [s|]; [|done].
    by destruct (Hsome s eq_refl) as (st'' & [=] & _).
Qed.

(** The whole loop, for keys that are distinct. *)
Lemma loop_spec keys :
  NoDup keys →
  (∀ k, k ∈ keys → is_Some (own_prop st0 S k)) →
  ∀ st, Inv st → extensible st X →
    (∀ k, k ∈ keys → is_skipped skip k = false →
          initial (own_prop st X k) (pre k)) →
    sat (for_of keys (transfer skip source target mk) st)
        (λ _ st', Inv st' ∧ extensible st' X ∧ evolves {[X]} st st'
           ∧ (∀ k, k ∉ keys ∨ is_skipped skip k = true →
                   own_prop st' X k = own_prop st X k)
           ∧ (∀ k pp, k ∈ keys → is_skipped skip k = false →
                own_prop st0 S k = Some pp →
                member_installed mk st0 (pre k) pp st' X k))
        (λ e st', e = TypeError
           ∧ (∃ st1, Inv st1 ∧ extends st1 st')
           ∧ ∃ k pp, k ∈ keys ∧ is_skipped skip k = false
                     ∧ own_prop st0 S k = Some pp
                     ∧ expected mk st0 pp = None).
Proof.
  induction 1 as [|x keys Hx Hnd IH]; intros Hown st HI HextX Hinit; simpl.
  { split_and!; [done..|apply evolves_refl|done|]. intros k pp Hk.
    by apply elem_of_nil in Hk. }
  apply sat_bind.
  destruct (is_skipped skip x) eqn:Hskip.
  - rewrite transfer_skipped by done. simpl.
    eapply sat_mono; [| |apply (IH (λ k Hk, Hown k (list_elem_of_further _ _ _ Hk))
                                   st HI HextX)].
    + intros _ st' (HI' & HX' & Hev & Hother & Hmem). split_and!; [done..| |].
      * intros k [Hk|Hk]; apply Hother; [left|by right].
        intros Hin. apply Hk. by right.
      * intros k pp [->|Hk]%elem_of_cons Hsk; [congruence|]. by apply Hmem.
    + intros e st' (-> & Hst1 & k & pp & Hk & ?). split_and!; [done..|].
      exists k, pp. split; [by right|done].
    + intros k Hk. apply Hinit. by right.
  - destruct (Hown x) as [pp Hpp]; [by left|].
    eapply sat_mono; [| |apply (round_spec x st pp)]; try done; simpl.
    + intros _ st1 (HI1 & HX1 & Hev1 & Hother1 & Hmem1).
      eapply sat_mono; [| |apply (IH (λ k Hk, Hown k (list_elem_of_further _ _ _ Hk))
                                     st1 HI1 HX1)].
      * intros _ st' (HI' & HX' & Hev & Hother & Hmem). split_and!; [done| | | |].
        -- done.
        -- by eapply evolves_trans.
        -- intros k [Hk|Hk].
           ++ rewrite Hother, Hother1; [done| |left]; intros ?; apply Hk;
                [subst; by left|by right].
           ++ rewrite Hother by (by right). apply Hother1. congruence.
        -- intros k pp' [->|Hk]%elem_of_cons Hsk Hpp'.
           ++ assert (pp' = pp) as -> by congruence.
              eapply member_installed_stable; [done| |done].
              apply Hother. by left.
           ++ by apply Hmem.
      * intros e st' (-> & Hst1 & k & pp' & Hk & ?). split_and!; [done..|].
        exists k, pp'. split; [by right|done].
      * intros k Hk Hsk. rewrite Hother1 by (intros ->; done).
        apply Hinit; [by right|done].
    + intros e st' (-> & Hext & Hnone). split_and!; [done|by exists st|].
      exists x, pp. split_and!; [by left|done..].
    + apply Hinit; [by left|done].
Qed.
End Loop.

Lemma elem_of_assoc k (ps : list (PropKey * Property)) :
  k ∈ ps.*1 → is_Some (assoc k ps).
Proof.
  induction ps as [|[k' p'] ps IH]; simpl; [by intros ?%elem_of_nil|].
  destruct (decide (k = k')) as [->|Hne]; [by eexists|].
  intros [?|?]%elem_of_cons; [done|auto].
Qed.

Lemma is_skipped_static k : is_skipped "prototype" k = negb (exposed_key TypeLevel k).
Proof.
  destruct k as [name|]; simpl; [|done]. unfold exposed_static.
  by destruct (startsWith name "_"), (String.eqb name "prototype").
Qed.

Lemma is_skipped_proto k :
  is_skipped "constructor" k = negb (exposed_key InstanceLevel k).
Proof.
  destruct k as [name|]; simpl; [|done]. unfold exposed_proto.
  by destruct (startsWith name "_"), (String.eqb name "constructor").
Qed.

Lemma assoc_initial_keys ctor F P g lv k :
  is_Some (assoc k (o_props (match lv with
                             | TypeLevel => PublicClass_object ctor P g
                             | InstanceLevel => PublicClass_prototype_object F
                             end)))
  ↔ k ∈ initial_keys lv.
Proof.
  destruct lv; simpl.
  - repeat (destruct (decide _) as [->|?]);
      rewrite ?elem_of_cons, ?elem_of_nil; split; intros H;
      try (by eexists); try (by destruct H); try tauto.
  - destruct (decide _) as [->|?]; rewrite ?elem_of_cons, ?elem_of_nil;
      split; intros H; try (by eexists); try (by destruct H); try tauto.
Qed.

Lemma initial_static ctor Pp g k :
  exposed_key TypeLevel k = true →
  initial (assoc k (o_props (PublicClass_object ctor Pp g))) (preset TypeLevel k).
Proof.
  destruct k as [name|]; [|done]. simpl. unfold exposed_static.
  intros [Hu Hp]%andb_true_iff.
  destruct (decide (KStr name = KStr "length")) as [[= ->]|H1].
  { right. by eexists. }
  destruct (decide (KStr name = KStr "name")) as [[= ->]|H2].
  { right. by eexists. }
  destruct (decide (KStr name = KStr "prototype")) as [[= ->]|H3]; [done|].
  destruct (decide (KStr name = KStr "_get")) as [[= ->]|H4]; [done|].
  left. split; [done|].
  apply orb_false_iff. split; apply String.eqb_neq; congruence.
Qed.

Lemma initial_proto F k :
  exposed_key InstanceLevel k = true →
  initial (assoc k (o_props (PublicClass_prototype_object F)))
          (preset InstanceLevel k).
Proof.
  destruct k as [name|]; [|done]. simpl. unfold exposed_proto.
  intros [Hu Hp]%andb_true_iff.
  destruct (decide (KStr name = KStr "constructor")) as [[= ->]|H1]; [done|].
  by left.
Qed.

(** The keys an object has after a loop. *)
Lemma keys_after_loop lv (init : PropKey → option Property) st0 S oS st' X :
  heap st0 !! S = Some oS →
  (∀ k, is_Some (init k) ↔ k ∈ initial_keys lv) →
  (∀ k, k ∉ (o_props oS).*1 ∨ exposed_key lv k = false → own_prop st' X k = init k) →
  (∀ k, k ∈ (o_props oS).*1 → exposed_key lv k = true → is_Some (own_prop st' X k)) →
  ∀ k, is_Some (own_prop st' X k)
       ↔ k ∈ initial_keys lv ∨ (exposed_key lv k = true ∧ is_Some (own_prop st0 S k)).
Proof.
  intros HS Hinit Hother Hmem k.
  assert (is_Some (own_prop st0 S k) ↔ k ∈ (o_props oS).*1) as Hin.
  { unfold own_prop. rewrite HS. simpl. split.
    - intros [p Hp]. by eapply assoc_elem_of.
    - apply elem_of_assoc. }
  destruct (exposed_key lv k) eqn:Hex.
  - destruct (decide (k ∈ (o_props oS).*1)) as [Hk|Hk].
    + split; [intros _; right; by rewrite Hin|intros _; by apply Hmem].
    + rewrite Hother by (by left). rewrite Hinit, Hin. split; [auto|].
      by intros [?|[_ ?]].
  - rewrite Hother by (by right). rewrite Hinit. split; [auto|].
    by intros [?|[? _]].
Qed.

Section Built.
Context {B : Type} (I : Interp) (ctor : Code) (getter : loc → Code).
Context (statics protos : Makers) (T : loc) (rest : loc → M B).
Context (st0 : State) (oT oTp : Obj) (Tp : loc) (w e c : bool).
Hypothesis T_old : heap st0 !! T = Some oT.
Hypothesis Tp_old : heap st0 !! Tp = Some oTp.
Hypothesis T_prototype :
  own_prop st0 T (KStr "prototype") = Some (PData (VObj Tp) w e c).
Hypothesis T_keys : NoDup (ownKeys st0 T).
Hypothesis Tp_keys : NoDup (ownKeys st0 Tp).

(** A construction ends with the façade built in full, or with a
    TypeError for a member that cannot be exposed. *)
Lemma build_with_built (ok : B → State → Prop) (err : Exn → State → Prop) :
  (∀ P Pp st,
     building st0 ctor getter P Pp st →
     built (level_makers statics protos) st0 T Tp P Pp st →
     sat (rest P st) ok err) →
  (∀ P Pp st1 st,
     building st0 ctor getter P Pp st1 → extends st1 st →
     unexposable (level_makers statics protos) st0 T Tp →
     err TypeError st) →
  sat (build_with I ctor getter statics protos T rest st0) ok err.
Proof.
  intros Hrest Herr.
  destruct (build_with_start I ctor getter statics protos T rest st0 oT T_old)
    as (P & Pp & g & st1 & Hb & HP & HPp & Hext01 & ->).
  assert (ownKeys st0 T = (o_props oT).*1) as EkT.
  { unfold ownKeys. by rewrite T_old. }
  assert (ownKeys st0 Tp = (o_props oTp).*1) as EkTp.
  { unfold ownKeys. by rewrite Tp_old. }
  assert (∀ k, own_prop st1 P k = assoc k (o_props (PublicClass_object ctor Pp g)))
    as EP by (intros k; unfold own_prop; by rewrite HP).
  assert (∀ k, own_prop st1 Pp k = assoc k (o_props (PublicClass_prototype_object P)))
    as EPp by (intros k; unfold own_prop; by rewrite HPp).
  pose proof (bd_distinct _ _ _ _ _ _ Hb) as Hne.
  apply sat_bind.
  eapply sat_mono;
    [| |apply (loop_spec "prototype" (ret (VObj T)) (ret (VObj P)) statics T P
                 {[P; Pp]} st0 (building st0 ctor getter P Pp) (preset TypeLevel))
          with (keys := (o_props oT).*1) (st := st1)]; simpl.
  - (* the keys of the class are done *)
    intros _ st2 (Hb2 & HX2 & Hev2 & Hother2 & Hmem2).
    rewrite (build_tail_eq I ctor getter protos T rest st0 oT T_old P Pp st2
               _ _ _ _ T_prototype Hb2).
    pose proof (building_T st0 ctor getter Tp P Pp oTp Tp_old st2 Hb2) as HTp2.
    assert (ownKeys st2 Tp = (o_props oTp).*1) as ->.
    { unfold ownKeys. by rewrite HTp2. }
    assert (∀ k, own_prop st2 Pp k = own_prop st1 Pp k) as EPp2.
    { intros k. apply (evolves_own_prop {[P]}); [done| |by rewrite HPp].
      intros ?%elem_of_singleton. congruence. }
    apply sat_bind.
    eapply sat_mono;
      [| |apply (loop_spec "constructor" (Get I (VObj T) (KStr "prototype"))
                   (Get I (VObj P) (KStr "prototype")) protos Tp Pp
                   {[P; Pp]} st0 (building st0 ctor getter P Pp)
                   (preset InstanceLevel))
            with (keys := (o_props oTp).*1) (st := st2)]; simpl.
    + (* the keys of the prototype are done *)
      intros _ st3 (Hb3 & HX3 & Hev3 & Hother3 & Hmem3).
      assert (∀ k, own_prop st3 P k = own_prop st2 P k) as EP3.
      { intros k. apply (evolves_own_prop {[Pp]}); [done| |].
        - intros ?%elem_of_singleton. congruence.
        - by eapply code_in_heap, bd_code. }
      apply (Hrest P Pp st3 Hb3). split.
      * intros [|] k; simpl.
        -- rewrite EP3.
           apply (keys_after_loop TypeLevel
                    (λ k, assoc k (o_props (PublicClass_object ctor Pp g)))
                    st0 T oT st2 P T_old).
           ++ intros k'. apply (assoc_initial_keys ctor P Pp g TypeLevel).
           ++ intros k' Hk'. rewrite <- EP. apply Hother2.
              rewrite is_skipped_static. destruct Hk' as [?|Hk2]; [by left|right; by rewrite Hk2].
           ++ intros k' Hk' Hex.
              destruct (elem_of_assoc _ _ Hk') as [pp Hpp].
              destruct (Hmem2 k' pp) as (p & Hp & _); [done| | |by eexists].
              ** by rewrite is_skipped_static, Hex.
              ** unfold own_prop. by rewrite T_old.
        -- apply (keys_after_loop InstanceLevel
                    (λ k, assoc k (o_props (PublicClass_prototype_object P)))
                    st0 Tp oTp st3 Pp Tp_old).
           ++ intros k'. apply (assoc_initial_keys ctor P Pp g InstanceLevel).
           ++ intros k' Hk'. rewrite <- EPp, <- EPp2. apply Hother3.
              rewrite is_skipped_proto. destruct Hk' as [?|Hk2]; [by left|right; by rewrite Hk2].
           ++ intros k' Hk' Hex.
              destruct (elem_of_assoc _ _ Hk') as [pp Hpp].
              destruct (Hmem3 k' pp) as (p & Hp & _); [done| | |by eexists].
              ** by rewrite is_skipped_proto, Hex.
              ** unfold own_prop. by rewrite Tp_old.
      * intros [|] k pp Hex Hpp; simpl in *.
        -- eapply member_installed_stable; [exact Hev3|apply EP3|].
           apply Hmem2; [|by rewrite is_skipped_static, Hex|done].
           rewrite <- EkT. unfold ownKeys. rewrite T_old.
           unfold own_prop in Hpp. rewrite T_old in Hpp. by eapply assoc_elem_of.
        -- apply Hmem3; [|by rewrite is_skipped_proto, Hex|done].
           unfold own_prop in Hpp. rewrite Tp_old in Hpp. by eapply assoc_elem_of.
    + intros err0 st3 (-> & (st' & Hb' & Hext') & k & pp & Hk & Hsk & Hpp & Hnone).
      apply (Herr P Pp st' st3 Hb' Hext').
      exists InstanceLevel, k, pp. split_and!; [|done..].
      rewrite is_skipped_proto in Hsk. by destruct (exposed_key InstanceLevel k).
    + intros st Hst. eapply Get_own_data. unfold own_prop in *.
      rewrite (building_T st0 ctor getter T P Pp oT T_old st Hst).
      by rewrite T_old in T_prototype.
    + intros st st' Hst Hext. eapply Get_own_data.
      pose proof (bd_prototype _ _ _ _ _ _ Hst) as Hp. unfold own_prop in *.
      destruct (heap st !! P) as [oP|] eqn:HPst; [|done].
      by rewrite (extends_lookup _ _ _ _ Hext HPst).
    + intros st k Hst. unfold own_prop.
      by rewrite (building_T st0 ctor getter Tp P Pp oTp Tp_old st Hst), Tp_old.
    + intros st Hst. apply (bd_evolves _ _ _ _ _ _ Hst).
    + intros key st Hst.
      by apply (building_proto_round I st0 ctor getter T P Pp oT T_old protos
                  key st Tp w e c).
    + by rewrite <- EkTp.
    + intros k Hk. by apply elem_of_assoc in Hk; unfold own_prop; rewrite Tp_old.
    + done.
    + exists (PublicClass_prototype_object P). split; [|done].
      apply (ev_old _ _ _ Hev2); [|done]. intros ?%elem_of_singleton. congruence.
    + intros k Hk Hsk. rewrite EPp2, EPp. apply initial_proto.
      rewrite is_skipped_proto in Hsk. by destruct (exposed_key InstanceLevel k).
  - intros err0 st2 (-> & (st' & Hb' & Hext') & k & pp & Hk & Hsk & Hpp & Hnone).
    apply (Herr P Pp st' st2 Hb' Hext').
    exists TypeLevel, k, pp. split_and!; [|done..].
    rewrite is_skipped_static in Hsk. by destruct (exposed_key TypeLevel k).
  - done.
  - done.
  - intros st k Hst. unfold own_prop.
    by rewrite (building_T st0 ctor getter T P Pp oT T_old st Hst), T_old.
  - intros st Hst. apply (bd_evolves _ _ _ _ _ _ Hst).
  - intros key st Hst.
    by apply (building_static_round st0 ctor getter T P Pp oT T_old statics key st).
  - by rewrite <- EkT.
  - intros k Hk. by apply elem_of_assoc in Hk; unfold own_prop; rewrite T_old.
  - done.
  - by exists (PublicClass_object ctor Pp g).
  - intros k Hk Hsk. rewrite EP. apply initial_static.
    rewrite is_skipped_static in Hsk. by destruct (exposed_key TypeLevel k).
Qed.
End Built.

(** [getPublicClass] of either module, for a class that is not in the map
    yet and whose keys are distinct. *)
Lemma compile_built I sc st reg T Tp w e c :
  registry sc st = Some reg →
  is_class st T = true →
  privateClassesMap reg !! T = None →
  own_prop st T (KStr "prototype") = Some (PData (VObj Tp) w e c) →
  is_Some (heap st !! Tp) →
  NoDup (ownKeys st T) → NoDup (ownKeys st Tp) →
  sat (compile I sc (VObj T) st)
      (λ res st', ∃ P Pp ctor getter st1,
         res = VObj P
         ∧ building st ctor getter P Pp st1
         ∧ heap st' = heap st1
         ∧ built (scope_makers sc st T) st T Tp P Pp st1)
      (λ e _, e = TypeError ∧ unexposable (scope_makers sc st T) st T Tp).
Proof.
  intros Hreg Hcl Hnew Hp [oTp HTp] HkT HkTp.
  destruct (is_class_inv _ _ Hcl) as (oT & _ & _ & _ & _ & HT & _).
  unfold scope_makers. destruct sc as [|b]; simpl in Hreg.
  - injection Hreg as <-. simpl. unfold Utility.getPublicClass.
    rewrite (bind_ok _ _ _ _ _ (U_rejects_class I _ _ Hcl)).
    unfold bind at 1, gets at 1. simpl.
    rewrite bool_decide_eq_false_2 by (rewrite Hnew; by intros [? ?]).
    rewrite U_build_eq.
    eapply (build_with_built I _ _ _ _ T _ st oT oTp Tp w e c); try done.
    intros P Pp st1 Hb Hbuilt. unfold closure_update, modify, bind, ret. simpl.
    by exists P, Pp, (UPublicClass T), U_get, st1.
  - destruct (_privateMap st !! b) as [r|] eqn:Hb; [|done]. simpl in Hreg.
    simpl. unfold PublicClassBuilder.getPublicClass.
    unfold bind at 1, _privateMap_get at 1, gets at 1. rewrite Hb.
    rewrite (bind_ok _ _ _ _ _ (B_rejects_class I _ _ Hcl)).
    unfold bind at 1, field at 1. simpl. rewrite Hreg. simpl.
    rewrite bool_decide_eq_false_2 by (rewrite Hnew; by intros [? ?]).
    apply sat_bind. rewrite B_build_eq, Hb.
    eapply (build_with_built I _ _ _ _ T _ st oT oTp Tp w e c); try done.
    intros P Pp st1 Hbd Hbuilt.
    destruct (ev_registry _ _ _ (bd_evolves _ _ _ _ _ _ Hbd)) as (Hc & Hm & Hps).
    unfold Map_set, field_update, bind, ret. simpl. rewrite Hps, Hreg. simpl.
    rewrite lookup_insert_eq. simpl.
    by exists P, Pp, (BPublicClass (Some r) T), (B_get (Some r)), st1.
Qed.

(** X11: the façade [compile] builds for a class has, as own keys, the
    four keys of its class definition ([length], [name], [prototype],
    [_get]) and every exposed own key of the implementation class, and no
    other key; its prototype object has [constructor] and every exposed
    own key of the prototype object of the implementation, and no other
    key.  Symbols, names that start with an underscore and the skipped
    names are not copied, and nothing exposed is left out. *)
Theorem X11_facade_has_exactly_the_exposed_keys I sc st reg T Tp w e c P st' :
  registry sc st = Some reg →
  is_class st T = true →
  privateClassesMap reg !! T = None →
  own_prop st T (KStr "prototype") = Some (PData (VObj Tp) w e c) →
  is_Some (heap st !! Tp) →
  NoDup (ownKeys st T) → NoDup (ownKeys st Tp) →
  compile I sc (VObj T) st = Some (Ok (VObj P), st') →
  ∃ Pp,
    own_prop st' P (KStr "prototype") = Some (PData (VObj Pp) false false false)
    ∧ ∀ lv k,
        is_Some (own_prop st' (level_object lv P Pp) k)
        ↔ k ∈ initial_keys lv
          ∨ (exposed_key lv k = true
             ∧ is_Some (own_prop st (level_object lv T Tp) k)).
Proof.
  intros Hreg Hcl Hnew Hp HTp HkT HkTp Hc.
  pose proof (compile_built I sc st reg T Tp w e c Hreg Hcl Hnew Hp HTp HkT HkTp)
    as Hs.
  rewrite Hc in Hs.
  destruct Hs as (P0 & Pp & ctor & getter & st1 & [= <-] & Hb & Hh & Hbuilt).
  exists Pp. split.
  - rewrite (own_prop_heap st1) by done. apply (bd_prototype _ _ _ _ _ _ Hb).
  - intros lv k. rewrite (own_prop_heap st1) by done.
    apply (bt_keys _ _ _ _ _ _ _ Hbuilt).
Qed.

(** X12: in [Utility.js], for an exposed accessor of the class or of its
    prototype, the façade has an accessor under the same name with the
    same enumerability; it has a getter exactly when the implementation has
    one, and a setter exactly when the implementation has one.  The getter
    calls the getter of the implementation, on the implementation class
    (for a member of the class) or on the instance bound to its receiver
    (for a member of the prototype), and translates the result to the
    public side; the setter translates its argument to the private side
    and calls the setter of the implementation with it, on the same
    receiver, and returns [undefined]. *)
Theorem X12_accessors_are_forwarded I lv st T Tp w e c name g s e1 c1 P st' :
  is_class st T = true →
  privateClassesMap (closure st) !! T = None →
  own_prop st T (KStr "prototype") = Some (PData (VObj Tp) w e c) →
  is_Some (heap st !! Tp) →
  NoDup (ownKeys st T) → NoDup (ownKeys st Tp) →
  exposed lv name = true →
  own_prop st (level_object lv T Tp) (KStr name) = Some (PAccessor g s e1 c1) →
  to_boolean g || to_boolean s = true →
  compile I ProcessWide (VObj T) st = Some (Ok (VObj P), st') →
  ∃ Pp g' s' c',
    own_prop st' P (KStr "prototype") = Some (PData (VObj Pp) false false false)
    ∧ own_prop st' (level_object lv P Pp) (KStr name)
      = Some (PAccessor g' s' e1 c')
    ∧ (if to_boolean g then is_callable st' g' = true else g' = VUndef)
    ∧ (if to_boolean s then is_callable st' s' = true else s' = VUndef)
    ∧ ∀ host I' st2 this args f,
        code_of st2 f = code_of st' f →
        (lv = InstanceLevel → has (publicInstancesMap (closure st2)) this = true) →
        (g' = VObj f →
         call_step host I' f this args st2
         = forward_get I' g (receiver_of lv T st2 this) st2)
        ∧ (s' = VObj f →
           call_step host I' f this args st2
           = forward_set I' s (receiver_of lv T st2 this) args st2).
Proof.
  intros Hcl Hnew Hp HTp HkT HkTp Hex Hown Hacc Hc.
  pose proof (compile_built I ProcessWide st (closure st) T Tp w e c eq_refl
                Hcl Hnew Hp HTp HkT HkTp) as Hs.
  rewrite Hc in Hs.
  destruct Hs as (P0 & Pp & ctor & getter & st1 & [= <-] & Hb & Hh & Hbuilt).
  destruct (bt_members _ _ _ _ _ _ _ Hbuilt lv (KStr name) _ Hex Hown)
    as (p & Hpown & He & _ & Hshape).
  specialize (Hshape _ ltac:(unfold expected; simpl; by rewrite Hacc)).
  destruct p as [|g' s' e' c']; [done|]. simpl in He. subst e'.
  destruct Hshape as [Hg Hs].
  exists Pp, g', s', c'. split_and!.
  - rewrite (own_prop_heap st1) by done. apply (bd_prototype _ _ _ _ _ _ Hb).
  - by rewrite (own_prop_heap st1).
  - destruct (to_boolean g); [|done]. destruct Hg as (f & -> & Hf).
    simpl. apply bool_decide_eq_true. unfold code_of, kind_of in *.
    rewrite Hh. by eexists.
  - destruct (to_boolean s); [|done]. destruct Hs as (f & -> & Hf).
    simpl. apply bool_decide_eq_true. unfold code_of, kind_of in *.
    rewrite Hh. by eexists.
  - intros host I' st2 this args f Hcode Hbound.
    assert (code_of st' f = code_of st1 f) as Hcode'.
    { unfold code_of, kind_of. by rewrite Hh. }
    rewrite Hcode' in Hcode. split.
    + intros ->. destruct (to_boolean g); [|done].
      destruct Hg as (f0 & [= <-] & Hf). unfold call_step. rewrite Hcode, Hf.
      destruct lv; simpl; [done|].
      unfold Utility.proto_getter, forward_get, bind at 1, gets at 1.
      by rewrite (Hbound eq_refl).
    + intros ->. destruct (to_boolean s); [|done].
      destruct Hs as (f0 & [= <-] & Hf). unfold call_step. rewrite Hcode, Hf.
      destruct lv; simpl; [done|].
      unfold Utility.proto_setter, forward_set, bind at 1, gets at 1.
      rewrite (Hbound eq_refl). cbn [negb p_set].
      destruct (filterPublicInstance (depth I') (nth 0 args VUndef) st2)
        as [[[r|err] st3]|] eqn:Hf'.
      * rewrite !(bind_ok _ _ _ _ _ Hf').
        apply filterPublicInstance_registry in Hf' as (Hcl3 & _ & _).
        unfold bind at 1, gets at 1. by rewrite Hcl3.
      * by rewrite !(bind_throw _ _ _ _ _ Hf').
      * unfold bind. by rewrite Hf'.
Qed.

(** X13: the member a façade has for an exposed member of the
    implementation (of the class or of its prototype, in either module) is
    enumerable exactly when that member is; it is configurable when that
    member is, and also when it replaces [length] or [name] of the façade
    class itself, which are configurable; a member that holds a function
    becomes a data property that is writable exactly when the member is. *)
Theorem X13_attributes_are_kept I sc st reg T Tp w e c lv k pp P st' :
  registry sc st = Some reg →
  is_class st T = true →
  privateClassesMap reg !! T = None →
  own_prop st T (KStr "prototype") = Some (PData (VObj Tp) w e c) →
  is_Some (heap st !! Tp) →
  NoDup (ownKeys st T) → NoDup (ownKeys st Tp) →
  exposed_key lv k = true →
  own_prop st (level_object lv T Tp) k = Some pp →
  compile I sc (VObj T) st = Some (Ok (VObj P), st') →
  ∃ Pp p,
    own_prop st' P (KStr "prototype") = Some (PData (VObj Pp) false false false)
    ∧ own_prop st' (level_object lv P Pp) k = Some p
    ∧ p_enumerable p = p_enumerable pp
    ∧ p_configurable p = p_configurable pp || preset lv k
    ∧ (to_boolean (p_get pp) || to_boolean (p_set pp) = false →
       is_callable st (p_value pp) = true →
       is_accessor p = false ∧ p_writable p = p_writable pp).
Proof.
  intros Hreg Hcl Hnew Hp HTp HkT HkTp Hex Hown Hc.
  pose proof (compile_built I sc st reg T Tp w e c Hreg Hcl Hnew Hp HTp HkT HkTp)
    as Hs.
  rewrite Hc in Hs.
  destruct Hs as (P0 & Pp & ctor & getter & st1 & [= <-] & Hb & Hh & Hbuilt).
  destruct (bt_members _ _ _ _ _ _ _ Hbuilt lv k _ Hex Hown)
    as (p & Hpown & He & Hcf & Hshape).
  exists Pp, p. split_and!; [| |done..|].
  - rewrite (own_prop_heap st1) by done. apply (bd_prototype _ _ _ _ _ _ Hb).
  - by rewrite (own_prop_heap st1).
  - intros Hacc Hcall.
    specialize (Hshape _ ltac:(unfold expected; by rewrite Hacc, Hcall)).
    destruct p; [|done]. by destruct Hshape as [_ ->].
Qed.

Lemma exposable_spec mk st T Tp :
  exposable (mk TypeLevel) st TypeLevel T = true →
  exposable (mk InstanceLevel) st InstanceLevel Tp = true →
  ¬ unexposable mk st T Tp.
Proof.
  intros H1 H2 (lv & k & pp & Hex & Hown & Hnone).
  assert (exposable (mk lv) st lv (level_object lv T Tp) = true) as H
    by (by destruct lv).
  unfold exposable in H. rewrite forallb_forall in H.
  specialize (H k). rewrite Hex, Hown, Hnone in H. simpl in H.
  assert (In k (ownKeys st (level_object lv T Tp))) as Hin.
  { apply list_elem_of_In. unfold ownKeys, own_prop in *.
    destruct (heap st !! _) as [o|]; [|done]. by eapply assoc_elem_of. }
  by specialize (H Hin).
Qed.

(** X14: [compile] succeeds, in either module and without any call stack,
    for every class that is not compiled yet and all of whose exposed own
    members, static and of the prototype, are accessors, functions, or
    plain values that are not writable; no code of the class is run. *)
Theorem X14_compile_succeeds I sc st reg T Tp w e c :
  registry sc st = Some reg →
  is_class st T = true →
  privateClassesMap reg !! T = None →
  own_prop st T (KStr "prototype") = Some (PData (VObj Tp) w e c) →
  is_Some (heap st !! Tp) →
  NoDup (ownKeys st T) → NoDup (ownKeys st Tp) →
  exposable (scope_makers sc st T TypeLevel) st TypeLevel T = true →
  exposable (scope_makers sc st T InstanceLevel) st InstanceLevel Tp = true →
  ∃ P st', compile I sc (VObj T) st = Some (Ok (VObj P), st')
           ∧ heap st !! P = None.
Proof.
  intros Hreg Hcl Hnew Hp HTp HkT HkTp H1 H2.
  pose proof (compile_built I sc st reg T Tp w e c Hreg Hcl Hnew Hp HTp HkT HkTp)
    as Hs.
  destruct (compile I sc (VObj T) st) as [[[res|err] st']|]; simpl in Hs; [| |done].
  - destruct Hs as (P & Pp & ctor & getter & st1 & -> & Hb & _).
    exists P, st'. split; [done|]. apply (bd_new_P _ _ _ _ _ _ Hb).
  - destruct Hs as [_ Hbad]. by destruct (exposable_spec _ _ _ _ H1 H2 Hbad).
Qed.

(** ** What [compile] leaves alone *)

Lemma transfer_throw_extends skip source target mk key st S X :
  (is_skipped skip key = false → source st = Some (Ok (VObj S), st)) →
  (∀ st1, extends st st1 → target st1 = Some (Ok (VObj X), st1)) →
  sat (transfer skip source target mk key st)
      (λ _ _, True) (λ _ st', extends st st').
Proof.
  intros Hsrc Htgt. destruct (is_skipped skip key) eqn:Hskip.
  { by rewrite transfer_skipped. }
  rewrite (transfer_exposed _ _ _ _ _ _ S) by auto.
  destruct (own_prop st S key) as [pp|]; [|apply extends_refl].
  destruct (synthesize_total mk pp st) as (d & st1 & Hd & Hext).
  rewrite (bind_ok _ _ _ _ _ Hd), (bind_ok _ _ _ _ _ (Htgt st1 Hext)).
  destruct (defineProperty _ _ _ _) as [[[[]|e] st']|] eqn:Hdef; simpl; [done| |].
  - by apply defineProperty_throws in Hdef as [_ ->].
  - pose proof (defineProperty_sat (VObj X) key d st1) as Hs. by rewrite Hdef in Hs.
Qed.

Lemma building_subseteq st0 ctor getter P Pp st :
  building st0 ctor getter P Pp st → heap st0 ⊆ heap st.
Proof.
  intros Hb. apply map_subseteq_spec. intros l o Ho.
  apply (ev_old _ _ _ (bd_evolves _ _ _ _ _ _ Hb)); [|done].
  pose proof (bd_new_P _ _ _ _ _ _ Hb). pose proof (bd_new_Pp _ _ _ _ _ _ Hb).
  apply not_elem_of_pair; congruence.
Qed.

Section Frame.
Context {B : Type} (I : Interp) (ctor : Code) (getter : loc → Code).
Context (statics protos : Makers) (T : loc) (rest : loc → M B).
Context (st0 : State) (oT : Obj).
Hypothesis T_old : heap st0 !! T = Some oT.

(** A construction that fails ends in a state of the construction, up to
    the closures made for the member that failed. *)
Lemma build_with_frame v w e c (ok : B → State → Prop) (err : Exn → State → Prop) :
  own_prop st0 T (KStr "prototype") = Some (PData v w e c) →
  (∀ P Pp st, building st0 ctor getter P Pp st → sat (rest P st) ok err) →
  (∀ P Pp st1 st,
     building st0 ctor getter P Pp st1 → extends st1 st → err TypeError st) →
  sat (build_with I ctor getter statics protos T rest st0) ok err.
Proof.
  intros HT Hrest Herr.
  destruct (build_with_start I ctor getter statics protos T rest st0 oT T_old)
    as (P & Pp & g & st1 & Hb & _ & _ & _ & ->).
  apply sat_bind.
  eapply sat_mono;
    [| |apply (for_of_sat (building st0 ctor getter P Pp)
                 (λ e st', e = TypeError
                           ∧ ∃ st2, building st0 ctor getter P Pp st2
                                    ∧ extends st2 st')); [|exact Hb]]; simpl.
  - intros _ st2 Hb2. rewrite (build_tail_eq I ctor getter protos T rest st0 oT
                                 T_old P Pp st2 v w e c HT Hb2).
    destruct v as [| | | | | |Tp];
      try (apply (Herr P Pp st2 st2 Hb2), extends_refl).
    apply sat_bind.
    eapply sat_mono;
      [| |apply (for_of_sat (building st0 ctor getter P Pp)
                   (λ e st', e = TypeError
                             ∧ ∃ st2, building st0 ctor getter P Pp st2
                                      ∧ extends st2 st')); [|exact Hb2]]; simpl.
    + intros _ st3 Hb3. by apply (Hrest P Pp).
    + intros e0 st3 (-> & st' & Hb' & Hext'). by apply (Herr P Pp st' st3).
    + intros key st Hkey Hst.
      assert (Get I (VObj T) (KStr "prototype") st = Some (Ok (VObj Tp), st)) as Hsrc.
      { eapply Get_own_data. unfold own_prop in *.
        rewrite (building_T st0 ctor getter T P Pp oT T_old st Hst).
        by rewrite T_old in HT. }
      assert (∀ st', extends st st' →
                Get I (VObj P) (KStr "prototype") st' = Some (Ok (VObj Pp), st'))
        as Htgt.
      { intros st' Hext. eapply Get_own_data.
        pose proof (bd_prototype _ _ _ _ _ _ Hst) as Hp. unfold own_prop in *.
        destruct (heap st !! P) as [oP|] eqn:HPst; [|done].
        by rewrite (extends_lookup _ _ _ _ Hext HPst). }
      eapply sat_mono;
        [| |apply (sat_both _ _ _ _ _
                     (building_proto_round I st0 ctor getter T P Pp oT T_old
                        protos key st Tp w e c HT Hst)
                     (transfer_throw_extends _ _ _ protos key st Tp Pp
                        (λ _, Hsrc) Htgt))];
        simpl.
      * by intros _ st' [? _].
      * intros e0 st' [-> Hext]. split; [done|]. by exists st.
  - intros e0 st2 (-> & st' & Hb' & Hext'). by apply (Herr P Pp st' st2).
  - intros key st Hkey Hst.
    eapply sat_mono;
      [| |apply (sat_both _ _ _ _ _
                   (building_static_round st0 ctor getter T P Pp oT T_old
                      statics key st Hst)
                   (transfer_throw_extends _ _ _ statics key st T P
                      (λ _, eq_refl) (λ _ _, eq_refl)))]; simpl.
    + by intros _ st' [? _].
    + intros e0 st' [-> Hext]. split; [done|]. by exists st.
Qed.
End Frame.

(** A call of [compile] that builds ends, and leaves the heap and the
    other scopes as they were. *)
Lemma compile_frame I sc st reg T :
  registry sc st = Some reg →
  is_class st T = true →
  privateClassesMap reg !! T = None →
  sat (compile I sc (VObj T) st)
      (λ res st', heap st ⊆ heap st' ∧ scope_frame sc st st'
         ∧ ∃ P, res = VObj P ∧ heap st !! P = None
                ∧ registry sc st'
                  = Some (set_publicClassesMap P (VObj T)
                            (set_privateClassesMap T (VObj P) reg)))
      (λ e st', e = TypeError ∧ heap st ⊆ heap st' ∧ scope_frame sc st st'
         ∧ registry sc st' = Some reg).
Proof.
  intros Hreg Hcl Hnew.
  destruct (is_class_inv _ _ Hcl) as (oT & v & w & e & c & HT & Hp & _ & _).
  destruct sc as [|b]; simpl in Hreg.
  - injection Hreg as <-. simpl. unfold Utility.getPublicClass.
    rewrite (bind_ok _ _ _ _ _ (U_rejects_class I _ _ Hcl)).
    unfold bind at 1, gets at 1. simpl.
    rewrite bool_decide_eq_false_2 by (rewrite Hnew; by intros [? ?]).
    rewrite U_build_eq.
    eapply (build_with_frame I _ _ _ _ T _ st oT HT); [done| |].
    + intros P Pp st1 Hb. unfold closure_update, modify, bind, ret. simpl.
      destruct (ev_registry _ _ _ (bd_evolves _ _ _ _ _ _ Hb)) as (Hc & Hm & Hps).
      split_and!; [by eapply building_subseteq|done..|].
      exists P. split_and!; [done|apply (bd_new_P _ _ _ _ _ _ Hb)|].
      by rewrite Hc.
    + intros P Pp st1 st2 Hb [(Hc2 & Hm2 & Hps2) Hsub].
      destruct (ev_registry _ _ _ (bd_evolves _ _ _ _ _ _ Hb)) as (Hc & Hm & Hps).
      split_and!; [done| |congruence..].
      etrans; [by eapply building_subseteq|done].
  - destruct (_privateMap st !! b) as [r|] eqn:Hb; [|done]. simpl in Hreg.
    simpl. unfold PublicClassBuilder.getPublicClass.
    unfold bind at 1, _privateMap_get at 1, gets at 1. rewrite Hb.
    rewrite (bind_ok _ _ _ _ _ (B_rejects_class I _ _ Hcl)).
    unfold bind at 1, field at 1. simpl. rewrite Hreg. simpl.
    rewrite bool_decide_eq_false_2 by (rewrite Hnew; by intros [? ?]).
    apply sat_bind. rewrite B_build_eq, Hb.
    eapply (build_with_frame I _ _ _ _ T _ st oT HT); [done| |].
    + intros P Pp st1 Hbd.
      destruct (ev_registry _ _ _ (bd_evolves _ _ _ _ _ _ Hbd)) as (Hc & Hm & Hps).
      unfold Map_set, field_update, bind, ret. simpl. rewrite Hps, Hreg. simpl.
      rewrite lookup_insert_eq. simpl.
      split_and!; [by eapply building_subseteq|done|done| |].
      * intros r' Hr'. by rewrite !lookup_insert_ne by congruence.
      * exists P. split_and!; [done|apply (bd_new_P _ _ _ _ _ _ Hbd)|].
        rewrite Hm, Hb. simpl. rewrite insert_insert_eq. apply lookup_insert_eq.
    + intros P Pp st1 st2 Hbd [(Hc2 & Hm2 & Hps2) Hsub].
      destruct (ev_registry _ _ _ (bd_evolves _ _ _ _ _ _ Hbd)) as (Hc & Hm & Hps).
      split_and!; [done| |congruence|congruence| |].
      * etrans; [by eapply building_subseteq|done].
      * intros r' _. congruence.
      * rewrite Hm2, Hm, Hb. simpl. congruence.
Qed.

(** X15: [compile] of a class that is not in the map yet, in either
    module, always ends (it needs no call stack), with a new façade or
    with a TypeError.  In both cases every object that existed before,
    the implementation class included, is left exactly as it was, and so
    are the maps of all other scopes.  When a façade is returned, the two
    class maps of the scope have gained the pair and the instance maps are
    unchanged; when a TypeError is thrown, the maps of the scope are
    unchanged too: nothing is registered for the class. *)
Theorem X15_compile_changes_no_object I sc st reg T :
  registry sc st = Some reg →
  is_class st T = true →
  privateClassesMap reg !! T = None →
  ∃ out st',
    compile I sc (VObj T) st = Some (out, st')
    ∧ heap st ⊆ heap st'
    ∧ scope_frame sc st st'
    ∧ match out with
      | Ok res =>
          ∃ P, res = VObj P ∧ heap st !! P = None
               ∧ registry sc st'
                 = Some (set_publicClassesMap P (VObj T)
                           (set_privateClassesMap T (VObj P) reg))
      | Throw e => e = TypeError ∧ registry sc st' = Some reg
      end.
Proof.
  intros Hreg Hcl Hnew.
  pose proof (compile_frame I sc st reg T Hreg Hcl Hnew) as Hs.
  destruct (compile I sc (VObj T) st) as [[[res|err] st']|]; simpl in Hs; [| |done].
  - destruct Hs as (? & ? & ?). by exists (Ok res), st'.
  - destruct Hs as (? & ? & ? & ?). by exists (Throw err), st'.
Qed.

(** ** The further theorems at work *)

Lemma X11_witness :
  registry ProcessWide demo = Some empty_registry
  ∧ is_class demo Counter = true
  ∧ privateClassesMap empty_registry !! Counter = None
  ∧ own_prop demo Counter (KStr "prototype")
    = Some (PData (VObj Counter_prototype) false false false)
  ∧ is_Some (heap demo !! Counter_prototype)
  ∧ NoDup (ownKeys demo Counter)
  ∧ NoDup (ownKeys demo Counter_prototype)
  ∧ compile demo_I ProcessWide (VObj Counter) demo = Some (Ok (VObj Facade), U_compiled)
  ∧ ∃ Pp,
      own_prop U_compiled Facade (KStr "prototype")
      = Some (PData (VObj Pp) false false false)
      ∧ ∀ lv k,
          is_Some (own_prop U_compiled (level_object lv Facade Pp) k)
          ↔ k ∈ initial_keys lv
            ∨ (exposed_key lv k = true
               ∧ is_Some (own_prop demo (level_object lv Counter Counter_prototype) k)).
Proof.
  assert (is_Some (heap demo !! Counter_prototype)) as H1 by by_evaluation.
  assert (NoDup (ownKeys demo Counter)) as H2 by by_evaluation.
  assert (NoDup (ownKeys demo Counter_prototype)) as H3 by by_evaluation.
  split_and!; [reflexivity|vm_compute; reflexivity|reflexivity|
               vm_compute; reflexivity|exact H1|exact H2|exact H3|
               vm_compute; reflexivity|].
  apply (X11_facade_has_exactly_the_exposed_keys demo_I ProcessWide demo
           empty_registry Counter Counter_prototype false false false
           Facade U_compiled);
    [reflexivity|vm_compute; reflexivity|reflexivity|vm_compute; reflexivity|
     exact H1|exact H2|exact H3|vm_compute; reflexivity].
Defined.

Lemma X12_witness :
  is_class gauge_demo Gauge = true
  ∧ privateClassesMap (closure gauge_demo) !! Gauge = None
  ∧ own_prop gauge_demo Gauge (KStr "prototype")
    = Some (PData (VObj Gauge_prototype) false false false)
  ∧ is_Some (heap gauge_demo !! Gauge_prototype)
  ∧ NoDup (ownKeys gauge_demo Gauge)
  ∧ NoDup (ownKeys gauge_demo Gauge_prototype)
  ∧ exposed InstanceLevel "value" = true
  ∧ own_prop gauge_demo (level_object InstanceLevel Gauge Gauge_prototype)
      (KStr "value")
    = Some (PAccessor (VObj Gauge_value_get) (VObj Gauge_value_set) false true)
  ∧ to_boolean (VObj Gauge_value_get) || to_boolean (VObj Gauge_value_set) = true
  ∧ compile demo_I ProcessWide (VObj Gauge) gauge_demo
    = Some (Ok (VObj GFacade), G_compiled)
  ∧ ∃ Pp g' s' c',
      own_prop G_compiled GFacade (KStr "prototype")
      = Some (PData (VObj Pp) false false false)
      ∧ own_prop G_compiled (level_object InstanceLevel GFacade Pp) (KStr "value")
        = Some (PAccessor g' s' false c')
      ∧ (if to_boolean (VObj Gauge_value_get)
         then is_callable G_compiled g' = true else g' = VUndef)
      ∧ (if to_boolean (VObj Gauge_value_set)
         then is_callable G_compiled s' = true else s' = VUndef)
      ∧ ∀ host I' st2 this args f,
          code_of st2 f = code_of G_compiled f →
          (InstanceLevel = InstanceLevel →
           has (publicInstancesMap (closure st2)) this = true) →
          (g' = VObj f →
           call_step host I' f this args st2
           = forward_get I' (VObj Gauge_value_get)
               (receiver_of InstanceLevel Gauge st2 this) st2)
          ∧ (s' = VObj f →
             call_step host I' f this args st2
             = forward_set I' (VObj Gauge_value_set)
                 (receiver_of InstanceLevel Gauge st2 this) args st2).
Proof.
  assert (is_Some (heap gauge_demo !! Gauge_prototype)) as H1 by by_evaluation.
  assert (NoDup (ownKeys gauge_demo Gauge)) as H2 by by_evaluation.
  assert (NoDup (ownKeys gauge_demo Gauge_prototype)) as H3 by by_evaluation.
  split_and!; [vm_compute; reflexivity|reflexivity|vm_compute; reflexivity|
               exact H1|exact H2|exact H3|reflexivity|vm_compute; reflexivity|
               reflexivity|vm_compute; reflexivity|].
  apply (X12_accessors_are_forwarded demo_I InstanceLevel gauge_demo Gauge
           Gauge_prototype false false false "value"
           (VObj Gauge_value_get) (VObj Gauge_value_set) false true
           GFacade G_compiled);
    [vm_compute; reflexivity|reflexivity|vm_compute; reflexivity|
     exact H1|exact H2|exact H3|reflexivity|vm_compute; reflexivity|
     reflexivity|vm_compute; reflexivity].
Defined.

Lemma X13_witness :
  registry (BuilderScope builder) B_start = Some empty_registry
  ∧ is_class B_start Counter = true
  ∧ privateClassesMap empty_registry !! Counter = None
  ∧ own_prop B_start Counter (KStr "prototype")
    = Some (PData (VObj Counter_prototype) false false false)
  ∧ is_Some (heap B_start !! Counter_prototype)
  ∧ NoDup (ownKeys B_start Counter)
  ∧ NoDup (ownKeys B_start Counter_prototype)
  ∧ exposed_key TypeLevel (KStr "self") = true
  ∧ own_prop B_start (level_object TypeLevel Counter Counter_prototype) (KStr "self")
    = Some (PData (VObj Counter_self) true false true)
  ∧ compile demo_I (BuilderScope builder) (VObj Counter) B_start
    = Some (Ok (VObj BFacade), B_compiled)
  ∧ ∃ Pp p,
      own_prop B_compiled BFacade (KStr "prototype")
      = Some (PData (VObj Pp) false false false)
      ∧ own_prop B_compiled (level_object TypeLevel BFacade Pp) (KStr "self") = Some p
      ∧ p_enumerable p = p_enumerable (PData (VObj Counter_self) true false true)
      ∧ p_configurable p
        = p_configurable (PData (VObj Counter_self) true false true)
          || preset TypeLevel (KStr "self")
      ∧ (to_boolean (p_get (PData (VObj Counter_self) true false true))
         || to_boolean (p_set (PData (VObj Counter_self) true false true)) = false →
         is_callable B_start (p_value (PData (VObj Counter_self) true false true))
         = true →
         is_accessor p = false
         ∧ p_writable p = p_writable (PData (VObj Counter_self) true false true)).
Proof.
  assert (is_Some (heap B_start !! Counter_prototype)) as H1 by by_evaluation.
  assert (NoDup (ownKeys B_start Counter)) as H2 by by_evaluation.
  assert (NoDup (ownKeys B_start Counter_prototype)) as H3 by by_evaluation.
  split_and!; [vm_compute; reflexivity|vm_compute; reflexivity|reflexivity|
               vm_compute; reflexivity|exact H1|exact H2|exact H3|reflexivity|
               vm_compute; reflexivity|vm_compute; reflexivity|].
  apply (X13_attributes_are_kept demo_I (BuilderScope builder) B_start
           empty_registry Counter Counter_prototype false false false
           TypeLevel (KStr "self") (PData (VObj Counter_self) true false true)
           BFacade B_compiled);
    [vm_compute; reflexivity|vm_compute; reflexivity|reflexivity|
     vm_compute; reflexivity|exact H1|exact H2|exact H3|reflexivity|
     vm_compute; reflexivity|vm_compute; reflexivity].
Defined.

Lemma X14_witness :
  registry ProcessWide gauge_demo = Some empty_registry
  ∧ is_class gauge_demo Gauge = true
  ∧ privateClassesMap empty_registry !! Gauge = None
  ∧ own_prop gauge_demo Gauge (KStr "prototype")
    = Some (PData (VObj Gauge_prototype) false false false)
  ∧ is_Some (heap gauge_demo !! Gauge_prototype)
  ∧ NoDup (ownKeys gauge_demo Gauge)
  ∧ NoDup (ownKeys gauge_demo Gauge_prototype)
  ∧ exposable (scope_makers ProcessWide gauge_demo Gauge TypeLevel) gauge_demo
      TypeLevel Gauge = true
  ∧ exposable (scope_makers ProcessWide gauge_demo Gauge InstanceLevel) gauge_demo
      InstanceLevel Gauge_prototype = true
  ∧ ∃ P st', compile (interp demo_host 0) ProcessWide (VObj Gauge) gauge_demo
             = Some (Ok (VObj P), st')
             ∧ heap gauge_demo !! P = None.
Proof.
  assert (is_Some (heap gauge_demo !! Gauge_prototype)) as H1 by by_evaluation.
  assert (NoDup (ownKeys gauge_demo Gauge)) as H2 by by_evaluation.
  assert (NoDup (ownKeys gauge_demo Gauge_prototype)) as H3 by by_evaluation.
  split_and!; [reflexivity|vm_compute; reflexivity|reflexivity|
               vm_compute; reflexivity|exact H1|exact H2|exact H3|
               vm_compute; reflexivity|vm_compute; reflexivity|].
  apply (X14_compile_succeeds (interp demo_host 0) ProcessWide gauge_demo
           empty_registry Gauge Gauge_prototype false false false);
    [reflexivity|vm_compute; reflexivity|reflexivity|vm_compute; reflexivity|
     exact H1|exact H2|exact H3|vm_compute; reflexivity|vm_compute; reflexivity].
Defined.

Lemma X15_witness :
  registry ProcessWide demo = Some empty_registry
  ∧ is_class demo Settings = true
  ∧ privateClassesMap empty_registry !! Settings = None
  ∧ ∃ out st',
      compile demo_I ProcessWide (VObj Settings) demo = Some (out, st')
      ∧ heap demo ⊆ heap st'
      ∧ scope_frame ProcessWide demo st'
      ∧ match out with
        | Ok res =>
            ∃ P, res = VObj P ∧ heap demo !! P = None
                 ∧ registry ProcessWide st'
                   = Some (set_publicClassesMap P (VObj Settings)
                             (set_privateClassesMap Settings (VObj P) empty_registry))
        | Throw e => e = TypeError ∧ registry ProcessWide st' = Some empty_registry
        end.
Proof.
  split_and!; [reflexivity|vm_compute; reflexivity|reflexivity|].
  apply (X15_compile_changes_no_object demo_I ProcessWide demo empty_registry
           Settings);
    [reflexivity|vm_compute; reflexivity|reflexivity].
Defined.

(** ** [PublicClassBuilder.js]: the instances of a façade *)

(** What the last two lines of the constructor leave in the maps of the
    builder. *)
Lemma B_constructor_binds host I r P T this args st st' :
  PublicClassBuilder.PublicClass_constructor host I r P T this args st
  = Some (Ok tt, st') →
  ∃ r0 x reg', r = Some r0 ∧ privates st' !! r0 = Some reg'
    ∧ publicInstancesMap reg' !! this = Some (VObj x)
    ∧ privateInstancesMap reg' !! x = Some (VObj this).
Proof.
  unfold PublicClassBuilder.PublicClass_constructor.
  intros (publicArgs & st1 & _ & H)%bind_inv_ok.
  apply bind_inv_ok in H as (first & st2 & _ & H).
  apply bind_inv_ok in H as (wrap & st3 & _ & H).
  apply bind_inv_ok in H as (privateInstance & st4 & _ & H).
  apply bind_inv_ok in H as ([] & st5 & H1 & H2).
  unfold Map_set, field_update in H1, H2.
  destruct r as [r0|]; [|done].
  destruct (privates st4 !! r0) as [reg|]; [|done]. injection H1 as <-.
  destruct privateInstance as [| | | | | |x]; try done.
  simpl in H2. rewrite lookup_insert_eq in H2. injection H2 as <-.
  exists r0, x. eexists. simpl. rewrite lookup_insert_eq.
  split_and!; [done..| |]; simpl; by rewrite lookup_insert_eq.
Qed.

(** X16: in [PublicClassBuilder.js] every object [new PublicClass(...)]
    returns is a new object bound to an implementation instance [x] in
    both instance maps of the builder that compiled the façade, so that
    [filterPublic], called on that builder, sends it to [x] and
    [filterPrivate] sends [x] back to it. *)
Theorem X16_builder_facade_instances_are_bound
    host I st F r T args w st' v0 w0 e0 c0 :
  code_of st F = Some (BPublicClass r T) →
  own_prop st F (KStr "prototype") = Some (PData v0 w0 e0 c0) →
  construct_step host I F args st = Some (Ok w, st') →
  heap st !! w = None
  ∧ ∃ r0 x reg',
      r = Some r0 ∧ privates st' !! r0 = Some reg'
      ∧ publicInstancesMap reg' !! w = Some (VObj x)
      ∧ privateInstancesMap reg' !! x = Some (VObj w)
      ∧ ∀ b n, _privateMap st' !! b = Some r0 →
          filterPublic (S n) (VObj b) (VObj w) st' = Some (Ok (VObj x), st')
          ∧ filterPrivate (S n) (VObj b) (VObj x) st' = Some (Ok (VObj w), st').
Proof.
  intros Hc Hp. unfold construct_step. rewrite Hc.
  rewrite (bind_ok _ _ _ _ _ (create_this_eq I _ _ _ _ _ _ Hp)).
  intros ([] & st3 & Hctor & [= <- <-])%bind_inv_ok.
  split; [apply fresh_heap|].
  destruct (B_constructor_binds _ _ _ _ _ _ _ _ _ Hctor)
    as (r0 & x & reg' & -> & Hreg' & Hw & Hx).
  exists r0, x, reg'. split_and!; [done..|]. intros b n Hb.
  split; simpl; unfold bind, _privateMap_get, gets, field; rewrite Hb; simpl;
    rewrite Hreg'; simpl.
  - rewrite Hw. by rewrite bool_decide_eq_true_2 by (by eexists).
  - rewrite Hx. by rewrite bool_decide_eq_true_2 by (by eexists).
Qed.

Lemma X16_witness :
  code_of B_compiled BFacade = Some (BPublicClass (Some 1%positive) Counter)
  ∧ own_prop B_compiled BFacade (KStr "prototype")
    = Some (PData (VObj 21%positive) false false false)
  ∧ construct_step demo_host (interp demo_host 4) BFacade [VObj counter] B_compiled
    = Some (Ok bwrapper, B_wrapped)
  ∧ heap B_compiled !! bwrapper = None
  ∧ ∃ r0 x reg',
      Some 1%positive = Some r0 ∧ privates B_wrapped !! r0 = Some reg'
      ∧ publicInstancesMap reg' !! bwrapper = Some (VObj x)
      ∧ privateInstancesMap reg' !! x = Some (VObj bwrapper)
      ∧ ∀ b n, _privateMap B_wrapped !! b = Some r0 →
          filterPublic (S n) (VObj b) (VObj bwrapper) B_wrapped
          = Some (Ok (VObj x), B_wrapped)
          ∧ filterPrivate (S n) (VObj b) (VObj x) B_wrapped
            = Some (Ok (VObj bwrapper), B_wrapped).
Proof.
  split; [vm_compute; reflexivity|]. split; [vm_compute; reflexivity|].
  split; [vm_compute; reflexivity|].
  apply (X16_builder_facade_instances_are_bound demo_host (interp demo_host 4)
           B_compiled BFacade (Some 1%positive) Counter [VObj counter] bwrapper
           B_wrapped (VObj 21%positive) false false false);
    vm_compute; reflexivity.
Defined.

(** X17: [PublicClassBuilder#getPublicClass], called with a class on a
    receiver that is no builder (one [_privateMap] does not know), throws a
    TypeError and changes nothing. *)
Theorem X17_getPublicClass_needs_a_builder I this T st :
  is_class st T = true →
  is_builder st this = false →
  PublicClassBuilder.getPublicClass I this (VObj T) st = Some (Throw TypeError, st).
Proof.
  intros Hcl Hb. unfold PublicClassBuilder.getPublicClass.
  unfold bind at 1, _privateMap_get at 1, gets at 1.
  rewrite (bind_ok _ _ _ _ _ (B_rejects_class I _ _ Hcl)).
  unfold bind at 1, field at 1.
  destruct this as [| | | | | |b]; try done.
  simpl in Hb. apply bool_decide_eq_false in Hb.
  destruct (_privateMap st !! b ≫= _) as [reg|] eqn:Hreg; [|done].
  destruct Hb. by exists reg.
Qed.

Lemma X17_witness :
  is_class B_compiled Counter = true
  ∧ is_builder B_compiled (VObj BFacade) = false
  ∧ PublicClassBuilder.getPublicClass demo_I (VObj BFacade) (VObj Counter) B_compiled
    = Some (Throw TypeError, B_compiled).
Proof.
  do 2 (split; [vm_compute; reflexivity|]).
  apply (X17_getPublicClass_needs_a_builder demo_I (VObj BFacade) Counter B_compiled);
    vm_compute; reflexivity.
Defined.

(** ** [Utility.js]: the constructor with public arguments *)

Lemma leaf_extends st st' v : extends st st' → leaf st v = true → isArray st' v = false.
Proof.
  intros Hext. destruct v as [| | | | | |l]; simpl; try done.
  destruct (kind_of st l) as [k|] eqn:Hk; [|done].
  rewrite (ev_kind _ _ _ (extends_evolves ∅ _ _ Hext) l k Hk). by destruct k.
Qed.

Lemma filterPublicInstance_leaf n st0 st v :
  extends st0 st → leaf st0 v = true →
  filterPublicInstance (S n) v st = Some (Ok (to_private st0 v), st).
Proof.
  intros Hext Hleaf. simpl. unfold to_private, lookup_in.
  pose proof Hext as [(Hc & _ & _) _]. rewrite Hc.
  destruct (has _ v); [done|].
  rewrite (leaf_extends st0 st v) by done. by rewrite typeof_not_promise.
Qed.

Lemma map_elems_leaves n st0 st args :
  extends st0 st → forallb (leaf st0) args = true →
  map_elems (filterPublicInstance (S n)) (Some <$> args) st
  = Some (Ok (Some <$> (to_private st0 <$> args)), st).
Proof.
  intros Hext. induction args as [|v args IH]; [done|].
  intros [Hv Hargs]%andb_true_iff. cbn [fmap list_fmap map_elems].
  rewrite (bind_ok _ _ _ _ _ (filterPublicInstance_leaf n st0 st v Hext Hv)).
  change (list_fmap Value (option Value) Some args) with (Some <$> args).
  by rewrite (bind_ok _ _ _ _ _ (IH Hargs)).
Qed.

(** X18: in [Utility.js], [new PublicClass(...args)] with a first argument
    that is no object (the form with public arguments) and arguments that
    are no arrays constructs the implementation class with the same
    arguments, each façade instance among them replaced by the
    implementation instance bound to it, and binds the new implementation
    instance to the new façade instance in both instance maps. *)
Theorem X18_facade_constructs_the_implementation
    host I st F T args v0 w0 e0 c0 :
  code_of st F = Some (UPublicClass T) →
  own_prop st F (KStr "prototype") = Some (PData v0 w0 e0 c0) →
  is_callable st (VObj T) = true →
  first_is_primitive args = true →
  forallb (leaf st) args = true →
  dom (publicInstancesMap (closure st)) ⊆ dom (heap st) →
  (2 ≤ depth I)%nat →
  ∃ st1, extends st st1
    ∧ construct_step host I F args st
      = construct_and_bind I T (fresh (dom (heap st))) (to_private st <$> args) st1.
Proof.
  intros Hc Hp HT Hfirst Hleaves Hdom Hdepth. unfold construct_step. rewrite Hc.
  rewrite (bind_ok _ _ _ _ _ (create_this_eq I _ _ _ _ _ _ Hp)).
  set (this := fresh (dom (heap st))). set (st1 := set_heap _ st).
  assert (extends st st1) as Hext1 by apply extends_insert, fresh_heap.
  set (A := fresh (dom (heap st1))).
  set (oA := mkObj (Some ArrayPrototype) true [] (KArray (Some <$> args))).
  set (st2 := set_heap (<[A := oA]> (heap st1)) st1).
  assert (heap st1 !! A = None) as HA by apply fresh_heap.
  assert (extends st1 st2) as Hext12 by (by apply extends_insert).
  assert (extends st st2) as Hext2 by (by eapply extends_trans).
  assert (heap st2 !! A = Some oA) as HA2 by apply lookup_insert_eq.
  set (A' := fresh (dom (heap st2))).
  set (oA' := mkObj (Some ArrayPrototype) true []
                (KArray (replicate (length (Some <$> args)) None))).
  set (st3 := set_heap (<[A' := oA']> (heap st2)) st2).
  assert (heap st2 !! A' = None) as HA' by apply fresh_heap.
  assert (extends st st3) as Hext3.
  { eapply extends_trans; [done|]. by apply extends_insert. }
  set (st4 := set_heap (alter (set_kind (KArray (Some <$> (to_private st <$> args))))
                          A' (heap st3)) st3).
  assert (extends st st4) as Hext4.
  { apply extends_alter; [done|].
    by apply (extends_none st st2). }
  exists st4. split; [done|].
  destruct (depth I) as [|[|n]] eqn:Hd; [lia|lia|].
  assert (filterPublicInstance (S (S n)) (VObj A) st2
          = Some (Ok (VObj A'), st4)) as Hfilter.
  { assert (publicInstancesMap (closure st) !! A = None) as HAmap.
    { apply not_elem_of_dom. intros Hin%Hdom. apply elem_of_dom in Hin as [o Ho].
      by rewrite (extends_lookup _ _ _ _ Hext1 Ho) in HA. }
    cbn [filterPublicInstance].
    change (closure st2) with (closure st). cbn [has]. rewrite HAmap.
    rewrite bool_decide_eq_false_2 by (by intros [? ?]).
    unfold isArray, kind_of. rewrite HA2. cbn [fmap option_fmap option_map o_kind oA].
    unfold Array_map.
    assert (elems_of (VObj A) st2 = Some (Ok (Some <$> args), st2)) as Hes.
    { unfold elems_of, array_elems, kind_of. by rewrite HA2. }
    rewrite (bind_ok _ _ _ _ _ Hes).
    unfold bind at 1, new_array at 1. rewrite alloc_eq. fold A' oA' st3.
    rewrite (bind_ok _ _ _ _ _ (map_elems_leaves n st st3 args Hext3 Hleaves)).
    done. }
  assert (list_of_array (VObj A') st4
          = Some (Ok (to_private st <$> args), st4)) as Hspread.
  { unfold list_of_array, array_elems, kind_of. subst st4 st3. simpl.
    rewrite lookup_alter_eq, lookup_insert_eq. simpl. do 3 f_equal.
    rewrite <- list_fmap_compose. by apply list_fmap_id. }
  assert (Utility.PublicClass_constructor host I F T this args st1
          = (let* r := construct_rec I T (to_private st <$> args) in
             let* _ := closure_update (set_publicInstancesMap this (VObj r)) in
             closure_update (set_privateInstancesMap r (VObj this))) st4) as Hctor.
  { unfold Utility.PublicClass_constructor.
    rewrite (bind_ok _ _ _ _ _ (rest_array_eq args st1)). fold A oA st2.
    rewrite (bind_ok _ _ _ _ _ (index_rest_array args st2 A
                                  ltac:(unfold kind_of; by rewrite HA2))).
    assert (instanceOf I (nth 0 args VUndef) (VObj T) st2 = Some (Ok false, st2))
      as Hinst.
    { unfold instanceOf, bind at 1, gets at 1.
      rewrite (extends_callable _ _ _ Hext2 HT). cbn [negb].
      unfold first_is_primitive in Hfirst. by destruct (nth 0 args VUndef). }
    rewrite (bind_ok _ _ _ _ _ Hinst). cbv beta iota. rewrite Hd.
    unfold bind at 1. rewrite (bind_ok _ _ _ _ _ Hfilter).
    rewrite (bind_ok _ _ _ _ _ Hspread). unfold bind.
    destruct (construct_rec I T _ st4) as [[[r|err] st5]|]; done. }
  unfold construct_and_bind. fold this. unfold bind at 1. rewrite Hctor.
  unfold bind. destruct (construct_rec I T _ st4) as [[[r|err] st5]|]; done.
Qed.

Lemma X18_witness :
  code_of U_wrapped Facade = Some (UPublicClass Counter)
  ∧ own_prop U_wrapped Facade (KStr "prototype")
    = Some (PData (VObj Facade_prototype) false false false)
  ∧ is_callable U_wrapped (VObj Counter) = true
  ∧ first_is_primitive [VNum 1; VObj wrapper] = true
  ∧ forallb (leaf U_wrapped) [VNum 1; VObj wrapper] = true
  ∧ dom (publicInstancesMap (closure U_wrapped)) ⊆ dom (heap U_wrapped)
  ∧ (2 ≤ depth demo_I)%nat
  ∧ to_private U_wrapped <$> [VNum 1; VObj wrapper] = [VNum 1; VObj counter]
  ∧ ∃ st1, extends U_wrapped st1
      ∧ construct_step demo_host demo_I Facade [VNum 1; VObj wrapper] U_wrapped
        = construct_and_bind demo_I Counter (fresh (dom (heap U_wrapped)))
            (to_private U_wrapped <$> [VNum 1; VObj wrapper]) st1.
Proof.
  assert (dom (publicInstancesMap (closure U_wrapped)) ⊆ dom (heap U_wrapped))
    as H1 by by_evaluation.
  assert (2 ≤ depth demo_I)%nat as H2 by by_evaluation.
  split_and!; [vm_compute; reflexivity|vm_compute; reflexivity|
               vm_compute; reflexivity|reflexivity|vm_compute; reflexivity|
               exact H1|exact H2|vm_compute; reflexivity|].
  apply (X18_facade_constructs_the_implementation demo_host demo_I U_wrapped
           Facade Counter [VNum 1; VObj wrapper]
           (VObj Facade_prototype) false false false);
    [vm_compute; reflexivity|vm_compute; reflexivity|vm_compute; reflexivity|
     reflexivity|vm_compute; reflexivity|exact H1|exact H2].
Defined.

(** ** What the translators leave alone *)

Lemma map_elems_extends (f : Value → M Value) es :
  (∀ v st r st', f v st = Some (r, st') → extends st st') →
  ∀ st r st', map_elems f es st = Some (r, st') → extends st st'.
Proof.
  intros Hf. induction es as [|[v|] es IH]; intros st r st'; simpl.
  - intros [= <- <-]. apply extends_refl.
  - unfold bind. destruct (f v st) as [[[v'|e] st1]|] eqn:Hv; [| |done].
    + pose proof (Hf _ _ _ _ Hv) as H1.
      destruct (map_elems f es st1) as [[[es'|e] st2]|] eqn:Hes; [| |done];
        pose proof (IH _ _ _ Hes) as H2; intros [= <- <-];
        by eapply extends_trans.
    + intros [= <- <-]. by eapply Hf.
  - unfold bind. destruct (map_elems f es st) as [[[es'|e] st2]|] eqn:Hes; [| |done];
      intros [= <- <-]; by eapply IH.
Qed.

Lemma translate_extends lookup T n :
  (∀ v st r st', lookup v st = Some (r, st') → st' = st) →
  ∀ v st r st', translate lookup T n v st = Some (r, st') → extends st st'.
Proof.
  intros Hl. induction n as [|n IH]; intros v st r st'; [done|].
  rewrite translate_unfold. unfold bind at 1.
  destruct (lookup v st) as [[[[c|]|e] st1]|] eqn:Hlk; [| | |done].
  - rewrite (Hl _ _ _ _ Hlk). intros [= <- <-]. apply extends_refl.
  - rewrite (Hl _ _ _ _ Hlk). rewrite typeof_not_promise.
    destruct (isArray st v); [|intros [= <- <-]; apply extends_refl].
    unfold Array_map, bind, elems_of, new_array, update_obj, modify, ret.
    destruct v as [| | | | | |l]; try (intros [= <- <-]; apply extends_refl).
    destruct (array_elems st l) as [es|]; [|intros [= <- <-]; apply extends_refl].
    rewrite alloc_eq.
    set (A := fresh (dom (heap st))). set (st1' := set_heap _ st).
    assert (heap st !! A = None) as HA by apply fresh_heap.
    assert (extends st st1') as Hext1 by (by apply extends_insert).
    destruct (map_elems _ es _) as [[[es'|e] st2]|] eqn:Hes; [| |done].
    + pose proof (map_elems_extends _ _ IH _ _ _ Hes) as Hext2.
      intros [= <- <-]. apply extends_alter; [by eapply extends_trans|done].
    + pose proof (map_elems_extends _ _ IH _ _ _ Hes) as Hext2.
      intros [= <- <-]. by eapply extends_trans.
  - rewrite (Hl _ _ _ _ Hlk). intros [= <- <-]. apply extends_refl.
Qed.

Lemma B_lookup_state instances classes this v st r st' :
  B_lookup instances classes this v st = Some (r, st') → st' = st.
Proof.
  unfold B_lookup, bind, _privateMap_get, gets, field, ret.
  destruct (_ ≫= _) as [reg|]; [|by intros [= <- <-]].
  destruct (has (instances reg) v); [by intros [= <- <-]|].
  destruct (_ ≫= _) as [reg'|]; [|by intros [= <- <-]].
  by destruct (has (classes reg') v); intros [= <- <-].
Qed.

(** X19: whatever the value, the receiver and the call stack, a translator
    of either module that ends, with a result or with an exception,
    has changed none of the maps and no object that existed before: it
    only allocates the arrays it returns. *)
Theorem X19_translators_change_nothing T fuel v st out st' :
  run_translator T fuel v st = Some (out, st') → extends st st'.
Proof.
  destruct T as [| |this|this]; simpl.
  - rewrite filterPublicInstance_translate. apply translate_extends.
    unfold U_lookup, gets. by intros ? ? ? ? [= <- <-].
  - rewrite filterPrivateInstance_translate. apply translate_extends.
    unfold U_lookup, gets. by intros ? ? ? ? [= <- <-].
  - rewrite filterPublic_translate. apply translate_extends.
    intros ? ? ? ?. apply B_lookup_state.
  - rewrite filterPrivate_translate. apply translate_extends.
    intros ? ? ? ?. apply B_lookup_state.
Qed.

Lemma X19_witness :
  run_translator TfilterPrivateInstance 3 (VObj mixed) U_wrapped
  = Some (Ok (VObj U_translated_array), U_translated)
  ∧ extends U_wrapped U_translated.
Proof.
  assert (run_translator TfilterPrivateInstance 3 (VObj mixed) U_wrapped
          = Some (Ok (VObj U_translated_array), U_translated)) as H
    by (vm_compute; reflexivity).
  split; [exact H|].
  exact (X19_translators_change_nothing TfilterPrivateInstance 3 (VObj mixed)
           U_wrapped (Ok (VObj U_translated_array)) U_translated H).
Defined.

(** ** The wrap form in both modules *)

Lemma inherits_instance st P Pp l o c w e c' :
  code_of st P = Some c →
  own_prop st P (KStr "prototype") = Some (PData (VObj Pp) w e c') →
  heap st !! l = Some o → o_proto o = Some Pp →
  instance_of st l P = true.
Proof.
  intros Hc Hp Hl Ho. unfold instance_of. simpl. rewrite Hc, Hp.
  rewrite bool_decide_eq_true_2 by eauto. simpl.
  destruct (size (heap st)); simpl; rewrite Hl, Ho; by rewrite decide_True.
Qed.

(** X20: the wrap form in both modules.  For a genuine instance [x] of the
    implementation class that the scope has not bound yet, [new P(x)]
    returns a new object [w] and binds it to [x] in both instance maps of
    the scope, which are otherwise unchanged.  The wrapper has no property
    of its own, so that no field of [x] is copied or exposed: all it has,
    it inherits from [P.prototype], and it is an instance of [P].  No
    object that existed before is changed. *)
Theorem X20_wrap_form host I sc st reg P T Pp x w0 e0 c0 :
  registry sc st = Some reg →
  code_of st P = facade_code sc st T →
  own_prop st P (KStr "prototype") = Some (PData (VObj Pp) w0 e0 c0) →
  instance_of st x T = true →
  privateInstancesMap reg !! x = None →
  ∃ w st',
    construct_step host I P [VObj x] st = Some (Ok w, st')
    ∧ heap st !! w = None
    ∧ heap st ⊆ heap st'
    ∧ heap st' !! w = Some (mkObj (Some Pp) true [] KOrdinary)
    ∧ registry sc st'
      = Some (set_privateInstancesMap x (VObj w) (set_publicInstancesMap w (VObj x) reg))
    ∧ ∀ I', instanceOf I' (VObj w) (VObj P) st' = Some (Ok true, st').
Proof.
  intros Hreg Hc Hp Hinst Hnew.
  set (w := fresh (dom (heap st))).
  set (st1 := set_heap (<[w := mkObj (Some Pp) true [] KOrdinary]> (heap st)) st).
  assert (create_this I P st = Some (Ok w, st1)) as Hthis
    by apply (create_this_eq I P st _ _ _ _ Hp).
  assert (heap st !! w = None) as Hw by apply fresh_heap.
  assert (extends st st1) as Hext1 by (by apply extends_insert).
  assert (heap st1 !! w = Some (mkObj (Some Pp) true [] KOrdinary)) as Hw1
    by apply lookup_insert_eq.
  assert (instance_of st1 x T = true) as Hinst1 by (by eapply instance_of_extends).
  assert (has (privateInstancesMap reg) (VObj x) = false) as Hhas.
  { simpl. rewrite Hnew. apply bool_decide_eq_false. by intros [? ?]. }
  assert (∀ st2 st', extends st1 st2 → heap st' = heap st2 →
            heap st ⊆ heap st'
            ∧ heap st' !! w = Some (mkObj (Some Pp) true [] KOrdinary)
            ∧ ∀ I', instanceOf I' (VObj w) (VObj P) st' = Some (Ok true, st'))
    as Hrest.
  { intros st2 st' Hext2 Hh.
    assert (heap st ⊆ heap st') as Hsub.
    { rewrite Hh. etrans; [apply Hext1|apply Hext2]. }
    assert (heap st' !! w = Some (mkObj (Some Pp) true [] KOrdinary)) as Hw'.
    { rewrite Hh. by apply (extends_lookup st1). }
    split_and!; [done..|]. intros I'.
    destruct (code_of st P) as [c|] eqn:HcP.
    2:{ unfold own_prop, code_of, kind_of in *.
        destruct sc; [done|]. simpl in *. by destruct (_privateMap st !! _). }
    apply (instanceOf_true I' st'); [|apply extends_refl].
    eapply (inherits_instance st' P Pp w _ c w0 e0 c0); [| |exact Hw'|done].
    - unfold code_of, kind_of in *.
      destruct (heap st !! P) as [oP|] eqn:HP; [|done].
      by rewrite (lookup_weaken _ _ _ _ HP Hsub).
    - unfold own_prop in *.
      destruct (heap st !! P) as [oP|] eqn:HP; [|done].
      by rewrite (lookup_weaken _ _ _ _ HP Hsub). }
  exists w. unfold construct_step. rewrite Hc.
  destruct sc as [|b]; simpl in Hreg |- *.
  - injection Hreg as <-.
    rewrite (bind_ok _ _ _ _ _ Hthis).
    destruct (U_wrap_new host I P T w x st1 Hinst1 Hhas) as (st2 & Hext2 & Hctor).
    rewrite (bind_ok _ _ _ _ _ Hctor). eexists. split; [done|].
    destruct (Hrest st2 (set_closure
                (set_privateInstancesMap x (VObj w)
                   (set_publicInstancesMap w (VObj x) (closure st1))) st2)
                Hext2 eq_refl) as (? & ? & ?).
    by split_and!.
  - destruct (_privateMap st !! b) as [r|] eqn:Hb; [|done]. simpl in Hreg |- *.
    rewrite (bind_ok _ _ _ _ _ Hthis).
    destruct (B_wrap_new host I r reg P T w x st1 Hreg Hinst1 Hhas)
      as (st2 & Hext2 & Hctor).
    rewrite (bind_ok _ _ _ _ _ Hctor). eexists. split; [done|].
    destruct (Hrest st2 (mkState (heap st2) (closure st1) (_privateMap st1)
                (<[r := set_privateInstancesMap x (VObj w)
                          (set_publicInstancesMap w (VObj x) reg)]> (privates st1)))
                Hext2 eq_refl) as (? & ? & ?).
    split_and!; [done..| |done].
    simpl. rewrite Hb. simpl. apply lookup_insert_eq.
Qed.

Lemma X20_witness :
  registry (BuilderScope builder) B_compiled
  = Some (set_publicClassesMap BFacade (VObj Counter)
            (set_privateClassesMap Counter (VObj BFacade) empty_registry))
  ∧ code_of B_compiled BFacade = facade_code (BuilderScope builder) B_compiled Counter
  ∧ own_prop B_compiled BFacade (KStr "prototype")
    = Some (PData (VObj BFacade_prototype) false false false)
  ∧ instance_of B_compiled counter Counter = true
  ∧ ∃ w st',
      construct_step demo_host demo_I BFacade [VObj counter] B_compiled
      = Some (Ok w, st')
      ∧ heap B_compiled !! w = None
      ∧ heap B_compiled ⊆ heap st'
      ∧ heap st' !! w = Some (mkObj (Some BFacade_prototype) true [] KOrdinary)
      ∧ registry (BuilderScope builder) st'
        = Some (set_privateInstancesMap counter (VObj w)
                  (set_publicInstancesMap w (VObj counter)
                     (set_publicClassesMap BFacade (VObj Counter)
                        (set_privateClassesMap Counter (VObj BFacade) empty_registry))))
      ∧ ∀ I', instanceOf I' (VObj w) (VObj BFacade) st' = Some (Ok true, st').
Proof.
  do 4 (split; [vm_compute; reflexivity|]).
  apply (X20_wrap_form demo_host demo_I (BuilderScope builder) B_compiled _
           BFacade Counter BFacade_prototype counter false false false);
    vm_compute; reflexivity.
Defined.

(** ** A class compiled in two scopes *)

Lemma frame_keeps_registry sc1 sc2 st st' rA rB :
  scope_frame sc2 st st' →
  registry sc1 st = Some rA → registry sc2 st = Some rB → rA ≠ rB →
  registry sc1 st' = Some rA.
Proof.
  destruct sc1 as [|b1], sc2 as [|b2]; simpl.
  - intros _ [= <-] [= <-]. done.
  - intros (-> & _ & _) [= <-]. done.
  - intros [-> ->]. done.
  - intros (_ & Hm & Hps). rewrite Hm.
    destruct (_privateMap st !! b1) as [r1|]; [|done].
    destruct (_privateMap st !! b2) as [r2|]; [|done]. simpl.
    intros HA HB Hne. rewrite Hps; [done|]. intros [= ->]. congruence.
Qed.

(** X21: the scopes are isolated.  When a class is compiled in one scope
    and then, in the state reached, in a scope whose class map does not
    hold it (the other module, or another builder), the second call builds
    a second façade, different from the first, and disturbs nothing in the
    first scope: from then on each scope answers with its own façade. *)
Theorem X21_scopes_are_isolated I1 I2 sc1 sc2 st reg1 reg2 T P1 P2 st1 st2 :
  is_class st T = true →
  registry sc1 st = Some reg1 → privateClassesMap reg1 !! T = None →
  compile I1 sc1 (VObj T) st = Some (Ok P1, st1) →
  registry sc2 st1 = Some reg2 → privateClassesMap reg2 !! T = None →
  compile I2 sc2 (VObj T) st1 = Some (Ok P2, st2) →
  P1 ≠ P2
  ∧ ∀ I, compile I sc1 (VObj T) st2 = Some (Ok P1, st2)
         ∧ compile I sc2 (VObj T) st2 = Some (Ok P2, st2).
Proof.
  intros Hcl Hreg1 Hnew1 Hc1 Hreg2 Hnew2 Hc2.
  assert (∀ sta stb, is_class sta T = true → heap sta ⊆ heap stb →
            is_class stb T = true) as Hmono.
  { intros sta stb Ha Hsub.
    destruct (is_class_inv _ _ Ha) as (oT & _ & _ & _ & _ & HT & _).
    rewrite <- Ha. apply is_class_heap.
    by rewrite HT, (lookup_weaken _ _ _ _ HT Hsub). }
  pose proof (compile_new I1 _ _ _ _ Hreg1 Hcl Hnew1) as Hn1.
  rewrite Hc1 in Hn1. simpl in Hn1.
  destruct Hn1 as (p1 & Pp1 & ctor & getter & st1' & rg & -> & Hb1 & Hh1 & _ & _).
  pose proof (compile_frame I1 _ _ _ _ Hreg1 Hcl Hnew1) as Hf1.
  rewrite Hc1 in Hf1. simpl in Hf1.
  destruct Hf1 as (Hsub1 & _ & p & [= <-] & _ & Hreg1').
  pose proof (Hmono _ _ Hcl Hsub1) as Hcl1.
  pose proof (compile_frame I2 _ _ _ _ Hreg2 Hcl1 Hnew2) as Hf2.
  rewrite Hc2 in Hf2. simpl in Hf2.
  destruct Hf2 as (Hsub2 & Hfr2 & p2 & -> & Hp2 & Hreg2').
  pose proof (Hmono _ _ Hcl1 Hsub2) as Hcl2.
  split.
  - intros [= ->].
    pose proof (bd_code _ _ _ _ _ _ Hb1) as Hcode.
    unfold code_of, kind_of in Hcode. rewrite <- Hh1, Hp2 in Hcode. done.
  - intros I. split.
    + eapply compile_cached; [|done|].
      * eapply frame_keeps_registry; [exact Hfr2|exact Hreg1'|exact Hreg2|].
        intros <-. simpl in Hnew2. by rewrite lookup_insert_eq in Hnew2.
      * simpl. apply lookup_insert_eq.
    + eapply compile_cached; [exact Hreg2'|done|].
      simpl. apply lookup_insert_eq.
Qed.

Lemma X21_witness :
  is_class B_start Counter = true
  ∧ registry (BuilderScope builder) B_start = Some empty_registry
  ∧ compile demo_I (BuilderScope builder) (VObj Counter) B_start
    = Some (Ok (VObj BFacade), B_compiled)
  ∧ registry ProcessWide B_compiled = Some empty_registry
  ∧ compile demo_I ProcessWide (VObj Counter) B_compiled
    = Some (Ok (VObj BUFacade), BU_compiled)
  ∧ VObj BFacade ≠ VObj BUFacade
  ∧ ∀ I, compile I (BuilderScope builder) (VObj Counter) BU_compiled
         = Some (Ok (VObj BFacade), BU_compiled)
         ∧ compile I ProcessWide (VObj Counter) BU_compiled
           = Some (Ok (VObj BUFacade), BU_compiled).
Proof.
  do 5 (split; [vm_compute; reflexivity|]).
  apply (X21_scopes_are_isolated demo_I demo_I (BuilderScope builder) ProcessWide
           B_start empty_registry empty_registry Counter
           (VObj BFacade) (VObj BUFacade) B_compiled BU_compiled);
    vm_compute; reflexivity.
Defined.

(** ** [_get] for a bound instance *)

(** X22: in both modules [PublicClass._get(x)] of a façade of the scope
    returns, for an object [x] that the scope has bound, the wrapper the
    instance map holds for it; it makes no second wrapper, runs no code of
    the implementation class and changes nothing.  This is the only branch
    of [_get] the two modules share. *)
Theorem X22_get_returns_the_bound_wrapper host I sc st reg g P this x w :
  registry sc st = Some reg →
  code_of st g = getter_code sc st P →
  privateInstancesMap reg !! x = Some w →
  call_step host I g this [VObj x] st = Some (Ok w, st).
Proof.
  intros Hreg Hg Hx. unfold call_step. rewrite Hg.
  destruct sc as [|b]; simpl in Hreg |- *.
  - injection Hreg as <-.
    rewrite U_get_bound; simpl; rewrite Hx; [done|].
    apply bool_decide_eq_true. by eexists.
  - destruct (_privateMap st !! b) as [r|]; [|done]. simpl in Hreg |- *.
    unfold PublicClassBuilder.PublicClass__get, bind, field, ret.
    cbn [nth mbind option_bind]. rewrite Hreg. simpl. rewrite Hx.
    by rewrite bool_decide_eq_true_2 by (by eexists).
Qed.

Lemma X22_witness :
  registry (BuilderScope builder) B_wrapped = Some B_registry
  ∧ code_of B_wrapped BFacade__get = getter_code (BuilderScope builder) B_wrapped BFacade
  ∧ privateInstancesMap B_registry !! counter = Some (VObj bwrapper)
  ∧ call_step demo_host demo_I BFacade__get (VObj BFacade) [VObj counter] B_wrapped
    = Some (Ok (VObj bwrapper), B_wrapped).
Proof.
  do 3 (split; [vm_compute; reflexivity|]).
  apply (X22_get_returns_the_bound_wrapper demo_host demo_I (BuilderScope builder)
           B_wrapped B_registry BFacade__get BFacade (VObj BFacade) counter
           (VObj bwrapper)); vm_compute; reflexivity.
Defined.
